(** * convert_issues.py: commit-index reconciliation and link rewriting

    A shallow embedding of [src/convert_issues.py] (Python 2): the
    [memoize] cache, [get_bb_username], the [BbToGh] class (index
    construction, prefix lookup, the seven rewriting rules and
    [convert_all]), [convert_issue_content] and [insert_missing_issue].

    Python 2 [str] values are byte strings: they are lists of [ascii]
    here.  Dictionaries are stdpp [gmap]s.  Exceptions and the two pieces
    of hidden state (the memoisation cache with the trace of HTTP
    requests, and the logger) are threaded by a small state-and-error
    monad. *)

From Stdlib Require Import Ascii String ZArith Lia.
From stdpp Require Import gmap strings list fin_maps sorting.

Local Open Scope list_scope.

(** ** Byte strings *)

Abbreviation pystr := (list ascii).

Definition str (s : string) : pystr := list_ascii_of_string s.

Definition code (c : ascii) : nat := nat_of_ascii c.

Definition chr_eqb (a b : ascii) : bool := Ascii.eqb a b.

Definition in_range (lo hi : nat) (c : ascii) : bool :=
  (lo <=? code c)%nat && (code c <=? hi)%nat.

(** [\d], [[a-z]], [[A-Z]] and [\w] of Python 2's [re] on byte strings
    (no LOCALE, no UNICODE flag). *)
Definition is_digit (c : ascii) : bool := in_range 48 57 c.
Definition is_lower (c : ascii) : bool := in_range 97 122 c.
Definition is_upper (c : ascii) : bool := in_range 65 90 c.
Definition is_alpha (c : ascii) : bool := is_lower c || is_upper c.
Definition is_alnum (c : ascii) : bool := is_alpha c || is_digit c.
Definition is_word (c : ascii) : bool := is_alnum c || chr_eqb c "_".

(** [s.startswith(p)] *)
Fixpoint startswith (s p : pystr) {struct p} : bool :=
  match p, s with
  | [], _ => true
  | _ :: _, [] => false
  | a :: p', b :: s' => chr_eqb a b && startswith s' p'
  end.

Definition pystr_eqb (a b : pystr) : bool :=
  (length a =? length b)%nat && startswith a b.

(** [c in s] for a single character *)
Definition has_char (c : ascii) (s : pystr) : bool := existsb (chr_eqb c) s.

(** [s.replace(old, new)] for a non-empty [old]: occurrences are taken
    from the left and do not overlap.  [skip] counts the characters of a
    matched occurrence that are still to be dropped. *)
Fixpoint replace_aux (old new : pystr) (skip : nat) (s : pystr) : pystr :=
  match s with
  | [] => []
  | c :: s' =>
    match skip with
    | S k => replace_aux old new k s'
    | O => if startswith s old
           then new ++ replace_aux old new (length old - 1) s'
           else c :: replace_aux old new 0 s'
    end
  end.

(** [s.replace('', new)] puts [new] before every character and at the end. *)
Fixpoint replace_empty (new s : pystr) : pystr :=
  match s with
  | [] => new
  | c :: s' => new ++ c :: replace_empty new s'
  end.

Definition py_replace (s old new : pystr) : pystr :=
  match old with
  | [] => replace_empty new s
  | _ :: _ => replace_aux old new 0 s
  end.

(** Whitespace of [str.strip()] in the C locale: space, TAB, LF, VT, FF, CR. *)
Definition is_space (c : ascii) : bool :=
  (code c =? 32)%nat || in_range 9 13 c.

Fixpoint lstrip_by (f : ascii -> bool) (s : pystr) : pystr :=
  match s with
  | [] => []
  | c :: s' => if f c then lstrip_by f s' else s
  end.

Definition rstrip_by (f : ascii -> bool) (s : pystr) : pystr :=
  rev (lstrip_by f (rev s)).

(** [s.strip()] *)
Definition strip (s : pystr) : pystr := rstrip_by is_space (lstrip_by is_space s).

(** [s.rstrip('/')] *)
Definition rstrip_slash (s : pystr) : pystr := rstrip_by (chr_eqb "/") s.

(** [s.isdigit()]: non-empty and made of the decimal digits of ASCII
    only.  (On [unicode] texts with digits of other scripts the method
    holds for more; a statement that depends on it for every reference
    assumes [is_ascii_text].) *)
Definition isdigit (s : pystr) : bool :=
  match s with
  | [] => false
  | _ :: _ => forallb is_digit s
  end.

(** [int(s)] on a string for which [isdigit] holds. *)
Definition int_of (s : pystr) : Z :=
  fold_left (fun acc c => (10 * acc + Z.of_nat (code c - 48))%Z) s 0%Z.

(** The longest prefix of [s] whose characters satisfy [f], and the rest. *)
Fixpoint span (f : ascii -> bool) (s : pystr) : pystr * pystr :=
  match s with
  | [] => ([], [])
  | c :: s' => if f c then let '(a, b) := span f s' in (c :: a, b) else ([], s)
  end.

(** [s.split(sep)] for a one-character separator. *)
Fixpoint split_on (sep : ascii) (s : pystr) : list pystr :=
  match s with
  | [] => [[]]
  | c :: s' =>
    if chr_eqb c sep then [] :: split_on sep s'
    else match split_on sep s' with
         | [] => [[c]]
         | w :: ws => (c :: w) :: ws
         end
  end.

(** [s.find(c)] as an option, and [s.split(c, 1)] in its two-piece case. *)
Fixpoint split_first (sep : ascii) (s : pystr) : option (pystr * pystr) :=
  match s with
  | [] => None
  | c :: s' =>
    if chr_eqb c sep then Some ([], s')
    else match split_first sep s' with
         | Some (a, b) => Some (c :: a, b)
         | None => None
         end
  end.

(** Lexicographic order of byte strings, Python's [<] on [str]. *)
Fixpoint str_ltb (a b : pystr) : bool :=
  match a, b with
  | [], [] => false
  | [], _ :: _ => true
  | _ :: _, [] => false
  | x :: a', y :: b' =>
    if (code x <? code y)%nat then true
    else if (code y <? code x)%nat then false
    else str_ltb a' b'
  end.


(** ** Regular expressions

    The patterns of the program are fixed, so each is embedded as a
    matcher: given the character before the position ([None] at the start
    of the text) and the text from the position on, it answers the groups
    and the length of the match that Python's backtracking search finds
    there.  Every pattern consumes at least one character. *)

Section Scan.
Context {A : Type}.
Variable m : option ascii -> pystr -> option (A * nat).

(** [re.findall]: leftmost matches, not overlapping. *)
Fixpoint findall_from (prev : option ascii) (skip : nat) (s : pystr) : list A :=
  match s with
  | [] => []
  | c :: s' =>
    match skip with
    | S k => findall_from (Some c) k s'
    | O => match m prev s with
           | Some (a, n) => a :: findall_from (Some c) (n - 1) s'
           | None => findall_from (Some c) 0 s'
           end
    end
  end.

Definition findall (s : pystr) : list A := findall_from None 0 s.

(** [re.sub] with the replacement computed from the groups. *)
Variable repl : A -> pystr.

Fixpoint sub_from (prev : option ascii) (skip : nat) (s : pystr) : pystr :=
  match s with
  | [] => []
  | c :: s' =>
    match skip with
    | S k => sub_from (Some c) k s'
    | O => match m prev s with
           | Some (a, n) => repl a ++ sub_from (Some c) (n - 1) s'
           | None => c :: sub_from (Some c) 0 s'
           end
    end
  end.

Definition re_sub (s : pystr) : pystr := sub_from None 0 s.
End Scan.

(** A literal at the head of the text; answers the rest. *)
Definition match_lit (lit s : pystr) : option pystr :=
  if startswith s lit then Some (drop (length lit) s) else None.

Definition newline : ascii := ascii_of_nat 10.

(** The base URL is pasted into the patterns unescaped, so it is read as
    a pattern: [.] stands for any character but a newline, every other
    character for itself.  (Base URLs with further metacharacters are
    outside this embedding: the statements about the three rules that
    search for the base URL assume [plain_pattern] of it.) *)
Fixpoint match_pattern (pat s : pystr) : option pystr :=
  match pat with
  | [] => Some s
  | p :: pat' =>
    match s with
    | [] => None
    | c :: s' =>
      if (if chr_eqb p "." then negb (chr_eqb c newline) else chr_eqb p c)
      then match_pattern pat' s'
      else None
    end
  end.

(** [<<(cset|changeset) ([^>]+)>>] *)
Definition m_cset_with (marker s1 : pystr) : option ((pystr * pystr) * nat) :=
  match match_lit (marker ++ str " ") s1 with
  | None => None
  | Some s2 =>
    let '(x, s3) := span (fun c => negb (chr_eqb c ">")) s2 in
    match x, match_lit (str ">>") s3 with
    | _ :: _, Some _ => Some ((marker, x), 2 + length marker + 1 + length x + 2)
    | _, _ => None
    end
  end.

Definition m_cset_marker (_ : option ascii) (s : pystr)
  : option ((pystr * pystr) * nat) :=
  match match_lit (str "<<") s with
  | None => None
  | Some s1 =>
    match m_cset_with (str "cset") s1 with
    | Some r => Some r
    | None => m_cset_with (str "changeset") s1
    end
  end.

Definition is_hex (c : ascii) : bool := is_digit c || in_range 97 102 c.

(** [base_url + r'([0-9a-f]+)(/?)'] *)
Definition m_cset_link (base : pystr) (_ : option ascii) (s : pystr)
  : option ((pystr * pystr) * nat) :=
  match match_pattern base s with
  | None => None
  | Some s1 =>
    let '(h, s2) := span is_hex s1 in
    match h with
    | [] => None
    | _ :: _ =>
      let slash := if startswith s2 (str "/") then str "/" else [] in
      Some ((h, slash), length base + length h + length slash)
    end
  end.

(** [[\w\d/?=#.,_-]] *)
Definition is_src_char (c : ascii) : bool :=
  is_word c || has_char c (str "/?=#.,-").

(** [[\w\d.,_-]] *)
Definition is_slug_char (c : ascii) : bool :=
  is_word c || has_char c (str ".,-").

(** An optional group: a slash and then the longest run of characters of
    the class; an absent group reads as the empty string in [re.findall]. *)
Definition opt_slash_group (cls : ascii -> bool) (s : pystr) : pystr :=
  match s with
  | c :: s' => if chr_eqb c "/" then c :: fst (span cls s') else []
  | [] => []
  end.

(** [base_url], then one or more characters other than a slash (group 1),
    then the optional group over [is_src_char] (group 2). *)
Definition m_src_link (base : pystr) (_ : option ascii) (s : pystr)
  : option ((pystr * pystr) * nat) :=
  match match_pattern base s with
  | None => None
  | Some s1 =>
    let '(h, s2) := span (fun c => negb (chr_eqb c "/")) s1 in
    match h with
    | [] => None
    | _ :: _ =>
      let rest := opt_slash_group is_src_char s2 in
      Some ((h, rest), length base + length h + length rest)
    end
  end.

(** [base_url], then one or more digits (group 1), then the optional
    group over [is_slug_char] (group 2). *)
Definition m_issue_link (base : pystr) (_ : option ascii) (s : pystr)
  : option ((pystr * pystr) * nat) :=
  match match_pattern base s with
  | None => None
  | Some s1 =>
    let '(d, s2) := span is_digit s1 in
    match d with
    | [] => None
    | _ :: _ =>
      let rest := opt_slash_group is_slug_char s2 in
      Some ((d, rest), length base + length d + length rest)
    end
  end.

(** [\b] between the character before the position and the one at it. *)
Definition word_before (prev : option ascii) : bool :=
  match prev with Some c => is_word c | None => false end.

Definition word_at (s : pystr) : bool :=
  match s with c :: _ => is_word c | [] => false end.

Definition pr_phrase : pystr := str "pull request #".

(** [\b(pull request #(\d+))\b]: the digits are taken greedily, and no
    shorter run of them ends at a word boundary. *)
Definition m_pr_marker (prev : option ascii) (s : pystr)
  : option ((pystr * pystr) * nat) :=
  if word_before prev then None
  else match match_lit pr_phrase s with
       | None => None
       | Some s1 =>
         let '(d, s2) := span is_digit s1 in
         match d with
         | [] => None
         | _ :: _ =>
           if word_at s2 then None
           else Some ((pr_phrase ++ d, d), length pr_phrase + length d)
         end
       end.

(** [[a-zA-Z0-9_-]] *)
Definition is_user_char (c : ascii) : bool :=
  is_word c || chr_eqb c "-".

(** [@([a-zA-Z][a-zA-Z0-9_-]+)\b]: the run is taken greedily and given
    back character by character until it ends at a word boundary, which
    drops the hyphens at its end. *)
Definition m_user_tail (s : pystr) : option (pystr * nat) :=
  match s with
  | a :: l :: t =>
    if chr_eqb a "@" && is_alpha l then
      match rstrip_by (chr_eqb "-") (fst (span is_user_char t)) with
      | [] => None
      | c :: name => Some (l :: c :: name, 2 + length (c :: name))
      end
    else None
  | _ => None
  end.

(** [(^|[^a-zA-Z0-9])@([a-zA-Z][a-zA-Z0-9_-]+)\b]; [^] is the start of
    the text (no MULTILINE flag). *)
Definition m_user (prev : option ascii) (s : pystr)
  : option ((pystr * pystr) * nat) :=
  let alt1 :=
    match prev with
    | None => match m_user_tail s with
              | Some (u, n) => Some (([], u), n)
              | None => None
              end
    | Some _ => None
    end in
  match alt1 with
  | Some r => Some r
  | None =>
    match s with
    | c :: s1 =>
      if is_alnum c then None
      else match m_user_tail s1 with
           | Some (u, n) => Some (([c], u), S n)
           | None => None
           end
    | [] => None
    end
  end.

(** ** [urlparse.urlparse]

    Python 2.7's [urlsplit] on a string without [:] and [;] (the source
    calls it on the second group of the source-link pattern, whose
    character class has neither): no scheme and no parameters. *)
Record ParseResult := {
  netloc : pystr;
  path : pystr;
  query : pystr;
  fragment : pystr
}.

Definition is_delim (c : ascii) : bool := has_char c (str "/?#").

Definition urlparse (url : pystr) : ParseResult :=
  let '(nl, url1) :=
    if startswith url (str "//")
    then span (fun c => negb (is_delim c)) (drop 2 url)
    else ([], url) in
  let '(url2, frag) :=
    match split_first "#" url1 with
    | Some (a, b) => (a, b)
    | None => (url1, [])
    end in
  let '(url3, q) :=
    match split_first "?" url2 with
    | Some (a, b) => (a, b)
    | None => (url2, [])
    end in
  {| netloc := nl; path := url3; query := q; fragment := frag |}.

(** [re.match('cl-(\d+)', fragment)]: the digits after [cl-], if any. *)
Definition match_cl (frag : pystr) : option pystr :=
  match match_lit (str "cl-") frag with
  | None => None
  | Some r =>
    match fst (span is_digit r) with
    | [] => None
    | d => Some d
    end
  end.



(** ** Effects: exceptions, the memoisation cache, the logger *)

Inductive exn :=
  | KeyError
  | AttributeError.

Inductive result (A : Type) :=
  | Ok (a : A)
  | Raise (e : exn).
Arguments Ok {A} a.
Arguments Raise {A} e.

(** What [get_bb_username] returns: [False], [None] or a display name. *)
Inductive py_value :=
  | PyFalse
  | PyNone
  | PyStr (s : pystr).

(** A parsed date, as an instant. *)
Abbreviation datetime := Z.

(** The calls of [logger.warning].  ([logging.info] and [logging.debug]
    are below the configured level and leave no trace.) *)
Inductive log_event :=
  | WarnDuplicates (date : datetime) (nodes : list pystr)
  | WarnNotInHgLog (date : datetime)
  | WarnHgNodeNotFound (hg_node : pystr)
  | WarnNotInGitLog (hg_node : pystr) (date : datetime).

(** [cache] is [memoize.cache]; [requests] lists the user names for which
    [requests.get] was called, oldest first; [warnings] is the log. *)
Record world := {
  cache : gmap pystr py_value;
  requests : list pystr;
  warnings : list log_event
}.

Definition world0 : world :=
  {| cache := ∅; requests := []; warnings := [] |}.

Definition M (A : Type) : Type := world -> result A * world.

Definition ret {A} (a : A) : M A := fun w => (Ok a, w).

Definition bind {A B} (c : M A) (k : A -> M B) : M B :=
  fun w => match c w with
           | (Ok a, w') => k a w'
           | (Raise e, w') => (Raise e, w')
           end.

Definition raise {A} (e : exn) : M A := fun w => (Raise e, w).

Definition warn (ev : log_event) : M unit :=
  fun w => (Ok tt, {| cache := cache w; requests := requests w;
                      warnings := warnings w ++ [ev] |}).

Notation "x <- c ;; k" := (bind c (fun x => k))
  (at level 100, c at next level, right associativity).
Notation "c ;;; k" := (bind c (fun _ => k))
  (at level 100, right associativity).

(** A [for] loop that rebinds one variable. *)
Fixpoint for_each {A S} (l : list A) (body : A -> S -> M S) (s : S) : M S :=
  match l with
  | [] => ret s
  | a :: l' => s' <- body a s ;; for_each l' body s'
  end.

(** ** [memoize] and [get_bb_username] *)

(** ['-'.join(l)] *)
Fixpoint join (sep : pystr) (l : list pystr) : pystr :=
  match l with
  | [] => []
  | [a] => a
  | a :: l' => a ++ sep ++ join sep l'
  end.

(** [memoize.make_key] for positional string arguments (no call site
    passes keyword arguments, their part of the key is empty). *)
Definition make_key (args : list pystr) : pystr := join (str "-") args.

(** [memoize.__call__]: the wrapper around a one-argument function. *)
Definition memoize_wrap (func : pystr -> M py_value) (arg : pystr) : M py_value :=
  fun w =>
    let key := make_key [arg] in
    match cache w !! key with
    | Some v => (Ok v, w)
    | None =>
      match func arg w with
      | (Ok res, w') =>
        (Ok res, {| cache := <[key := res]> (cache w');
                    requests := requests w'; warnings := warnings w' |})
      | (Raise e, w') => (Raise e, w')
      end
    end.

(** The names that [get_bb_username] takes for code, not users. *)
Definition skipped_users : list pystr :=
  map str ["name"; "names"; "class"; "import"; "property"; "ubuntu"; "wrap";
           "github"; "for"; "enumerate"; "item"; "itemize"; "type"; "title";
           "empty"; "replace"; "gmail"; "id"; "href"; "app"; "echo"]%string.

Definition is_skipped (user : pystr) : bool :=
  existsb (pystr_eqb user) skipped_users.

Section Lookup.
(** The Bitbucket user API: the display name when the request is
    answered with status 200, nothing otherwise. *)
Variable api : pystr -> option pystr.

Definition http_get (user : pystr) : M (option pystr) :=
  fun w => (Ok (api user),
            {| cache := cache w; requests := requests w ++ [user];
               warnings := warnings w |}).

(** The body of [get_bb_username], before decoration. *)
Definition get_bb_username_raw (user : pystr) : M py_value :=
  if is_skipped user then ret PyFalse
  else
    res <- http_get user ;;
    match res with
    | Some display_name => ret (PyStr display_name)
    | None => ret PyNone
    end.

(** [@memoize() def get_bb_username(user)] *)
Definition get_bb_username : pystr -> M py_value :=
  memoize_wrap get_bb_username_raw.
End Lookup.

(** ** The commit index: [BbToGh.__init__] *)

Record hg_log := {
  hg_node : pystr;
  hg_date : pystr;
  hg_desc : pystr;
  hg_revnum : Z
}.

Record git_log := {
  git_node : pystr;
  git_date : pystr;
  git_desc : pystr
}.

Abbreviation match_key := (datetime * pystr)%type.

Record BbToGh := {
  bb_url : pystr;
  gh_url : pystr;
  hg_to_git : gmap pystr (option pystr);
  hg_dates : gmap pystr datetime;
  hg_revnum_to_hg_node : gmap Z pystr;
  sorted_nodes : list pystr
}.

(** The dictionaries while [__init__] runs. *)
Record builder := {
  b_hg_to_git : gmap pystr (option pystr);
  b_hg_dates : gmap pystr datetime;
  b_revnum : gmap Z pystr;
  b_key_to_hg : gmap match_key (list pystr);
  b_log : list log_event
}.

Definition builder0 : builder :=
  {| b_hg_to_git := ∅; b_hg_dates := ∅; b_revnum := ∅; b_key_to_hg := ∅;
     b_log := [] |}.

Section Init.
(** [dateutil.parser.parse] *)
Variable parse : pystr -> datetime.

Definition hg_key (l : hg_log) : match_key := (parse (hg_date l), strip (hg_desc l)).
Definition git_key (l : git_log) : match_key := (parse (git_date l), strip (git_desc l)).

(** One round of [for hg_log in hg_logs]. *)
Definition add_hg (b : builder) (l : hg_log) : builder :=
  let node := strip (hg_node l) in
  let date := parse (hg_date l) in
  let key := hg_key l in
  let group := default [] (b_key_to_hg b !! key) ++ [node] in
  {| b_hg_to_git := <[node := None]> (b_hg_to_git b);
     b_hg_dates := <[node := date]> (b_hg_dates b);
     b_revnum := <[hg_revnum l := node]> (b_revnum b);
     b_key_to_hg := <[key := group]> (b_key_to_hg b);
     b_log := if (1 <? length group)%nat
              then b_log b ++ [WarnDuplicates date group]
              else b_log b |}.

(** [for node in key_to_hg[key]: self.hg_to_git[node] = git_hash] *)
Definition assign_all (nodes : list pystr) (git_hash : pystr)
    (m : gmap pystr (option pystr)) : gmap pystr (option pystr) :=
  fold_left (fun m node => <[node := Some git_hash]> m) nodes m.

(** One round of [for git_log in git_logs]. *)
Definition add_git (b : builder) (l : git_log) : builder :=
  let date := parse (git_date l) in
  let key := git_key l in
  match b_key_to_hg b !! key with
  | None =>
    {| b_hg_to_git := b_hg_to_git b; b_hg_dates := b_hg_dates b;
       b_revnum := b_revnum b; b_key_to_hg := b_key_to_hg b;
       b_log := b_log b ++ [WarnNotInHgLog date] |}
  | Some nodes =>
    {| b_hg_to_git := assign_all nodes (strip (git_node l)) (b_hg_to_git b);
       b_hg_dates := b_hg_dates b; b_revnum := b_revnum b;
       b_key_to_hg := b_key_to_hg b; b_log := b_log b |}
  end.

Definition build (hg_logs : list hg_log) (git_logs : list git_log) : builder :=
  fold_left add_git git_logs (fold_left add_hg hg_logs builder0).
End Init.

(** [sorted] on strings: insertion into an ascending list. *)
Fixpoint insert_sorted (x : pystr) (l : list pystr) : list pystr :=
  match l with
  | [] => [x]
  | y :: l' => if str_ltb y x then y :: insert_sorted x l' else x :: l
  end.

Definition sorted (l : list pystr) : list pystr :=
  fold_right insert_sorted [] l.

(** [BbToGh(hg_logs, git_logs, bb_url, gh_url)], with the warnings that
    the construction logs. *)
Definition BbToGh_init (parse : pystr -> datetime)
    (hg_logs : list hg_log) (git_logs : list git_log) (bb gh : pystr)
  : BbToGh * list log_event :=
  let b := build parse hg_logs git_logs in
  ({| bb_url := rstrip_slash bb;
      gh_url := rstrip_slash gh;
      hg_to_git := b_hg_to_git b;
      hg_dates := b_hg_dates b;
      hg_revnum_to_hg_node := b_revnum b;
      sorted_nodes := sorted (map fst (map_to_list (b_hg_to_git b))) |},
   b_log b).

(** ** Prefix lookup *)

(** [bisect.bisect_left(a, x)]: the loop of the standard library, which
    halves [hi - lo] at least once per round. *)
Fixpoint bisect_loop (fuel : nat) (a : list pystr) (x : pystr) (lo hi : nat) : nat :=
  match fuel with
  | O => lo
  | S fuel' =>
    if (lo <? hi)%nat then
      let mid := ((lo + hi) / 2)%nat in
      match a !! mid with
      | Some am =>
        if str_ltb am x then bisect_loop fuel' a x (mid + 1) hi
        else bisect_loop fuel' a x lo mid
      | None => lo
      end
    else lo
  end.

Definition bisect_left (a : list pystr) (x : pystr) : nat :=
  bisect_loop (length a) a x 0 (length a).

Definition find_hg_node (self : BbToGh) (hg_node : pystr) : option pystr :=
  let idx := bisect_left (sorted_nodes self) hg_node in
  if (idx =? length (sorted_nodes self))%nat then None
  else match sorted_nodes self !! idx with
       | Some full_node =>
         if startswith full_node hg_node then Some full_node else None
       | None => None
       end.

(** [d[k]] *)
Definition getitem {K V} `{Countable K} (d : gmap K V) (k : K) : M V :=
  match d !! k with
  | Some v => ret v
  | None => raise KeyError
  end.

(** [self.hg_to_git[full_node]], where [full_node] may be [None]: no key
    of the dictionary is [None]. *)
Definition getitem_opt {V} (d : gmap pystr V) (k : option pystr) : M V :=
  match k with
  | Some k' => getitem d k'
  | None => raise KeyError
  end.

Definition hgnode_to_githash (self : BbToGh) (hg_node : pystr) : M (option pystr) :=
  if pystr_eqb hg_node (str "tip") then ret None
  else
    let full_node := find_hg_node self hg_node in
    let lookup (hg_node : pystr) (full_node : option pystr) : M (option pystr) :=
      git_hash <- getitem_opt (hg_to_git self) full_node ;;
      match git_hash with
      | None =>
        date <- getitem_opt (hg_dates self) full_node ;;
        warn (WarnNotInGitLog hg_node date) ;;;
        ret None
      | Some h => ret (Some h)
      end in
    match full_node with
    | None =>
      if isdigit hg_node then
        hg_node' <- getitem (hg_revnum_to_hg_node self) (int_of hg_node) ;;
        let full_node' := find_hg_node self hg_node' in
        match full_node' with
        | None => warn (WarnHgNodeNotFound hg_node') ;;; ret None
        | Some _ => lookup hg_node' full_node'
        end
      else lookup hg_node full_node
    | Some _ => lookup hg_node full_node
    end.

(** ** The rewriting rules *)

(** ['%s' % x] for a value that is a string or [None]. *)
Definition fmt_opt (o : option pystr) : pystr :=
  match o with
  | Some s => s
  | None => str "None"
  end.

(** ['%s' % name] for what [get_bb_username] returned. *)
Definition fmt_value (v : py_value) : pystr :=
  match v with
  | PyFalse => str "False"
  | PyNone => str "None"
  | PyStr s => s
  end.

Definition normalize_bb_url (self : BbToGh) (content : pystr) : pystr :=
  let content := py_replace content (str "http://www.bitbucket.org/")
                                    (str "https://bitbucket.org/") in
  let content := py_replace content (str "http://bitbucket.org/")
                                    (str "https://bitbucket.org/") in
  py_replace content (bb_url self ++ str "/changeset/")
                     (bb_url self ++ str "/commits/").

Definition convert_cset_marker (self : BbToGh) (content : pystr) : M pystr :=
  let captures := findall m_cset_marker content in
  for_each captures (fun '(marker, hg_node) content =>
    git_hash <-
      (if has_char ":" hg_node
       then hgnode_to_githash self (nth 1 (split_on ":" hg_node) [])
       else hgnode_to_githash self hg_node) ;;
    ret (py_replace content
           (str "<<" ++ marker ++ str " " ++ hg_node ++ str ">>")
           (str "\<\<cset " ++ fmt_opt git_hash ++ str "\>\>"))) content.

Definition convert_bb_cset_link (self : BbToGh) (content : pystr) : M pystr :=
  let base_url := bb_url self ++ str "/commits/" in
  let url_pairs := findall (m_cset_link base_url) content in
  for_each url_pairs (fun '(hg_node, rest_of_url) content =>
    git_hash <- hgnode_to_githash self hg_node ;;
    let from_ := base_url ++ hg_node ++ rest_of_url in
    let to_ := str " " ++ fmt_opt git_hash ++ str " " in
    ret (py_replace content from_ to_)) content.

Definition convert_bb_pr_marker (self : BbToGh) (content : pystr) : pystr :=
  let captures := findall m_pr_marker content in
  fold_left (fun content '(replacer, pr_number) =>
    py_replace content replacer
      (bb_url self ++ str "/pull-request/" ++ pr_number)) captures content.

Definition convert_bb_src_link (self : BbToGh) (content : pystr) : M pystr :=
  let base_url := bb_url self ++ str "/src/" in
  let url_pairs := findall (m_src_link base_url) content in
  for_each url_pairs (fun '(hg_node, rest_of_url) content =>
    let parsed_url := urlparse rest_of_url in
    let line :=
      match match_cl (fragment parsed_url) with
      | Some digits => str "#L" ++ digits
      | None => []
      end in
    git_hash <- hgnode_to_githash self hg_node ;;
    let git_hash := match git_hash with
                    | None => str "master"
                    | Some h => h
                    end in
    let from_ := base_url ++ hg_node ++ rest_of_url in
    let to_ := gh_url self ++ str "/blob/" ++ git_hash ++ path parsed_url ++ line in
    ret (py_replace content from_ to_)) content.

Definition convert_bb_issue_link (self : BbToGh) (content : pystr) : pystr :=
  let base_url := bb_url self ++ str "/issue/" in
  let issue_pairs := findall (m_issue_link base_url) content in
  fold_left (fun content '(issue_id, rest_of_url) =>
    let from_ := base_url ++ issue_id ++ rest_of_url in
    let to_ := str "#" ++ issue_id in
    py_replace content from_ to_) issue_pairs content.

(** The replacement [r'\1[%s](%s)' % (name, base_url + user)] of
    [re.sub]: group 1 of the match at hand, then the link.  (A display
    name with a backslash would be read as an escape by [re.sub]; such
    names are outside this embedding, and the statements about links
    with a display name assume a name without backslash.) *)
Definition user_link (name : py_value) (user : pystr) (groups : pystr * pystr) : pystr :=
  fst groups ++ str "[" ++ fmt_value name ++ str "](" ++
  str "https://bitbucket.org/" ++ user ++ str ")".

Section Rewriter.
Variable api : pystr -> option pystr.

Definition convert_bb_user_link (self : BbToGh) (content : pystr) : M pystr :=
  for_each (findall m_user content) (fun '(prefix, user) content =>
    name <- get_bb_username api user ;;
    match name with
    | PyNone => ret content
    | _ => ret (re_sub m_user (user_link name user) content)
    end) content.

Definition convert_all (self : BbToGh) (content : pystr) : M pystr :=
  let content := normalize_bb_url self content in
  content <- convert_cset_marker self content ;;
  content <- convert_bb_cset_link self content ;;
  let content := convert_bb_issue_link self content in
  content <- convert_bb_src_link self content ;;
  content <- convert_bb_user_link self content ;;
  let content := convert_bb_pr_marker self content in
  ret content.

(** A pipeline of rules, each fed with the text the one before it
    returned. *)
Fixpoint chain (rules : list (pystr -> M pystr)) (content : pystr) : M pystr :=
  match rules with
  | [] => ret content
  | rule :: rules' => content' <- rule content ;; chain rules' content'
  end.

Definition pure_rule (f : pystr -> pystr) : pystr -> M pystr :=
  fun content => ret (f content).

(** The seven rules in the order of the statements of [convert_all]. *)
Definition rules_in_source_order (self : BbToGh) : list (pystr -> M pystr) :=
  [ pure_rule (normalize_bb_url self);
    convert_cset_marker self;
    convert_bb_cset_link self;
    pure_rule (convert_bb_issue_link self);
    convert_bb_src_link self;
    convert_bb_user_link self;
    pure_rule (convert_bb_pr_marker self) ].

(** The seven rules in the order in which the specification lists
    them: URL normalization, changeset marker, commit link,
    pull-request marker, source link, issue link, user mention. *)
Definition rules_in_listed_order (self : BbToGh) : list (pystr -> M pystr) :=
  [ pure_rule (normalize_bb_url self);
    convert_cset_marker self;
    convert_bb_cset_link self;
    pure_rule (convert_bb_pr_marker self);
    convert_bb_src_link self;
    pure_rule (convert_bb_issue_link self);
    convert_bb_user_link self ].

Definition convert_all_listed_order (self : BbToGh) : pystr -> M pystr :=
  chain (rules_in_listed_order self).
End Rewriter.

(** ** Issues *)

(** A value of a JSON object of the export. *)
Inductive jval :=
  | JStr (s : pystr)
  | JInt (z : Z)
  | JNull.

Abbreviation jobject := (gmap pystr jval).

(** One element of [issues['issues']]. *)
Record issue_entry := {
  id : Z;
  issue : jobject;
  comments : list jobject
}.

(** [d[k]] used as a string. *)
Definition get_str (d : jobject) (k : pystr) : M pystr :=
  match d !! k with
  | Some (JStr s) => ret s
  | Some _ => raise AttributeError
  | None => raise KeyError
  end.

Section Content.
Variable api : pystr -> option pystr.
Variable n2h : BbToGh.

(** [for comment in issue['comments']: comment['body'] = ...]; an
    exception leaves the comments not yet reached as they were. *)
Fixpoint convert_comments (cs : list jobject) (w : world)
  : result unit * list jobject * world :=
  match cs with
  | [] => (Ok tt, [], w)
  | comment :: cs' =>
    match (body <- get_str comment (str "body") ;; convert_all api n2h body) w with
    | (Ok new, w1) =>
      let '(r, cs'', w2) := convert_comments cs' w1 in
      (r, <[str "body" := JStr new]> comment :: cs'', w2)
    | (Raise e, w1) => (Raise e, cs, w1)
    end
  end.

(** The issue is updated in place: the function answers its new state
    next to the outcome. *)
Definition convert_issue_content (e : issue_entry) (w : world)
  : result unit * issue_entry * world :=
  match (content <- get_str (issue e) (str "content") ;;
         convert_all api n2h content) w with
  | (Ok new, w1) =>
    let '(r, cs, w2) := convert_comments (comments e) w1 in
    (r, {| id := id e;
           issue := <[str "content" := JStr new]> (issue e);
           comments := cs |}, w2)
  | (Raise ex, w1) => (Raise ex, e, w1)
  end.

(** [for issue in issues['issues']: convert_issue_content(n2h, issue)] *)
Fixpoint convert_issues (es : list issue_entry) (w : world)
  : result unit * list issue_entry * world :=
  match es with
  | [] => (Ok tt, [], w)
  | e :: es' =>
    match convert_issue_content e w with
    | (Ok _, e', w1) =>
      let '(r, es'', w2) := convert_issues es' w1 in (r, e' :: es'', w2)
    | (Raise ex, e', w1) => (Raise ex, e' :: es', w1)
    end
  end.
End Content.

(** ** [insert_missing_issue] *)

(** The dummy issue; [d] is [datetime.datetime.now().isoformat()]. *)
Definition dummy_issue (d : pystr) (n : Z) : issue_entry :=
  {| id := n;
     issue :=
       <[str "status" := JStr (str "invalid")]>
       (<[str "title" := JStr (str "(deleted)")]>
       (<[str "created_on" := JStr d]>
       (<[str "content" := JStr (str "(deleted)" ++ [ascii_of_nat 13; ascii_of_nat 10])]>
       (<[str "comment_count" := JInt 0]>
       (<[str "local_id" := JInt n]>
       (<[str "utc_created_on" := JStr d]> ∅))))));
     comments := [] |}.

(** [l.insert(idx, x)] *)
Definition list_insert_at {A} (idx : nat) (x : A) (l : list A) : list A :=
  take idx l ++ x :: drop idx l.

Section Fill.
(** The clock: what [datetime.now().isoformat()] gives in the round for
    index [idx] (each round reads it at most once). *)
Variable now : nat -> pystr.

(** The body of [for idx in range(len(issues))]. *)
Definition fill_step (issues : list issue_entry) (idx : nat) : list issue_entry :=
  match issues !! idx with
  | Some e =>
    if (id e =? Z.of_nat idx + 1)%Z then issues
    else list_insert_at idx (dummy_issue (now idx) (Z.of_nat idx + 1)) issues
  | None => issues  (* not reached: the list never shrinks *)
  end.

(** [range(len(issues))] is computed once, before the first round.
    Nothing raises [RetryException], so the [else] branch of the [try]
    leaves the [while 1] loop after the first pass. *)
Definition insert_missing_issue (issues : list issue_entry) : list issue_entry :=
  fold_left fill_step (seq 0 (length issues)) issues.
End Fill.

(** ** Concrete inputs used by the examples *)

Definition demo_parse (s : pystr) : datetime := int_of s.

Definition demo_hg_logs : list hg_log :=
  [ {| hg_node := str "0f18c81b53fc"; hg_date := str "1400000000";
       hg_desc := str "fix the build "; hg_revnum := 5 |};
    {| hg_node := str "714c805d842f"; hg_date := str "1400000600";
       hg_desc := str "add tests"; hg_revnum := 6 |} ].

Definition demo_git_logs : list git_log :=
  [ {| git_node := str "20fa9c09b23e"; git_date := str "1400000000";
       git_desc := str "fix the build" |} ].

Definition demo_bb : pystr := str "https://bitbucket.org/u/r".
Definition demo_gh : pystr := str "https://github.com/u/r".

Definition demo_index : BbToGh :=
  fst (BbToGh_init demo_parse demo_hg_logs demo_git_logs demo_bb demo_gh).

(** A user directory that knows [alice] only. *)
Definition demo_api (user : pystr) : option pystr :=
  if pystr_eqb user (str "alice") then Some (str "Alice") else None.

Definition plain_issue (n : Z) : issue_entry :=
  {| id := n; issue := {[ str "content" := JStr (str "text") ]}; comments := [] |}.

(** ** Notions used by the statements *)

(** The numbers of a list of issues. *)
Definition ids (l : list issue_entry) : list Z := map id l.

(** Two JSON objects that agree at every key other than [k]. *)
Definition same_but (k : pystr) (d d' : jobject) : Prop :=
  delete k d' = delete k d.

(** The user names that the mention pattern finds in a text, in order. *)
Definition mentions (content : pystr) : list pystr :=
  map snd (findall m_user content).

(** Some text of the list mentions [u]. *)
Definition mentioned (u : pystr) (texts : list pystr) : bool :=
  existsb (fun t => bool_decide (u ∈ mentions t)) texts.

(** How many requests for [u] were sent to the API. *)
Definition times_requested (u : pystr) (w : world) : nat :=
  length (filter (fun x => x = u) (requests w)).

Section Run.
Variable api : pystr -> option pystr.
Variable self : BbToGh.

(** The user-mention rule on a sequence of texts, one after the other,
    with the cache they share. *)
Fixpoint convert_user_links (texts : list pystr) : M (list pystr) :=
  match texts with
  | [] => ret []
  | t :: texts' =>
    t' <- convert_bb_user_link api self t ;;
    rest <- convert_user_links texts' ;;
    ret (t' :: rest)
  end.
End Run.

(** A computation that neither reads nor writes the cache and sends no
    request. *)
Definition quiet {A} (c : M A) : Prop :=
  forall w, cache (c w).2 = cache w /\ requests (c w).2 = requests w.

(** [served calls w]: the cache holds an answer for exactly the names in
    [calls], and a request was sent, once, for exactly those of them that
    are not skipped. *)
Definition served (calls : list pystr) (w : world) : Prop :=
  (forall u, is_Some (cache w !! u) <-> u ∈ calls)
  /\ NoDup (requests w)
  /\ (forall u, u ∈ requests w <-> u ∈ calls /\ is_skipped u = false).

(** The cache and the trace of requests agree, for some list of calls. *)
Definition tracked (w : world) : Prop := exists calls, served calls w.

(** A whole run: the rewriting of every issue keeps them in agreement. *)
Definition keeps_tracked {A} (c : M A) : Prop :=
  forall w, tracked w -> tracked (c w).2.

(** The identifier of the last record of the Git log with a given key. *)
Definition last_git (parse : pystr -> datetime) (key : match_key)
    (git_logs : list git_log) : option pystr :=
  (fun g => strip (git_node g)) <$>
    last (filter (fun g => git_key parse g = key) git_logs).

(** Every identifier of the Mercurial log belongs to one commit. *)
Definition one_key_per_node (parse : pystr -> datetime) (hg_logs : list hg_log) : Prop :=
  forall a b, a ∈ hg_logs -> b ∈ hg_logs ->
    strip (hg_node a) = strip (hg_node b) -> hg_key parse a = hg_key parse b.

(** The identifiers of the Mercurial log, as [__init__] reads them. *)
Definition hg_nodes (ls : list hg_log) : list pystr :=
  map (fun l => strip (hg_node l)) ls.

(** What the first loop of [__init__] has built after the records [ls]. *)
Definition hg_loop_inv (parse : pystr -> datetime) (ls : list hg_log) (b : builder) : Prop :=
  (forall n, b_hg_to_git b !! n =
     if bool_decide (n ∈ hg_nodes ls) then Some None else None)
  /\ (forall k, b_key_to_hg b !! k =
       match filter (fun l => hg_key parse l = k) ls with
       | [] => None
       | ls' => Some (hg_nodes ls')
       end).

(** What the second loop has done after the records [gs]. *)
Definition git_loop_inv (parse : pystr -> datetime) (hg_logs : list hg_log)
    (gs : list git_log) (b : builder) : Prop :=
  b_key_to_hg b = b_key_to_hg (fold_left (add_hg parse) hg_logs builder0)
  /\ b_revnum b = b_revnum (fold_left (add_hg parse) hg_logs builder0)
  /\ b_hg_dates b = b_hg_dates (fold_left (add_hg parse) hg_logs builder0)
  /\ (forall n, is_Some (b_hg_to_git b !! n) <-> n ∈ hg_nodes hg_logs)
  /\ (one_key_per_node parse hg_logs ->
      forall l, l ∈ hg_logs ->
        b_hg_to_git b !! strip (hg_node l) = Some (last_git parse (hg_key parse l) gs)).

(** [a <= b] in Python's order on strings. *)
Definition str_le (a b : pystr) : Prop := str_ltb b a = false.

(** A list in ascending order, by positions. *)
Definition ascending (a : list pystr) : Prop :=
  forall i j x y, i <= j -> a !! i = Some x -> a !! j = Some y -> str_le x y.

(** What [hgnode_to_githash] answers once the full identifier is known. *)
Definition answer_for (self : BbToGh) (full_node : pystr) : result (option pystr) :=
  match hg_to_git self !! full_node with
  | Some (Some h) => Ok (Some h)
  | Some None =>
    match hg_dates self !! full_node with
    | Some _ => Ok None
    | None => Raise KeyError
    end
  | None => Raise KeyError
  end.

(** A Mercurial log with an identifier that starts with the word [tip]. *)
Definition tip_hg_logs : list hg_log :=
  [ {| hg_node := str "tip0f18c81b5"; hg_date := str "1400000000";
       hg_desc := str "fix the build"; hg_revnum := 5 |} ].

Definition tip_index : BbToGh :=
  (BbToGh_init demo_parse tip_hg_logs demo_git_logs demo_bb demo_gh).1.

(** Two commits of the Mercurial log with one date and description, and
    two commits of the Git log with that date and description. *)
Definition twin_hg_logs : list hg_log :=
  [ {| hg_node := str "aaa111"; hg_date := str "1400000000";
       hg_desc := str "merge"; hg_revnum := 1 |};
    {| hg_node := str "bbb222"; hg_date := str "1400000000";
       hg_desc := str " merge"; hg_revnum := 2 |} ].

Definition twin_git_logs : list git_log :=
  [ {| git_node := str "c0ffee"; git_date := str "1400000000";
       git_desc := str "merge" |};
    {| git_node := str "decade"; git_date := str "1400000000";
       git_desc := str "merge " |} ].

(** A log in which the identifier [aaa111] comes twice, with two
    descriptions. *)
Definition reused_hg_logs : list hg_log :=
  [ {| hg_node := str "aaa111"; hg_date := str "1400000000";
       hg_desc := str "merge"; hg_revnum := 1 |};
    {| hg_node := str "bbb222"; hg_date := str "1400000000";
       hg_desc := str "merge"; hg_revnum := 2 |};
    {| hg_node := str "aaa111"; hg_date := str "1400000600";
       hg_desc := str "release"; hg_revnum := 3 |} ].

Definition reused_git_logs : list git_log :=
  [ {| git_node := str "c0ffee"; git_date := str "1400000000";
       git_desc := str "merge" |};
    {| git_node := str "decade"; git_date := str "1400000600";
       git_desc := str "release" |} ].

(** ** Notions for the idempotence of the rules *)

(** [s.replace(old, new)] as a relation: the text is read from the left,
    an occurrence of [old] at the head is replaced, any other character
    is copied. *)
Inductive replaced (old new : pystr) : pystr -> pystr -> Prop :=
  | replaced_nil : replaced old new [] []
  | replaced_hit t out :
      replaced old new t out -> replaced old new (old ++ t) (new ++ out)
  | replaced_skip c s out :
      startswith (c :: s) old = false ->
      replaced old new s out -> replaced old new (c :: s) (c :: out).

(** [q] occurs in [s]. *)
Definition occurs (q s : pystr) : Prop := exists a b, s = a ++ q ++ b.

(** One of the two strings is a prefix of the other. *)
Definition compatible (x y : pystr) : bool := startswith x y || startswith y x.

(** No occurrence of [q] in a text can share a character with an
    occurrence of [r] next to which it does not lie: [q] starts at no
    position of [r], and no proper suffix of [q] runs into [r]. *)
Definition no_overlap (q r : pystr) : bool :=
  forallb (fun i => negb (compatible (drop i r) q)) (seq 0 (length r))
  && forallb (fun j => negb (compatible (drop j q) r)) (seq 1 (length q - 1)).

(** The condition on the base URL under which [normalize_bb_url] is
    idempotent: the two [http] prefixes and the changeset URL do not
    overlap the commits URL. *)
Definition normalize_safe (bb : pystr) : bool :=
  no_overlap (str "http://www.bitbucket.org/") (bb ++ str "/commits/")
  && no_overlap (str "http://bitbucket.org/") (bb ++ str "/commits/")
  && no_overlap (bb ++ str "/changeset/") (bb ++ str "/commits/").

(** The character before the text that follows [a], when [prev] is the
    character before [a]. *)
Definition prev_of (prev : option ascii) (a : pystr) : option ascii :=
  match last a with
  | Some c => Some c
  | None => prev
  end.

(** The pull-request pattern matches at the head of [s], with the digits
    [d]: a word boundary before, the phrase, the digits, and then neither
    a digit nor another word character. *)
Definition pr_here (prev : option ascii) (s d : pystr) : Prop :=
  word_before prev = false
  /\ d <> [] /\ forallb is_digit d = true
  /\ exists rest, s = pr_phrase ++ d ++ rest /\ word_at rest = false.

(** The pattern matches somewhere in [s], with the digits [d]. *)
Definition live (prev : option ascii) (s d : pystr) : Prop :=
  exists a b, s = a ++ b /\ pr_here (prev_of prev a) b d.

(** The replacement of the pull-request rule starts with a letter or an
    underscore. *)
Definition head_ok (r : pystr) : bool :=
  match r with
  | c :: _ => is_word c && negb (is_digit c)
  | [] => false
  end.

(** The condition on the base URL under which [convert_bb_pr_marker] is
    idempotent: the phrase does not overlap the start of the URL that
    replaces it, and that URL starts with a letter. *)
Definition pr_safe (bb : pystr) : bool :=
  no_overlap pr_phrase (bb ++ str "/pull-request/")
  && head_ok (bb ++ str "/pull-request/").

(** The base URL that [main] builds for the repository [repo]
    ([<username>/<reponame>]). *)
Definition bitbucket_base (repo : pystr) : pystr :=
  str "https://bitbucket.org/" ++ repo.

(** Texts of the examples. *)
Definition old_link_text : pystr :=
  str "see http://www.bitbucket.org/u/r/changeset/0f18 and pull request #7".

Definition nested_issue_text : pystr :=
  str "https://bitbucket.org/u/r/issue/1 " ++
  str "https://bitbucket.org/u/r/issue/1/https://bitbucket.org/u/r/issue/2".

(** ** Notions for the further properties *)

(** The identifier that [__init__] records for a revision number: that of
    the last record of the log with the number. *)
Definition node_of_revnum (r : Z) (hg_logs : list hg_log) : option pystr :=
  (fun l => strip (hg_node l)) <$> last (filter (fun l => hg_revnum l = r) hg_logs).

(** The date that [__init__] records for an identifier: that of the last
    record of the log with the identifier. *)
Definition date_of_node (parse : pystr -> datetime) (n : pystr)
    (hg_logs : list hg_log) : option datetime :=
  (fun l => parse (hg_date l)) <$>
    last (filter (fun l => strip (hg_node l) = n) hg_logs).

(** A log with three identifiers, two of which start with [f]. *)
Definition family_hg_logs : list hg_log :=
  [ {| hg_node := str "ff02"; hg_date := str "1400000000";
       hg_desc := str "fix the build"; hg_revnum := 5 |};
    {| hg_node := str "0f18"; hg_date := str "1400000600";
       hg_desc := str "add tests"; hg_revnum := 6 |};
    {| hg_node := str "f0a1"; hg_date := str "1400001200";
       hg_desc := str "release"; hg_revnum := 7 |} ].

Definition family_index : BbToGh :=
  (BbToGh_init demo_parse family_hg_logs demo_git_logs demo_bb demo_gh).1.

(** Every answer in the cache is the one the undecorated
    [get_bb_username] gives for the name. *)
Definition cache_sound (api : pystr -> option pystr) (w : world) : Prop :=
  forall u v, cache w !! u = Some v -> (get_bb_username_raw api u w).1 = Ok v.

(** A text in which no rule of [convert_all] can find anything: it has
    none of the characters [<], [/], [@] and [#]. *)
Definition plain (s : pystr) : bool :=
  negb (has_char "<" s || has_char "/" s || has_char "@" s || has_char "#" s).

Definition plain_at (d : jobject) (k : pystr) : Prop :=
  exists s, d !! k = Some (JStr s) /\ plain s = true.

(** An issue whose content and whose comments are such texts. *)
Definition plain_entry (e : issue_entry) : Prop :=
  plain_at (issue e) (str "content")
  /\ Forall (fun c => plain_at c (str "body")) (comments e).

(** ** Domains of the statements *)

(** A text of ASCII characters.  The texts of the run come from
    [json.load], as [unicode]; on ASCII texts the methods [isdigit] and
    [int] agree with those of [str], which the embedding follows. *)
Definition is_ascii_text (s : pystr) : bool :=
  forallb (fun c => (code c <? 128)%nat) s.

(** The characters that [re] reads as operators, the dot apart. *)
Definition is_meta (c : ascii) : bool := has_char c (str "\^$*+?{}[]()|").

(** A base URL that, pasted into a pattern, stands for itself, its dots
    for any character: the patterns that [match_pattern] reads as [re]
    does. *)
Definition plain_pattern (s : pystr) : bool :=
  forallb (fun c => negb (is_meta c)) s.

(** A user name as the mention pattern takes it: a letter, then letters,
    digits, underscores and hyphens, the last of them no hyphen. *)
Definition username (u : pystr) : Prop :=
  exists l body e,
    u = l :: body ++ [e]
    /\ is_alpha l = true /\ forallb is_user_char body = true /\ is_word e = true.

(** No character, or one that cannot be part of a user name. *)
Definition outside_name (o : option ascii) : Prop :=
  match o with
  | Some c => is_user_char c = false
  | None => True
  end.

(** The text [t] mentions the user [u]: it holds [@] and the name, with
    no character of a name right before the [@] and right after the
    name.  This is the reading of the words of the specification; the
    code finds mentions with [m_user]. *)
Definition mention_in (u t : pystr) : Prop :=
  exists a b,
    t = a ++ "@"%char :: u ++ b
    /\ username u /\ outside_name (last a) /\ outside_name (head b).

(** A text that only the user-mention rule and the pull-request rule
    can change: it has no [<] and no [/]. *)
Definition prose (s : pystr) : bool := negb (has_char "<" s || has_char "/" s).

Definition prose_at (d : jobject) (k : pystr) : Prop :=
  exists s, d !! k = Some (JStr s) /\ prose s = true.

(** An issue whose content and whose comments are such texts. *)
Definition prose_entry (e : issue_entry) : Prop :=
  prose_at (issue e) (str "content")
  /\ Forall (fun c => prose_at c (str "body")) (comments e).

(** The texts of an issue: its content and the bodies of its comments. *)
Definition text_of (e : issue_entry) (s : pystr) : Prop :=
  issue e !! str "content" = Some (JStr s)
  \/ exists c, c ∈ comments e /\ c !! str "body" = Some (JStr s).

(** Some text of the issues mentions [u]. *)
Definition mentioned_in_issues (u : pystr) (es : list issue_entry) : Prop :=
  exists e s, e ∈ es /\ text_of e s /\ mention_in u s.

(** An issue with a content and comments, for the examples. *)
Definition issue_with (n : Z) (content : pystr) (bodies : list pystr) : issue_entry :=
  {| id := n;
     issue := {[ str "content" := JStr content ]};
     comments := map (fun b => {[ str "body" := JStr b ]}) bodies |}.

(** Issues that mention [@bob] in four texts, and issues that mention
    the skipped name [@class] in two. *)
Definition bob_issues : list issue_entry :=
  [ issue_with 1 (str "ask @bob") [str "@bob said so"; str "thanks, @bob!"];
    issue_with 2 (str "cc @bob") [] ].

Definition class_issues : list issue_entry :=
  [ issue_with 1 (str "the @class decorator") [str "use @class here"] ].
(** * Properties *)

(** ** Byte strings *)

Lemma chr_eqb_eq a b : chr_eqb a b = true <-> a = b.
Proof. apply Ascii.eqb_eq. Qed.

Lemma chr_eqb_refl a : chr_eqb a a = true.
Proof. apply Ascii.eqb_refl. Qed.

Lemma chr_eqb_neq a b : chr_eqb a b = false <-> a <> b.
Proof. apply Ascii.eqb_neq. Qed.

Lemma startswith_app (p t : pystr) : startswith (p ++ t) p = true.
Proof. induction p as [|a p IH]; simpl; [done|]. by rewrite chr_eqb_refl. Qed.

Lemma startswith_inv (s p : pystr) :
  startswith s p = true -> s = p ++ drop (length p) s.
Proof.
  revert s. induction p as [|a p IH]; intros [|b s] H; simpl in *; try done.
  apply andb_true_iff in H as [Hab H]. apply chr_eqb_eq in Hab as ->.
  f_equal. by apply IH.
Qed.

Lemma startswith_iff (s p : pystr) :
  startswith s p = true <-> exists t, s = p ++ t.
Proof.
  split.
  - intros H. eexists. by apply startswith_inv.
  - intros [t ->]. apply startswith_app.
Qed.

Lemma startswith_refl (s : pystr) : startswith s s = true.
Proof. apply startswith_iff. exists []. by rewrite app_nil_r. Qed.

Lemma pystr_eqb_eq (a b : pystr) : pystr_eqb a b = true <-> a = b.
Proof.
  unfold pystr_eqb. rewrite andb_true_iff, Nat.eqb_eq. split.
  - intros [Hl H]. apply startswith_inv in H. rewrite H at 1.
    rewrite drop_ge by lia. apply app_nil_r.
  - intros ->. split; [done | apply startswith_refl].
Qed.

Lemma pystr_eqb_refl (a : pystr) : pystr_eqb a a = true.
Proof. by apply pystr_eqb_eq. Qed.

Lemma pystr_eqb_neq (a b : pystr) : pystr_eqb a b = false <-> a <> b.
Proof.
  rewrite <- pystr_eqb_eq. destruct (pystr_eqb a b); split; congruence.
Qed.

(** A few runs of the text primitives. *)
Example replace_ex :
  py_replace (str "aXXbXXXc") (str "XX") (str "-") = str "a-b-Xc".
Proof. reflexivity. Qed.

Example findall_user_ex :
  findall m_user (str "@ab-c- x@yz (@q1) @@w_, a@b.c") =
    [([], str "ab-c"); (str "(", str "q1"); (str "@", str "w_")].
Proof. reflexivity. Qed.

Example findall_pr_ex :
  findall m_pr_marker (str "pull request #12, xpull request #3 pull request #4a") =
    [(str "pull request #12", str "12")].
Proof. reflexivity. Qed.

(** ** Resolution and exceptions *)

Lemma hgnode_to_githash_tip self w :
  hgnode_to_githash self (str "tip") w = (Ok None, w).
Proof. reflexivity. Qed.

(** A reference that is neither [tip] nor a string of digits and that no
    identifier of the index starts with makes [hgnode_to_githash] raise
    [KeyError], without a warning. *)
Lemma hgnode_to_githash_unknown_raises self ref w :
  ref <> str "tip" ->
  find_hg_node self ref = None ->
  isdigit ref = false ->
  hgnode_to_githash self ref w = (Raise KeyError, w).
Proof.
  intros Htip Hfind Hdig. unfold hgnode_to_githash.
  apply pystr_eqb_neq in Htip. rewrite Htip, Hfind, Hdig. reflexivity.
Qed.

(** A numeric reference that is no prefix of an identifier and whose
    number is not a revision number of the index raises [KeyError] too. *)
Lemma hgnode_to_githash_revnum_raises self ref w :
  find_hg_node self ref = None ->
  isdigit ref = true ->
  hg_revnum_to_hg_node self !! int_of ref = None ->
  hgnode_to_githash self ref w = (Raise KeyError, w).
Proof.
  intros Hfind Hdig Hrev. unfold hgnode_to_githash.
  destruct (pystr_eqb ref (str "tip")) eqn:Htip.
  - apply pystr_eqb_eq in Htip. subst ref. discriminate Hdig.
  - rewrite Hfind, Hdig. unfold bind, getitem. rewrite Hrev. reflexivity.
Qed.

(** C1 (refuted on the code): a changeset reference to a commit that is
    not in the Mercurial log, [deadbeef] against [demo_index], is not
    answered with [None] and a warning: [hgnode_to_githash] raises
    [KeyError] and logs nothing; so does the numeric reference [77],
    which is no revision number of the index. *)
Theorem hgnode_to_githash_raises_KeyError :
  hgnode_to_githash demo_index (str "deadbeef") world0 = (Raise KeyError, world0)
  /\ hgnode_to_githash demo_index (str "77") world0 = (Raise KeyError, world0).
Proof. split; vm_compute; reflexivity. Qed.

(** The exception leaves [convert_all]: the whole text is lost. *)
Example convert_all_raises :
  fst (convert_all demo_api demo_index (str "see <<cset deadbeef>>") world0)
  = Raise KeyError.
Proof. vm_compute. reflexivity. Qed.

(** ** The order of the rules *)

Lemma bind_ret_l {A B} (a : A) (k : A -> M B) w : bind (ret a) k w = k a w.
Proof. reflexivity. Qed.

Lemma bind_ret_r {A} (c : M A) w : bind c ret w = c w.
Proof. unfold bind, ret. by destruct (c w) as [[a|e] w']. Qed.

Lemma bind_ext {A B} (c : M A) (k1 k2 : A -> M B) w :
  (forall a w', k1 a w' = k2 a w') -> bind c k1 w = bind c k2 w.
Proof. intros H. unfold bind. destruct (c w) as [[a|e] w']; [apply H | done]. Qed.

(** C2 (as amended): [convert_all] is the pipeline of the seven rules in
    the order URL normalization, changeset marker, commit link, issue
    link, source link, user mention, pull-request marker. *)
Theorem convert_all_is_source_order api self content w :
  convert_all api self content w
  = chain (rules_in_source_order api self) content w.
Proof.
  unfold convert_all, rules_in_source_order, chain, pure_rule.
  rewrite bind_ret_l.
  apply bind_ext; intros c1 w1. apply bind_ext; intros c2 w2.
  rewrite bind_ret_l.
  apply bind_ext; intros c3 w3. apply bind_ext; intros c4 w4.
  rewrite bind_ret_l. reflexivity.
Qed.

(** C2 (counterexample): on a text where an issue link follows the words
    [pull request], the source order and the listed order differ: the
    issue link becomes [#63] first and the pull-request rule, which runs
    last, then rewrites [pull request #63]. *)
Lemma convert_all_not_listed_order :
  convert_all demo_api demo_index
    (str "pull request https://bitbucket.org/u/r/issue/63") world0
  <> convert_all_listed_order demo_api demo_index
    (str "pull request https://bitbucket.org/u/r/issue/63") world0.
Proof. vm_compute. discriminate. Qed.

Example convert_all_source_order_ex :
  fst (convert_all demo_api demo_index
         (str "pull request https://bitbucket.org/u/r/issue/63") world0)
  = Ok (str "https://bitbucket.org/u/r/pull-request/63").
Proof. vm_compute. reflexivity. Qed.

Example convert_all_listed_order_ex :
  fst (convert_all_listed_order demo_api demo_index
         (str "pull request https://bitbucket.org/u/r/issue/63") world0)
  = Ok (str "pull request #63").
Proof. vm_compute. reflexivity. Qed.

(** ** Filling the gaps in the issue numbers *)

(** The three examples of the specification. *)
Example insert_missing_issue_1_2_4 now :
  ids (insert_missing_issue now (map plain_issue [1; 2; 4]%Z)) = [1; 2; 3; 4]%Z.
Proof. reflexivity. Qed.

Example insert_missing_issue_1_3_4 now :
  ids (insert_missing_issue now (map plain_issue [1; 3; 4]%Z)) = [1; 2; 3; 4]%Z.
Proof. reflexivity. Qed.

Example insert_missing_issue_1_2_3 now :
  insert_missing_issue now (map plain_issue [1; 2; 3]%Z) = map plain_issue [1; 2; 3]%Z.
Proof. reflexivity. Qed.

Example insert_missing_issue_dummy now :
  insert_missing_issue now (map plain_issue [1; 2; 4]%Z)
  = [plain_issue 1; plain_issue 2; dummy_issue (now 2%nat) 3; plain_issue 4].
Proof. reflexivity. Qed.

(** C3 (refuted on the code): with two numbers missing in a row, issues
    1 and 4, the single pass inserts one dummy issue only: the result
    carries 1, 2, 4, and position 2 holds issue 4, not 3.  An export
    that starts at issue 3 ends as 1, 3. *)
Theorem insert_missing_issue_leaves_gap now :
  ids (insert_missing_issue now (map plain_issue [1; 4]%Z)) = [1; 2; 4]%Z
  /\ ids (insert_missing_issue now (map plain_issue [3]%Z)) = [1; 3]%Z.
Proof. split; reflexivity. Qed.

(** ** User mentions *)

(** C5 (refuted on the code): [get_bb_username] answers [False] for a
    skipped name, which is not [None], so the mention is rewritten into a
    link whose text is [False]; no request is sent. *)
Theorem skipped_user_is_rewritten api self :
  convert_bb_user_link api self (str "the @class decorator") world0
  = (Ok (str "the [False](https://bitbucket.org/class) decorator"),
     {| cache := {[ str "class" := PyFalse ]}; requests := []; warnings := [] |}).
Proof. vm_compute. reflexivity. Qed.

(** C4 (refuted on the code): [re.sub] is called with the pattern of all
    mentions, so the link of the first user found replaces every mention
    in the text, also the mention of a user that the lookup does not
    find. *)
Theorem user_link_replaces_all_mentions self :
  fst (convert_bb_user_link demo_api self (str "@alice asked @bob") world0)
  = Ok (str "[Alice](https://bitbucket.org/alice) asked [Alice](https://bitbucket.org/alice)").
Proof. vm_compute. reflexivity. Qed.

(** A mention of an unknown user alone is left as it is. *)
Example user_link_unknown_alone self :
  fst (convert_bb_user_link demo_api self (str "ask @bob") world0)
  = Ok (str "ask @bob").
Proof. vm_compute. reflexivity. Qed.

(** What the single pass does achieve: the list does not shrink, and the
    positions below the length of the input hold the right numbers. *)
Lemma fill_pass_prefix now issues k :
  k <= length issues ->
  let l := fold_left (fill_step now) (seq 0 k) issues in
  length issues <= length l
  /\ forall i e, i < k -> l !! i = Some e -> id e = (Z.of_nat i + 1)%Z.
Proof.
  induction k as [|k IH]; intros Hk.
  - simpl. split; [done | intros; lia].
  - rewrite seq_S, fold_left_app. cbn [fold_left Nat.add].
    destruct IH as [Hlen Hids]; [lia|].
    set (l := fold_left (fill_step now) (seq 0 k) issues) in *.
    unfold fill_step.
    destruct (l !! k) as [e|] eqn:He.
    2:{ apply lookup_ge_None in He. lia. }
    destruct (id e =? Z.of_nat k + 1)%Z eqn:Hid.
    + split; [done|]. intros i e' Hi Hl.
      destruct (decide (i = k)) as [->|Hne].
      * rewrite He in Hl. injection Hl as <-. by apply Z.eqb_eq.
      * apply (Hids i); [lia | done].
    + unfold list_insert_at. split.
      * rewrite length_app. simpl. rewrite length_take, length_drop. lia.
      * intros i e' Hi Hl.
        assert (Htk : length (take k l) = k) by (rewrite length_take; lia).
        destruct (decide (i = k)) as [->|Hne].
        -- rewrite lookup_app_r, Htk, Nat.sub_diag in Hl by lia.
           injection Hl as <-. done.
        -- rewrite lookup_app_l, lookup_take_lt in Hl by lia.
           apply (Hids i); [lia | done].
Qed.

Lemma insert_missing_issue_prefix now issues i e :
  i < length issues ->
  insert_missing_issue now issues !! i = Some e -> id e = (Z.of_nat i + 1)%Z.
Proof.
  intros Hi. unfold insert_missing_issue.
  by apply (fill_pass_prefix now issues (length issues) (Nat.le_refl _)).
Qed.

(** ** The frame of [convert_issue_content] *)

Lemma same_but_refl k d : same_but k d d.
Proof. reflexivity. Qed.

Lemma same_but_insert k v d : same_but k d (<[k := v]> d).
Proof. unfold same_but. apply delete_insert_eq. Qed.

Lemma same_but_lookup k d d' j : same_but k d d' -> j <> k -> d' !! j = d !! j.
Proof.
  unfold same_but. intros H Hj.
  rewrite <- (lookup_delete_ne d' k j), <- (lookup_delete_ne d k j) by done.
  by rewrite H.
Qed.

Lemma convert_comments_frame api n2h cs w :
  Forall2 (same_but (str "body")) cs (convert_comments api n2h cs w).1.2.
Proof.
  revert w. induction cs as [|c cs IH]; intros w; simpl; [constructor|].
  destruct (bind _ _ w) as [[new|e] w1].
  - specialize (IH w1). destruct (convert_comments api n2h cs w1) as [[r cs''] w2].
    simpl in *. constructor; [apply same_but_insert | done].
  - simpl. apply Forall2_same_length_lookup. split; [done|]. intros i x y Hx Hy.
    rewrite Hx in Hy. injection Hy as ->. apply same_but_refl.
Qed.

(** C10: whatever the outcome (also when a rule raises), the issue after
    [convert_issue_content] has the identifier it had, its [issue] object
    differs from the old one at the key [content] at most, and its
    comments are as many as before and, position by position, differ
    from the old ones at the key [body] at most. *)
Theorem convert_issue_content_frame api n2h e w :
  let e' := (convert_issue_content api n2h e w).1.2 in
  id e' = id e
  /\ same_but (str "content") (issue e) (issue e')
  /\ Forall2 (same_but (str "body")) (comments e) (comments e').
Proof.
  unfold convert_issue_content.
  destruct (bind _ _ w) as [[new|ex] w1].
  - pose proof (convert_comments_frame api n2h (comments e) w1) as H.
    destruct (convert_comments api n2h (comments e) w1) as [[r cs] w2].
    simpl in *. split; [done|]. split; [apply same_but_insert | done].
  - simpl. split; [done|]. split; [apply same_but_refl|].
    apply Forall2_same_length_lookup. split; [done|]. intros i x y Hx Hy.
    rewrite Hx in Hy. injection Hy as ->. apply same_but_refl.
Qed.

(** The new texts are those that [convert_all] returns. *)
Lemma convert_issue_content_content api n2h e w content new w1 :
  issue e !! str "content" = Some (JStr content) ->
  convert_all api n2h content w = (Ok new, w1) ->
  issue (convert_issue_content api n2h e w).1.2 !! str "content" = Some (JStr new).
Proof.
  intros Hc Hall. unfold convert_issue_content, bind, get_str. rewrite Hc.
  unfold ret. rewrite Hall.
  destruct (convert_comments api n2h (comments e) w1) as [[r cs] w2]. simpl.
  apply lookup_insert_eq.
Qed.

(** ** The lookup cache *)

Lemma quiet_ret {A} (a : A) : quiet (ret a).
Proof. by intros w. Qed.

Lemma quiet_raise {A} e : quiet (@raise A e).
Proof. by intros w. Qed.

Lemma quiet_warn ev : quiet (warn ev).
Proof. by intros w. Qed.

Lemma quiet_bind {A B} (c : M A) (k : A -> M B) :
  quiet c -> (forall a, quiet (k a)) -> quiet (bind c k).
Proof.
  intros Hc Hk w. unfold bind. specialize (Hc w).
  destruct (c w) as [[a|e] w1]; simpl in *; [|done].
  destruct (Hk a w1) as [H1 H2]. destruct Hc as [H3 H4]. split; congruence.
Qed.

Lemma quiet_for_each {A S} (l : list A) (body : A -> S -> M S) s :
  (forall a s, quiet (body a s)) -> quiet (for_each l body s).
Proof.
  intros Hb. revert s. induction l as [|a l IH]; intros s; simpl.
  - apply quiet_ret.
  - apply quiet_bind; [apply Hb | apply IH].
Qed.

Lemma quiet_getitem {K V} `{Countable K} (d : gmap K V) k : quiet (getitem d k).
Proof. unfold getitem. destruct (d !! k); [apply quiet_ret | apply quiet_raise]. Qed.

Lemma quiet_getitem_opt {V} (d : gmap pystr V) k : quiet (getitem_opt d k).
Proof. destruct k; [apply quiet_getitem | apply quiet_raise]. Qed.

Create HintDb quiet.
#[local] Hint Resolve quiet_ret quiet_raise quiet_warn quiet_getitem
  quiet_getitem_opt : quiet.

Ltac quiet_step :=
  first [ apply quiet_bind; [|intros ?]
        | apply quiet_for_each; intros [? ?] ?
        | solve [auto with quiet] ].

Lemma quiet_hgnode_to_githash self ref : quiet (hgnode_to_githash self ref).
Proof.
  unfold hgnode_to_githash.
  assert (Hl : forall a b, quiet (
    git_hash <- getitem_opt (hg_to_git self) b ;;
    match git_hash with
    | None => date <- getitem_opt (hg_dates self) b ;;
              warn (WarnNotInGitLog a date) ;;; ret None
    | Some h => ret (Some h)
    end)).
  { intros a b. quiet_step; [quiet_step|]. destruct a0; repeat quiet_step. }
  destruct (pystr_eqb _ _); [quiet_step|].
  destruct (find_hg_node self ref); [apply Hl|].
  destruct (isdigit ref); [|apply Hl].
  quiet_step; [quiet_step|].
  destruct (find_hg_node self a); [apply Hl | repeat quiet_step].
Qed.
#[local] Hint Resolve quiet_hgnode_to_githash : quiet.

Lemma quiet_convert_cset_marker self content : quiet (convert_cset_marker self content).
Proof.
  unfold convert_cset_marker. quiet_step. quiet_step; [|quiet_step].
  destruct (has_char _ _); quiet_step.
Qed.

Lemma quiet_convert_bb_cset_link self content : quiet (convert_bb_cset_link self content).
Proof. unfold convert_bb_cset_link. repeat quiet_step. Qed.

Lemma quiet_convert_bb_src_link self content : quiet (convert_bb_src_link self content).
Proof. unfold convert_bb_src_link. repeat quiet_step. Qed.

Lemma served_world0 : served [] world0.
Proof.
  split; [|split]; simpl.
  - intros u. rewrite lookup_empty. split; [by intros [? ?] | by intros ?%elem_of_nil].
  - constructor.
  - intros u. split; [by intros ?%elem_of_nil | by intros [?%elem_of_nil _]].
Qed.

Lemma make_key_one arg : make_key [arg] = arg.
Proof. reflexivity. Qed.

Lemma served_hit calls u w :
  served calls w -> u ∈ calls -> served (calls ++ [u]) w.
Proof.
  intros (Hc & Hnd & Hr) Hin.
  assert (Hiff : forall x, x ∈ calls ++ [u] <-> x ∈ calls).
  { intros x. rewrite elem_of_app, list_elem_of_singleton.
    split; [intros [? | ->]; done | auto]. }
  split; [|split; [done|]]; intros x; rewrite Hiff; [apply Hc | apply Hr].
Qed.

Lemma served_miss calls u v w ws :
  served calls w -> u ∉ calls ->
  served (calls ++ [u])
    {| cache := <[u := v]> (cache w);
       requests := if is_skipped u then requests w else requests w ++ [u];
       warnings := ws |}.
Proof.
  intros (Hc & Hnd & Hr) Hnin.
  assert (Hnr : u ∉ requests w) by (intros Hx; apply Hr in Hx; tauto).
  split; [|split]; simpl.
  - intros x. rewrite elem_of_app, list_elem_of_singleton, lookup_insert.
    case_decide as Hx.
    + subst x. split; [auto | eauto].
    + rewrite Hc. split; [auto | intros [?|?]; congruence].
  - destruct (is_skipped u); [done|]. apply NoDup_app. split; [done|].
    split; [|apply NoDup_singleton].
    intros x Hx Hxu. apply list_elem_of_singleton in Hxu. congruence.
  - intros x. rewrite elem_of_app, list_elem_of_singleton.
    destruct (is_skipped u) eqn:Hs.
    + rewrite Hr. split; [tauto|]. intros [[? | ->] ?]; [tauto | congruence].
    + rewrite elem_of_app, list_elem_of_singleton, Hr.
      split; [intros [[? ?] | ->]; auto | intros [[? | ->] ?]; auto].
Qed.

Lemma get_bb_username_served api calls u w :
  served calls w ->
  served (calls ++ [u]) (get_bb_username api u w).2
  /\ exists v, (get_bb_username api u w).1 = Ok v.
Proof.
  intros Hs. pose proof Hs as (Hc & _ & _).
  unfold get_bb_username, memoize_wrap.
  rewrite make_key_one. destruct (cache w !! u) as [v|] eqn:Hu.
  - simpl. split; [|eauto]. apply served_hit; [done|]. apply Hc. eauto.
  - assert (Hnin : u ∉ calls) by (rewrite <- Hc, Hu; by intros [? ?]).
    pose proof (fun v => served_miss calls u v w (warnings w) Hs Hnin) as Hm.
    unfold get_bb_username_raw. destruct (is_skipped u) eqn:Hsk.
    + simpl. split; [apply Hm | eauto].
    + unfold bind, http_get. destruct (api u) as [d|]; simpl;
        (split; [apply Hm | eauto]).
Qed.

Lemma served_quiet {A} (c : M A) calls w :
  quiet c -> served calls w -> served calls (c w).2.
Proof.
  intros Hq (Hc & Hnd & Hr). destruct (Hq w) as [H1 H2].
  unfold served. rewrite H1, H2. done.
Qed.

Lemma bind_ok {A B} (c : M A) (k : A -> M B) w a w1 :
  c w = (Ok a, w1) -> bind c k w = k a w1.
Proof. intros H. unfold bind. by rewrite H. Qed.

Lemma user_link_loop_served api calls (caps : list (pystr * pystr)) content w :
  served calls w ->
  let body := fun '(prefix, user) content =>
    name <- get_bb_username api user ;;
    match name with
    | PyNone => ret content
    | _ => ret (re_sub m_user (user_link name user) content)
    end in
  served (calls ++ map snd caps) (for_each caps body content w).2
  /\ exists c, (for_each caps body content w).1 = Ok c.
Proof.
  intros Hs body. revert calls content w Hs.
  induction caps as [|[prefix user] caps IH]; intros calls content w Hs; simpl.
  - rewrite app_nil_r. eauto.
  - destruct (get_bb_username_served api calls user w Hs) as [Hs' [v Hv]].
    destruct (get_bb_username api user w) as [r w1] eqn:Hget.
    simpl in Hv, Hs'. subst r.
    assert (Hbody : exists content',
              body (prefix, user) content w = (Ok content', w1)).
    { unfold body. rewrite (bind_ok _ _ _ _ _ Hget). destruct v; eauto. }
    destruct Hbody as [content' Hbody].
    rewrite (bind_ok _ _ _ _ _ Hbody), cons_middle, app_assoc.
    by apply IH.
Qed.

Lemma convert_bb_user_link_served api self calls content w :
  served calls w ->
  served (calls ++ mentions content) (convert_bb_user_link api self content w).2
  /\ exists c, (convert_bb_user_link api self content w).1 = Ok c.
Proof. intros Hs. apply (user_link_loop_served api calls _ content w Hs). Qed.

Lemma convert_user_links_served api self texts calls w :
  served calls w ->
  served (calls ++ concat (map mentions texts)) (convert_user_links api self texts w).2.
Proof.
  revert calls w. induction texts as [|t texts IH]; intros calls w Hs; simpl.
  - by rewrite app_nil_r.
  - destruct (convert_bb_user_link_served api self calls t w Hs) as [Hs' [c Hc]].
    unfold bind at 1.
    destruct (convert_bb_user_link api self t w) as [r w1]. simpl in *. subst r.
    rewrite app_assoc. specialize (IH _ _ Hs').
    unfold bind. destruct (convert_user_links api self texts w1) as [[rest|e] w2]; done.
Qed.

Lemma times_requested_served calls w u :
  served calls w ->
  times_requested u w
  = if bool_decide (u ∈ calls) && negb (is_skipped u) then 1 else 0.
Proof.
  intros (_ & Hnd & Hr). unfold times_requested.
  assert (Hcount : forall l : list pystr, NoDup l ->
            length (filter (fun x => x = u) l) = if bool_decide (u ∈ l) then 1 else 0).
  { induction 1 as [|x l Hx Hl IH]; [done|].
    rewrite filter_cons. destruct (decide (x = u)) as [Hxu|Hxu].
    - subst x. simpl. rewrite IH. rewrite (bool_decide_eq_false_2 _ Hx).
      rewrite bool_decide_eq_true_2 by apply list_elem_of_here. done.
    - rewrite IH. apply (f_equal (fun b : bool => if b then 1 else 0)).
      apply bool_decide_ext. rewrite elem_of_cons.
      split; [auto | intros [?|?]; congruence]. }
  rewrite (Hcount _ Hnd). apply (f_equal (fun b : bool => if b then 1 else 0)).
  apply eq_true_iff_eq. rewrite bool_decide_eq_true, andb_true_iff,
    bool_decide_eq_true, negb_true_iff. apply Hr.
Qed.

Lemma mentioned_concat u texts :
  bool_decide (u ∈ concat (map mentions texts)) = mentioned u texts.
Proof.
  induction texts as [|t texts IH]; simpl; [done|].
  rewrite <- IH. apply eq_true_iff_eq.
  rewrite orb_true_iff, !bool_decide_eq_true. apply elem_of_app.
Qed.

(** A whole run: the rewriting of every issue, from an empty cache. *)

Lemma keeps_quiet {A} (c : M A) : quiet c -> keeps_tracked c.
Proof. intros Hq w [calls Hs]. exists calls. by apply served_quiet. Qed.

Lemma keeps_bind {A B} (c : M A) (k : A -> M B) :
  keeps_tracked c -> (forall a, keeps_tracked (k a)) -> keeps_tracked (bind c k).
Proof.
  intros Hc Hk w Hw. unfold bind. specialize (Hc w Hw).
  destruct (c w) as [[a|e] w1]; simpl in *; [by apply Hk | done].
Qed.

Lemma keeps_convert_all api self content :
  keeps_tracked (convert_all api self content).
Proof.
  unfold convert_all.
  apply keeps_bind; [apply keeps_quiet, quiet_convert_cset_marker|].
  intros c1. apply keeps_bind; [apply keeps_quiet, quiet_convert_bb_cset_link|].
  intros c2. apply keeps_bind; [apply keeps_quiet, quiet_convert_bb_src_link|].
  intros c3. apply keeps_bind; [|intros c4; apply keeps_quiet, quiet_ret].
  intros w [calls Hs]. eexists. by apply convert_bb_user_link_served.
Qed.

Lemma keeps_get_str d k : keeps_tracked (get_str d k).
Proof.
  apply keeps_quiet. unfold get_str.
  destruct (d !! k) as [[]|]; auto with quiet.
Qed.

Lemma keeps_get_and_convert api n2h d k :
  keeps_tracked (bind (get_str d k) (convert_all api n2h)).
Proof. apply keeps_bind; [apply keeps_get_str | intros a; apply keeps_convert_all]. Qed.

Lemma tracked_convert_comments api n2h cs w :
  tracked w -> tracked (convert_comments api n2h cs w).2.
Proof.
  revert w. induction cs as [|c cs IH]; intros w Hw; simpl; [done|].
  pose proof (keeps_get_and_convert api n2h c (str "body") w Hw) as Hb.
  destruct (bind _ _ w) as [[new|e] w1]; simpl in *; [|done].
  specialize (IH w1 Hb). by destruct (convert_comments api n2h cs w1) as [[r cs''] w2].
Qed.

Lemma tracked_convert_issue_content api n2h e w :
  tracked w -> tracked (convert_issue_content api n2h e w).2.
Proof.
  intros Hw. unfold convert_issue_content.
  pose proof (keeps_get_and_convert api n2h (issue e) (str "content") w Hw) as Hb.
  destruct (bind _ _ w) as [[new|ex] w1]; simpl in *; [|done].
  pose proof (tracked_convert_comments api n2h (comments e) w1 Hb).
  by destruct (convert_comments api n2h (comments e) w1) as [[r cs] w2].
Qed.

Lemma tracked_convert_issues api n2h es w :
  tracked w -> tracked (convert_issues api n2h es w).2.
Proof.
  revert w. induction es as [|e es IH]; intros w Hw; simpl; [done|].
  pose proof (tracked_convert_issue_content api n2h e w Hw) as He.
  destruct (convert_issue_content api n2h e w) as [[[u|ex] e'] w1]; simpl in *; [|done].
  specialize (IH w1 He). by destruct (convert_issues api n2h es w1) as [[r es''] w2].
Qed.

(** The user-mention rule alone, on a sequence of texts and from an
    empty cache: a name is requested once if [m_user] finds it in some
    text and it is not one of the skipped names, and never otherwise. *)
Lemma convert_user_links_requests api n2h texts u :
  times_requested u (convert_user_links api n2h texts world0).2
  = if mentioned u texts && negb (is_skipped u) then 1 else 0.
Proof.
  pose proof (convert_user_links_served api n2h texts [] world0 served_world0) as Hs.
  rewrite (times_requested_served _ _ _ Hs). simpl. by rewrite mentioned_concat.
Qed.

Example user_lookup_trace :
  requests (convert_user_links demo_api demo_index
              [str "@alice and @bob"; str "@bob, @alice: see @class"; str "(@alice)"]
              world0).2
  = [str "alice"; str "bob"].
Proof. vm_compute. reflexivity. Qed.

(** ** The commit index *)

Section IndexFacts.
Variable parse : pystr -> datetime.

Lemma elem_of_hg_nodes n ls :
  n ∈ hg_nodes ls <-> exists l, l ∈ ls /\ strip (hg_node l) = n.
Proof.
  unfold hg_nodes. rewrite list_elem_of_fmap. split; intros (l & ? & ?); eauto.
Qed.

Lemma hg_loop_inv_nil : hg_loop_inv parse [] builder0.
Proof.
  split; intros x; simpl; by rewrite lookup_empty.
Qed.

Lemma hg_loop_inv_snoc ls b l :
  hg_loop_inv parse ls b -> hg_loop_inv parse (ls ++ [l]) (add_hg parse b l).
Proof.
  intros [Hm Hk]. split; simpl.
  - intros n. unfold hg_nodes. rewrite map_app. fold (hg_nodes ls). simpl.
    rewrite lookup_insert. case_decide as Hn.
    + rewrite bool_decide_eq_true_2; [done|]. apply elem_of_app. right.
      rewrite Hn. apply list_elem_of_here.
    + rewrite Hm. apply (f_equal (fun c : bool => if c then Some None else None)).
      apply bool_decide_ext. rewrite elem_of_app, list_elem_of_singleton.
      split; [auto | intros [?|?]; congruence].
  - intros k. rewrite lookup_insert, filter_app, filter_cons, filter_nil.
    case_decide as Hkk.
    + rewrite Hk, Hkk.
      destruct (filter _ ls) as [|x xs] eqn:Hf; simpl; [done|].
      unfold hg_nodes. by rewrite map_app.
    + rewrite app_nil_r. rewrite Hk. by destruct (filter _ ls).
Qed.

Lemma hg_loop_inv_fold ls0 b0 ls :
  hg_loop_inv parse ls0 b0 ->
  hg_loop_inv parse (ls0 ++ ls) (fold_left (add_hg parse) ls b0).
Proof.
  revert ls0 b0. induction ls as [|l ls IH]; intros ls0 b0 H; simpl.
  - by rewrite app_nil_r.
  - rewrite cons_middle, app_assoc. apply IH. by apply hg_loop_inv_snoc.
Qed.

Lemma hg_loop_result ls :
  hg_loop_inv parse ls (fold_left (add_hg parse) ls builder0).
Proof. apply (hg_loop_inv_fold [] builder0 ls), hg_loop_inv_nil. Qed.

Lemma assign_all_lookup nodes h m n :
  assign_all nodes h m !! n = if bool_decide (n ∈ nodes) then Some (Some h) else m !! n.
Proof.
  unfold assign_all. revert m. induction nodes as [|x nodes IH]; intros m; simpl.
  - done.
  - rewrite IH. destruct (bool_decide (n ∈ nodes)) eqn:Hn.
    + apply bool_decide_eq_true in Hn.
      rewrite bool_decide_eq_true_2; [done | by apply list_elem_of_further].
    + apply bool_decide_eq_false in Hn. rewrite lookup_insert. case_decide as Hx.
      * subst. rewrite bool_decide_eq_true_2; [done | apply list_elem_of_here].
      * rewrite bool_decide_eq_false_2; [done|].
        intros [?|?]%elem_of_cons; congruence.
Qed.

Lemma last_git_snoc key gs g :
  last_git parse key (gs ++ [g]) =
    if decide (git_key parse g = key) then Some (strip (git_node g))
    else last_git parse key gs.
Proof.
  unfold last_git. rewrite filter_app, filter_cons, filter_nil.
  case_decide; [by rewrite last_snoc | by rewrite app_nil_r].
Qed.

Lemma key_to_hg_nodes hg_logs k nodes n :
  b_key_to_hg (fold_left (add_hg parse) hg_logs builder0) !! k = Some nodes ->
  n ∈ nodes <-> exists l, l ∈ hg_logs /\ hg_key parse l = k /\ strip (hg_node l) = n.
Proof.
  destruct (hg_loop_result hg_logs) as [_ Hk]. rewrite Hk.
  intros Hnodes.
  assert (nodes = hg_nodes (filter (fun l => hg_key parse l = k) hg_logs)) as ->.
  { destruct (filter _ hg_logs); [done | congruence]. }
  rewrite elem_of_hg_nodes. split.
  - intros (l & Hl & <-). apply list_elem_of_filter in Hl as [? ?]. eauto.
  - intros (l & Hl & Hkey & <-). exists l. split; [|done].
    by apply list_elem_of_filter.
Qed.

Lemma key_to_hg_present hg_logs l :
  l ∈ hg_logs ->
  is_Some (b_key_to_hg (fold_left (add_hg parse) hg_logs builder0) !! hg_key parse l).
Proof.
  intros Hl. destruct (hg_loop_result hg_logs) as [_ Hk]. rewrite Hk.
  destruct (filter _ hg_logs) as [|x xs] eqn:Hf; [|eauto].
  exfalso. assert (Hin : l ∈ filter (fun l0 => hg_key parse l0 = hg_key parse l) hg_logs)
    by by apply list_elem_of_filter.
  rewrite Hf in Hin. by apply elem_of_nil in Hin.
Qed.

Lemma git_loop_inv_nil hg_logs :
  git_loop_inv parse hg_logs [] (fold_left (add_hg parse) hg_logs builder0).
Proof.
  destruct (hg_loop_result hg_logs) as [Hm _].
  split; [done|]. split; [done|]. split; [done|]. split.
  - intros n. rewrite Hm. case_bool_decide as Hn; [by eauto|].
    split; [by intros [? ?] | done].
  - intros _ l Hl. rewrite Hm. rewrite bool_decide_eq_true_2; [done|].
    apply elem_of_hg_nodes. eauto.
Qed.

#[local] Arguments assign_all : simpl never.

Lemma git_loop_inv_snoc hg_logs gs b g :
  git_loop_inv parse hg_logs gs b -> git_loop_inv parse hg_logs (gs ++ [g]) (add_git parse b g).
Proof.
  intros (Hk & Hr & Hd & Hdom & Hmap). unfold add_git.
  destruct (b_key_to_hg b !! git_key parse g) as [nodes|] eqn:Hg; simpl.
  - rewrite Hk in Hg. pose proof (fun n => key_to_hg_nodes _ _ _ n Hg) as Hnodes.
    split; [done|]. split; [done|]. split; [done|]. split.
    + intros n. simpl. rewrite assign_all_lookup. case_bool_decide as Hn; [|apply Hdom].
      split; [|eauto]. intros _. apply (Hnodes n) in Hn as (l & ? & ? & ?).
      apply elem_of_hg_nodes. eauto.
    + intros Hone l Hl. simpl. rewrite assign_all_lookup, last_git_snoc.
      case_bool_decide as Hn.
      * apply (Hnodes _) in Hn as (l' & Hl' & Hkey & Hnode).
        rewrite decide_True; [done|]. rewrite <- Hkey. by apply Hone.
      * rewrite decide_False; [by apply Hmap|]. intros Hkey. apply Hn.
        apply (Hnodes _). eauto.
  - split; [done|]. split; [done|]. split; [done|]. split; [done|].
    intros Hone l Hl. rewrite last_git_snoc, decide_False; [by apply Hmap|].
    intros Hkey. destruct (key_to_hg_present hg_logs l Hl) as [x Hx].
    rewrite <- Hk, <- Hkey, Hg in Hx. done.
Qed.

Lemma git_loop_inv_fold hg_logs gs0 b0 gs :
  git_loop_inv parse hg_logs gs0 b0 ->
  git_loop_inv parse hg_logs (gs0 ++ gs) (fold_left (add_git parse) gs b0).
Proof.
  revert gs0 b0. induction gs as [|g gs IH]; intros gs0 b0 H; simpl.
  - by rewrite app_nil_r.
  - rewrite cons_middle, app_assoc. apply IH. by apply git_loop_inv_snoc.
Qed.

Lemma build_result hg_logs git_logs :
  git_loop_inv parse hg_logs git_logs (build parse hg_logs git_logs).
Proof. apply (git_loop_inv_fold hg_logs [] _ git_logs), git_loop_inv_nil. Qed.
End IndexFacts.

(** C6: in a log in which every identifier belongs to one commit (one
    date and description), as in every log of a Mercurial repository,
    whose identifiers are hashes of the commits, the records with one
    key (date, stripped description) are all mapped to one and the same
    value: the stripped identifier of the last record of the Git log
    with that key ([None] when the Git log has no record with it). *)
Theorem same_key_same_git_hash parse hg_logs git_logs bb gh l1 l2 :
  one_key_per_node parse hg_logs ->
  l1 ∈ hg_logs -> l2 ∈ hg_logs ->
  hg_key parse l1 = hg_key parse l2 ->
  let index := (BbToGh_init parse hg_logs git_logs bb gh).1 in
  hg_to_git index !! strip (hg_node l1)
    = Some (last_git parse (hg_key parse l1) git_logs)
  /\ hg_to_git index !! strip (hg_node l2)
    = hg_to_git index !! strip (hg_node l1).
Proof.
  intros Hone H1 H2 Hkey. simpl.
  destruct (build_result parse hg_logs git_logs) as (_ & _ & _ & _ & Hmap).
  rewrite !Hmap by done. by rewrite Hkey.
Qed.

Lemma same_key_same_git_hash_witness :
  let index := (BbToGh_init demo_parse twin_hg_logs twin_git_logs demo_bb demo_gh).1 in
  hg_to_git index !! str "aaa111" = Some (Some (str "decade"))
  /\ hg_to_git index !! str "bbb222" = hg_to_git index !! str "aaa111".
Proof.
  apply (same_key_same_git_hash demo_parse twin_hg_logs twin_git_logs
           demo_bb demo_gh
           {| hg_node := str "aaa111"; hg_date := str "1400000000";
              hg_desc := str "merge"; hg_revnum := 1 |}
           {| hg_node := str "bbb222"; hg_date := str "1400000000";
              hg_desc := str " merge"; hg_revnum := 2 |}).
  - intros a b Ha Hb _.
    apply elem_of_cons in Ha as [->|Ha]; [|apply list_elem_of_singleton in Ha as ->];
    (apply elem_of_cons in Hb as [->|Hb]; [|apply list_elem_of_singleton in Hb as ->]);
    reflexivity.
  - apply list_elem_of_here.
  - apply list_elem_of_further, list_elem_of_here.
  - reflexivity.
Defined.

(** Why the condition is stated: [reused_hg_logs], a log as no
    repository gives it, has the identifier of its first record again in
    the third, under another key, and the Git commit of that key is what
    the identifier is mapped to in the end. *)
Lemma same_key_different_git_hash :
  let index := (BbToGh_init demo_parse reused_hg_logs reused_git_logs demo_bb demo_gh).1 in
  exists l1 l2,
    l1 ∈ reused_hg_logs /\ l2 ∈ reused_hg_logs
    /\ hg_key demo_parse l1 = hg_key demo_parse l2
    /\ hg_to_git index !! strip (hg_node l1) <> hg_to_git index !! strip (hg_node l2).
Proof.
  exists {| hg_node := str "aaa111"; hg_date := str "1400000000";
            hg_desc := str "merge"; hg_revnum := 1 |},
         {| hg_node := str "bbb222"; hg_date := str "1400000000";
            hg_desc := str "merge"; hg_revnum := 2 |}.
  split; [apply list_elem_of_here|].
  split; [apply list_elem_of_further, list_elem_of_here|].
  split; [reflexivity|]. vm_compute. discriminate.
Qed.

Example same_key_different_git_hash_values :
  let index := (BbToGh_init demo_parse reused_hg_logs reused_git_logs demo_bb demo_gh).1 in
  hg_to_git index !! str "aaa111" = Some (Some (str "decade"))
  /\ hg_to_git index !! str "bbb222" = Some (Some (str "c0ffee")).
Proof. split; vm_compute; reflexivity. Qed.

(** ** The order on strings, [sorted] and [bisect_left] *)

Lemma code_inj a b : code a = code b -> a = b.
Proof.
  unfold code. intros H.
  rewrite <- (ascii_nat_embedding a), <- (ascii_nat_embedding b). by rewrite H.
Qed.

Lemma str_ltb_irrefl a : str_ltb a a = false.
Proof.
  induction a as [|x a IH]; simpl; [done|].
  by rewrite Nat.ltb_irrefl.
Qed.

Lemma str_ltb_trans a b c :
  str_ltb a b = true -> str_ltb b c = true -> str_ltb a c = true.
Proof.
  revert b c. induction a as [|x a IH]; intros [|y b] [|z c]; simpl; try done.
  destruct (code x <? code y) eqn:Hxy, (code y <? code z) eqn:Hyz,
    (code x <? code z) eqn:Hxz, (code y <? code x) eqn:Hyx,
    (code z <? code y) eqn:Hzy, (code z <? code x) eqn:Hzx; try done;
    rewrite ?Nat.ltb_lt, ?Nat.ltb_ge in *; try lia.
  apply IH.
Qed.

Lemma str_ltb_trichotomy a b :
  str_ltb a b = false -> str_ltb b a = false -> a = b.
Proof.
  revert b. induction a as [|x a IH]; intros [|y b]; simpl; try done.
  destruct (code x <? code y) eqn:Hxy, (code y <? code x) eqn:Hyx; try done.
  rewrite Nat.ltb_ge in *. intros H1 H2.
  f_equal; [apply code_inj; lia | by apply IH].
Qed.

Lemma str_ltb_asym a b : str_ltb a b = true -> str_ltb b a = false.
Proof.
  intros H. destruct (str_ltb b a) eqn:Hba; [|done].
  pose proof (str_ltb_trans _ _ _ H Hba) as Haa. by rewrite str_ltb_irrefl in Haa.
Qed.

Lemma str_le_refl a : str_le a a.
Proof. apply str_ltb_irrefl. Qed.

Lemma str_le_lt_trans a b c : str_le a b -> str_ltb b c = true -> str_ltb a c = true.
Proof.
  unfold str_le. intros Hab Hbc. destruct (str_ltb a b) eqn:Hlt.
  - by apply (str_ltb_trans a b c).
  - by rewrite (str_ltb_trichotomy a b Hlt Hab).
Qed.

Lemma str_le_trans a b c : str_le a b -> str_le b c -> str_le a c.
Proof.
  unfold str_le. intros Hab Hbc. destruct (str_ltb c a) eqn:Hca; [|done].
  pose proof (str_le_lt_trans _ _ _ Hbc Hca) as Hba. congruence.
Qed.

(** A string is not below its prefixes. *)
Lemma prefix_str_le p n : startswith n p = true -> str_le p n.
Proof.
  unfold str_le. revert n. induction p as [|c p IH]; intros [|d n]; simpl; try done.
  intros [Hc Hp]%andb_true_iff. apply chr_eqb_eq in Hc as ->.
  rewrite Nat.ltb_irrefl. by apply IH.
Qed.

(** Between a prefix of [n] and [n] there are only strings that start
    with that prefix. *)
Lemma between_prefix p m n :
  startswith n p = true -> str_le p m -> str_le m n -> startswith m p = true.
Proof.
  unfold str_le. revert m n.
  induction p as [|c p IH]; intros [|d m] [|e n]; simpl; try done.
  intros [Hc Hp]%andb_true_iff. apply chr_eqb_eq in Hc. subst e.
  destruct (code d <? code c) eqn:Hdc, (code c <? code d) eqn:Hcd; try done.
  rewrite Nat.ltb_ge in *. assert (d = c) as -> by (apply code_inj; lia).
  rewrite chr_eqb_refl. simpl. by apply IH.
Qed.

Lemma elem_of_insert_sorted z x l : z ∈ insert_sorted x l <-> z = x \/ z ∈ l.
Proof.
  induction l as [|y l IH]; simpl.
  - rewrite list_elem_of_singleton, elem_of_nil. tauto.
  - destruct (str_ltb y x); rewrite !elem_of_cons, ?IH; tauto.
Qed.

Lemma elem_of_sorted z l : z ∈ sorted l <-> z ∈ l.
Proof.
  induction l as [|x l IH]; simpl; [done|].
  rewrite elem_of_insert_sorted, elem_of_cons, IH. tauto.
Qed.

Lemma insert_sorted_StronglySorted x l :
  StronglySorted str_le l -> StronglySorted str_le (insert_sorted x l).
Proof.
  induction 1 as [|y l Hl IH Hy]; simpl.
  - repeat constructor.
  - destruct (str_ltb y x) eqn:Hyx.
    + constructor; [done|]. apply Forall_forall. intros z Hz.
      apply elem_of_insert_sorted in Hz as [->|Hz].
      * by apply str_ltb_asym.
      * by apply (proj1 (Forall_forall _ _) Hy).
    + constructor; [by constructor|]. constructor; [done|].
      apply Forall_forall. intros z Hz.
      apply (str_le_trans x y z); [done|]. by apply (proj1 (Forall_forall _ _) Hy).
Qed.

Lemma sorted_StronglySorted l : StronglySorted str_le (sorted l).
Proof.
  induction l as [|x l IH]; simpl; [constructor|].
  by apply insert_sorted_StronglySorted.
Qed.

Lemma StronglySorted_ascending l : StronglySorted str_le l -> ascending l.
Proof.
  induction 1 as [|y l Hl IH Hy]; intros i j a b Hij Hi Hj.
  - by rewrite lookup_nil in Hi.
  - destruct i as [|i], j as [|j]; simpl in *; try lia.
    + injection Hi as ->. injection Hj as ->. apply str_le_refl.
    + injection Hi as ->. apply (proj1 (Forall_forall _ _) Hy).
      by apply list_elem_of_lookup_2 in Hj.
    + apply (IH i j); [lia | done | done].
Qed.

Lemma sorted_ascending l : ascending (sorted l).
Proof. apply StronglySorted_ascending, sorted_StronglySorted. Qed.

Lemma bisect_loop_S fuel a x lo hi :
  bisect_loop (S fuel) a x lo hi =
    if lo <? hi then
      match a !! ((lo + hi) / 2) with
      | Some am =>
        if str_ltb am x then bisect_loop fuel a x ((lo + hi) / 2 + 1) hi
        else bisect_loop fuel a x lo ((lo + hi) / 2)
      | None => lo
      end
    else lo.
Proof. reflexivity. Qed.

(** [bisect_left] on an ascending list: the position of the first
    element that is not below [x]. *)
Lemma bisect_loop_spec a x fuel lo hi :
  ascending a ->
  lo <= hi <= length a -> hi - lo <= fuel ->
  (forall i y, i < lo -> a !! i = Some y -> str_ltb y x = true) ->
  (forall i y, hi <= i -> a !! i = Some y -> str_ltb y x = false) ->
  let r := bisect_loop fuel a x lo hi in
  r <= length a
  /\ (forall i y, i < r -> a !! i = Some y -> str_ltb y x = true)
  /\ (forall i y, r <= i -> a !! i = Some y -> str_ltb y x = false).
Proof.
  intros Hasc. revert lo hi.
  induction fuel as [|fuel IH]; intros lo hi Hb Hf Hlo Hhi.
  - simpl. assert (lo = hi) as -> by lia. split; [lia|]. by split.
  - rewrite bisect_loop_S. destruct (lo <? hi) eqn:Hlt.
    2:{ apply Nat.ltb_ge in Hlt. assert (lo = hi) as -> by lia.
        split; [lia|]. by split. }
    apply Nat.ltb_lt in Hlt.
    assert (Hmid : lo <= (lo + hi) / 2 < hi).
    { pose proof (Nat.div_mod_eq (lo + hi) 2).
      pose proof (Nat.mod_upper_bound (lo + hi) 2). lia. }
    destruct (a !! ((lo + hi) / 2)) as [am|] eqn:Ham.
    2:{ apply lookup_ge_None in Ham. lia. }
    destruct (str_ltb am x) eqn:Hamx.
    + apply IH; [lia | lia | | done].
      intros i y Hi Hy. apply (str_le_lt_trans y am x); [|done].
      apply (Hasc i ((lo + hi) / 2)); [lia | done | done].
    + apply IH; [lia | lia | done |].
      intros i y Hi Hy. destruct (str_ltb y x) eqn:Hyx; [|done].
      assert (Hle : str_le am y) by (apply (Hasc ((lo + hi) / 2) i); [lia | done | done]).
      pose proof (str_le_lt_trans _ _ _ Hle Hyx). congruence.
Qed.

Lemma bisect_left_spec a x :
  ascending a ->
  let r := bisect_left a x in
  r <= length a
  /\ (forall i y, i < r -> a !! i = Some y -> str_ltb y x = true)
  /\ (forall i y, r <= i -> a !! i = Some y -> str_ltb y x = false).
Proof.
  intros Hasc. apply bisect_loop_spec; [done | lia | lia | intros; lia |].
  intros i y Hi Hy. apply lookup_lt_Some in Hy. lia.
Qed.

(** ** Prefix lookup *)

Lemma find_hg_node_first self p n :
  ascending (sorted_nodes self) ->
  n ∈ sorted_nodes self -> str_le p n ->
  exists m, m ∈ sorted_nodes self /\ str_le p m /\ str_le m n
    /\ find_hg_node self p = if startswith m p then Some m else None.
Proof.
  intros Hasc Hn Hpn. unfold find_hg_node.
  destruct (bisect_left_spec (sorted_nodes self) p Hasc) as (Hr & Hlow & Hhigh).
  apply list_elem_of_lookup in Hn as [j Hj].
  assert (Hrj : bisect_left (sorted_nodes self) p <= j).
  { destruct (decide (bisect_left (sorted_nodes self) p <= j)) as [|Hlt]; [done|].
    unfold str_le in Hpn. rewrite (Hlow j n) in Hpn by (done || lia). done. }
  pose proof (lookup_lt_Some _ _ _ Hj) as Hjlen.
  destruct (sorted_nodes self !! bisect_left (sorted_nodes self) p) as [m|] eqn:Hm.
  2:{ apply lookup_ge_None in Hm. lia. }
  rewrite (proj2 (Nat.eqb_neq _ _)) by lia.
  exists m. split; [by apply list_elem_of_lookup_2 in Hm|].
  split; [by apply (Hhigh _ m (Nat.le_refl _))|].
  split; [by apply (Hasc _ j m n Hrj)|]. done.
Qed.

Lemma find_hg_node_full self n :
  ascending (sorted_nodes self) -> n ∈ sorted_nodes self ->
  find_hg_node self n = Some n.
Proof.
  intros Hasc Hn.
  destruct (find_hg_node_first self n n Hasc Hn (str_le_refl n))
    as (m & _ & H1 & H2 & ->).
  rewrite (str_ltb_trichotomy m n H1 H2). by rewrite startswith_refl.
Qed.

Lemma find_hg_node_prefix self p n :
  ascending (sorted_nodes self) -> n ∈ sorted_nodes self ->
  startswith n p = true ->
  (forall m, m ∈ sorted_nodes self -> startswith m p = true -> m = n) ->
  find_hg_node self p = Some n.
Proof.
  intros Hasc Hn Hp Huniq.
  destruct (find_hg_node_first self p n Hasc Hn (prefix_str_le p n Hp))
    as (m & Hm & H1 & H2 & ->).
  pose proof (between_prefix p m n Hp H1 H2) as Hmp.
  by rewrite Hmp, (Huniq m Hm Hmp).
Qed.

Lemma hgnode_to_githash_found self ref n w :
  ref <> str "tip" -> find_hg_node self ref = Some n ->
  (hgnode_to_githash self ref w).1 = answer_for self n.
Proof.
  intros Htip Hfind. unfold hgnode_to_githash, answer_for.
  apply pystr_eqb_neq in Htip. rewrite Htip, Hfind.
  unfold bind, getitem_opt, getitem.
  destruct (hg_to_git self !! n) as [[h|]|]; simpl; try done.
  destruct (hg_dates self !! n); done.
Qed.

Lemma sorted_nodes_init parse hg_logs git_logs bb gh :
  let index := (BbToGh_init parse hg_logs git_logs bb gh).1 in
  ascending (sorted_nodes index)
  /\ forall n, n ∈ sorted_nodes index <-> n ∈ hg_nodes hg_logs.
Proof.
  simpl. split; [apply sorted_ascending|]. intros n.
  destruct (build_result parse hg_logs git_logs) as (_ & _ & _ & Hdom & _).
  rewrite elem_of_sorted, <- Hdom, list_elem_of_fmap. split.
  - intros ([k v] & -> & Hkv). apply elem_of_map_to_list in Hkv. eauto.
  - intros [v Hv]. exists (n, v). split; [done | by apply elem_of_map_to_list].
Qed.

Lemma prefix_resolution parse hg_logs git_logs bb gh p n w :
  let index := (BbToGh_init parse hg_logs git_logs bb gh).1 in
  n ∈ hg_nodes hg_logs ->
  startswith n p = true ->
  (forall m, m ∈ hg_nodes hg_logs -> startswith m p = true -> m = n) ->
  (p = str "tip" <-> n = str "tip") ->
  (hgnode_to_githash index p w).1 = (hgnode_to_githash index n w).1.
Proof.
  intros index Hn Hp Huniq Htip.
  destruct (sorted_nodes_init parse hg_logs git_logs bb gh) as [Hasc Hmem].
  fold index in Hasc, Hmem.
  destruct (decide (p = str "tip")) as [Hpt|Hpt].
  - rewrite Hpt, (proj1 Htip Hpt). done.
  - assert (Hnt : n <> str "tip") by tauto.
    rewrite (hgnode_to_githash_found index p n w Hpt).
    + rewrite (hgnode_to_githash_found index n n w Hnt); [done|].
      apply find_hg_node_full; [done | by apply Hmem].
    + apply find_hg_node_prefix; [done | by apply Hmem | done |].
      intros m Hm. apply Huniq. by apply Hmem.
Qed.

(** C7: in an index built by [__init__], for every identifier [n] of the
    Mercurial log (a string of hexadecimal digits, as the identifiers of
    Mercurial are) and every non-empty prefix of [n] that no other
    identifier of the log starts with, resolving the prefix gives what
    resolving [n] gives: the same Git identifier, or [None] for both. *)
Theorem prefix_resolves_like_full parse hg_logs git_logs bb gh p n w :
  let index := (BbToGh_init parse hg_logs git_logs bb gh).1 in
  n ∈ hg_nodes hg_logs ->
  forallb is_hex n = true ->
  p <> [] ->
  startswith n p = true ->
  (forall m, m ∈ hg_nodes hg_logs -> startswith m p = true -> m = n) ->
  (hgnode_to_githash index p w).1 = (hgnode_to_githash index n w).1.
Proof.
  intros index Hn Hhex Hne Hp Huniq. apply prefix_resolution; try done.
  split; intros ->.
  - apply startswith_inv in Hp. rewrite Hp in Hhex. discriminate Hhex.
  - discriminate Hhex.
Qed.

(** Why the identifiers are taken as hexadecimal: in [tip_hg_logs], a
    log as no repository gives it, the identifier [tip0f18c81b5] is the
    only one, so [tip] is a prefix of it and of no other identifier; but
    the word [tip] is answered with [None] before any lookup, and the
    full identifier with its Git identifier. *)
Lemma prefix_tip_not_resolved :
  str "tip0f18c81b5" ∈ hg_nodes tip_hg_logs
  /\ str "tip" <> []
  /\ startswith (str "tip0f18c81b5") (str "tip") = true
  /\ (forall m, m ∈ hg_nodes tip_hg_logs -> startswith m (str "tip") = true ->
        m = str "tip0f18c81b5")
  /\ (hgnode_to_githash tip_index (str "tip") world0).1
     <> (hgnode_to_githash tip_index (str "tip0f18c81b5") world0).1.
Proof.
  split; [apply list_elem_of_here|]. split; [done|]. split; [done|].
  split; [|vm_compute; discriminate].
  intros m Hm _. by apply list_elem_of_singleton in Hm.
Qed.

Example prefix_tip_values :
  (hgnode_to_githash tip_index (str "tip") world0).1 = Ok None
  /\ (hgnode_to_githash tip_index (str "tip0f18c81b5") world0).1
     = Ok (Some (str "20fa9c09b23e")).
Proof. split; vm_compute; reflexivity. Qed.

Lemma prefix_resolves_like_full_witness :
  (hgnode_to_githash demo_index (str "0f18") world0).1
  = (hgnode_to_githash demo_index (str "0f18c81b53fc") world0).1.
Proof.
  apply (prefix_resolves_like_full demo_parse demo_hg_logs demo_git_logs
           demo_bb demo_gh (str "0f18") (str "0f18c81b53fc") world0).
  - apply list_elem_of_here.
  - reflexivity.
  - discriminate.
  - reflexivity.
  - intros m Hm Hs. apply elem_of_cons in Hm as [Hm|Hm]; [done|].
    apply list_elem_of_singleton in Hm. subst m. discriminate Hs.
Defined.

(** ** [str.replace] *)

Lemma replace_aux_skip old new k a t :
  length a = k -> replace_aux old new k (a ++ t) = replace_aux old new 0 t.
Proof.
  revert k. induction a as [|c a IH]; intros k Hk; simpl in *; subst k; [done|].
  by apply IH.
Qed.

Lemma replace_aux_hit c old new t :
  replace_aux (c :: old) new 0 ((c :: old) ++ t)
  = new ++ replace_aux (c :: old) new 0 t.
Proof.
  cbn [replace_aux app]. change (c :: old ++ t) with ((c :: old) ++ t).
  rewrite startswith_app. f_equal. apply replace_aux_skip. simpl. lia.
Qed.

Lemma replace_aux_miss old new c s :
  startswith (c :: s) old = false ->
  replace_aux old new 0 (c :: s) = c :: replace_aux old new 0 s.
Proof. intros H. cbn [replace_aux]. by rewrite H. Qed.

(** The function and the relation agree. *)
Lemma replaced_replace_aux c old new s :
  replaced (c :: old) new s (replace_aux (c :: old) new 0 s).
Proof.
  remember (length s) as n eqn:Hn. revert s Hn.
  induction n as [n IH] using lt_wf_ind. intros s Hn.
  destruct s as [|d s]; [constructor|].
  destruct (startswith (d :: s) (c :: old)) eqn:Hs.
  - apply startswith_inv in Hs. rewrite Hs. rewrite replace_aux_hit.
    constructor. apply (IH (length (drop (length (c :: old)) (d :: s)))); [|done].
    subst n. rewrite length_drop. simpl. lia.
  - rewrite replace_aux_miss by done. constructor; [done|].
    apply (IH (length s)); [subst n; simpl; lia | done].
Qed.

Lemma replaced_py_replace s old new :
  old <> [] -> replaced old new s (py_replace s old new).
Proof. destruct old as [|c old]; [done|]. intros _. apply replaced_replace_aux. Qed.

Lemma occurs_startswith q s : startswith s q = true -> occurs q s.
Proof. intros H. exists [], (drop (length q) s). by apply startswith_inv. Qed.

Lemma occurs_cons q c s : occurs q s -> occurs q (c :: s).
Proof. intros (a & b & ->). by exists (c :: a), b. Qed.

Lemma occurs_app_r q a s : occurs q s -> occurs q (a ++ s).
Proof. intros (x & b & ->). exists (a ++ x), b. by rewrite app_assoc. Qed.

Lemma occurs_cons_inv q c s :
  occurs q (c :: s) -> startswith (c :: s) q = true \/ occurs q s.
Proof.
  intros ([|x a] & b & H); simpl in H.
  - left. rewrite H. apply startswith_app.
  - right. injection H as _ ->. by exists a, b.
Qed.

(** A text without an occurrence of [old] is left as it is. *)
Lemma replaced_no_occurrence old new s out :
  replaced old new s out -> ~ occurs old s -> out = s.
Proof.
  induction 1 as [|t out H IH|c s out Hc H IH]; intros Hno; [done| |].
  - exfalso. apply Hno. by exists [], t.
  - f_equal. apply IH. intros Ho. by apply Hno, occurs_cons.
Qed.

Lemma py_replace_no_occurrence s old new :
  old <> [] -> ~ occurs old s -> py_replace s old new = s.
Proof.
  intros Hold Hno.
  apply (replaced_no_occurrence old new s); [by apply replaced_py_replace | done].
Qed.

Lemma compatible_sym x y : compatible x y = compatible y x.
Proof. unfold compatible. apply orb_comm. Qed.

(** Two prefixes of one text are compatible. *)
Lemma compatible_common x y u v : x ++ y = u ++ v -> compatible x u = true.
Proof.
  unfold compatible. revert u. induction x as [|a x IH]; intros [|b u] H; simpl in *;
    try done.
  injection H as -> H. rewrite chr_eqb_refl. simpl. by apply IH.
Qed.

Lemma no_overlap_inside q r i :
  no_overlap q r = true -> i < length r -> compatible (drop i r) q = false.
Proof.
  unfold no_overlap. intros [H _]%andb_true_iff Hi.
  rewrite forallb_forall in H. apply negb_true_iff, H, in_seq. lia.
Qed.

Lemma no_overlap_into q r j :
  no_overlap q r = true -> 1 <= j < length q -> compatible (drop j q) r = false.
Proof.
  unfold no_overlap. intros [_ H]%andb_true_iff Hj.
  rewrite forallb_forall in H. apply negb_true_iff, H, in_seq. lia.
Qed.

(** With [no_overlap q new], a suffix of [q] at the head of the output
    was at the head of the input. *)
Lemma replaced_head_suffix old new q s out j :
  no_overlap q new = true -> replaced old new s out -> 1 <= j ->
  startswith out (drop j q) = true -> startswith s (drop j q) = true.
Proof.
  intros Hno H. revert j. induction H as [|t out H IH|c s out Hc H IH]; intros j Hj Hq.
  - done.
  - destruct (decide (j < length q)) as [Hlt|Hge].
    + apply startswith_inv in Hq.
      pose proof (compatible_common _ _ _ _ Hq) as Hcomp.
      rewrite compatible_sym, (no_overlap_into q new j Hno) in Hcomp by lia. done.
    + by rewrite drop_ge by lia.
  - destruct (drop j q) as [|d q'] eqn:Hd; [done|].
    simpl in *. apply andb_true_iff in Hq as [Hdc Hq]. rewrite Hdc. simpl.
    assert (Hd' : drop (S j) q = q').
    { rewrite <- (Nat.add_1_l j), Nat.add_comm, <- drop_drop, Hd. done. }
    rewrite <- Hd' in *. apply IH; [lia | done].
Qed.

(** With [no_overlap q new], replacing does not create an occurrence of
    [q]; an occurrence in the output stood in the input, in a place
    that the replacement read as ordinary text. *)
Lemma replaced_occurs old new q s out :
  q <> [] -> no_overlap q new = true -> replaced old new s out ->
  occurs q out -> occurs q s.
Proof.
  intros Hq Hno H. induction H as [|t out H IH|c s out Hc H IH]; intros Ho.
  - destruct Ho as ([|? ?] & b & Ho); destruct q; done.
  - apply occurs_app_r, IH. destruct Ho as (a & b & Ho).
    destruct (decide (length a < length new)) as [Hlt|Hge].
    + exfalso. apply (f_equal (drop (length a))) in Ho.
      rewrite drop_app_le, drop_app_length in Ho by lia.
      pose proof (compatible_common _ _ _ _ Ho) as Hcomp.
      rewrite (no_overlap_inside q new _ Hno Hlt) in Hcomp. done.
    + exists (drop (length new) a), b.
      apply (f_equal (drop (length new))) in Ho.
      rewrite drop_app_length, drop_app_le in Ho by lia. done.
  - apply occurs_cons_inv in Ho as [Hs|Ho]; [|by apply occurs_cons, IH].
    apply occurs_startswith. destruct q as [|d q]; [done|].
    simpl in *. apply andb_true_iff in Hs as [Hdc Hs]. rewrite Hdc. simpl.
    destruct q as [|e q]; [done|].
    apply (replaced_head_suffix old new (d :: e :: q) s out 1 Hno H); [lia | done].
Qed.

(** With [no_overlap old new], no occurrence of [old] is left. *)
Lemma replaced_removes old new s out :
  old <> [] -> no_overlap old new = true -> replaced old new s out ->
  ~ occurs old out.
Proof.
  intros Hq Hno H. induction H as [|t out H IH|c s out Hc H IH]; intros Ho.
  - destruct Ho as ([|? ?] & b & Ho); destruct old; done.
  - apply IH. destruct Ho as (a & b & Ho).
    destruct (decide (length a < length new)) as [Hlt|Hge].
    + exfalso. apply (f_equal (drop (length a))) in Ho.
      rewrite drop_app_le, drop_app_length in Ho by lia.
      pose proof (compatible_common _ _ _ _ Ho) as Hcomp.
      rewrite (no_overlap_inside old new _ Hno Hlt) in Hcomp. done.
    + exists (drop (length new) a), b.
      apply (f_equal (drop (length new))) in Ho.
      rewrite drop_app_length, drop_app_le in Ho by lia. done.
  - apply occurs_cons_inv in Ho as [Hs|Ho]; [|by apply IH].
    assert (startswith (c :: s) old = true); [|congruence].
    destruct old as [|d q]; [done|].
    simpl in *. apply andb_true_iff in Hs as [Hdc Hs]. rewrite Hdc. simpl.
    destruct q as [|e q]; [done|].
    apply (replaced_head_suffix (d :: e :: q) new (d :: e :: q) s out 1 Hno H); [lia | done].
Qed.

(** ** Idempotence of URL normalization *)

Lemma app_str_nonempty (a : pystr) c s : a ++ c :: s <> [].
Proof. by destruct a. Qed.

Lemma normalize_bb_url_idempotent self content :
  normalize_safe (bb_url self) = true ->
  normalize_bb_url self (normalize_bb_url self content)
  = normalize_bb_url self content.
Proof.
  unfold normalize_safe, normalize_bb_url.
  intros [[Hs1 Hs2]%andb_true_iff Hs3]%andb_true_iff.
  set (p1 := str "http://www.bitbucket.org/") in *.
  set (p2 := str "http://bitbucket.org/") in *.
  set (r := str "https://bitbucket.org/").
  set (p3 := bb_url self ++ str "/changeset/") in *.
  set (r3 := bb_url self ++ str "/commits/") in *.
  set (t1 := py_replace content p1 r).
  set (t2 := py_replace t1 p2 r).
  set (t3 := py_replace t2 p3 r3).
  assert (Hp1 : p1 <> []) by done.
  assert (Hp2 : p2 <> []) by done.
  assert (Hp3 : p3 <> []) by apply app_str_nonempty.
  assert (Hn11 : no_overlap p1 r = true) by (vm_compute; reflexivity).
  assert (Hn22 : no_overlap p2 r = true) by (vm_compute; reflexivity).
  pose proof (replaced_py_replace content p1 r Hp1) as Hr1. fold t1 in Hr1.
  pose proof (replaced_py_replace t1 p2 r Hp2) as Hr2. fold t2 in Hr2.
  pose proof (replaced_py_replace t2 p3 r3 Hp3) as Hr3. fold t3 in Hr3.
  assert (H1 : ~ occurs p1 t3).
  { intros Ho. apply (replaced_removes p1 r content t1 Hp1 Hn11 Hr1).
    apply (replaced_occurs p2 r p1 t1 t2 Hp1 Hn11 Hr2).
    by apply (replaced_occurs p3 r3 p1 t2 t3 Hp1 Hs1 Hr3). }
  assert (H2 : ~ occurs p2 t3).
  { intros Ho. apply (replaced_removes p2 r t1 t2 Hp2 Hn22 Hr2).
    by apply (replaced_occurs p3 r3 p2 t2 t3 Hp2 Hs2 Hr3). }
  assert (H3 : ~ occurs p3 t3) by apply (replaced_removes p3 r3 t2 t3 Hp3 Hs3 Hr3).
  rewrite (py_replace_no_occurrence t3 p1 r Hp1 H1).
  rewrite (py_replace_no_occurrence t3 p2 r Hp2 H2).
  apply (py_replace_no_occurrence t3 p3 r3 Hp3 H3).
Qed.

Example normalize_safe_demo : normalize_safe demo_bb = true.
Proof. vm_compute. reflexivity. Qed.

(** A base URL for which a second normalization changes the text. *)
Example normalize_not_idempotent_odd_base :
  let self := (BbToGh_init demo_parse [] [] (str "/commits") demo_gh).1 in
  normalize_bb_url self (str "/commits/changeset/changeset/")
    = str "/commits/commits/changeset/"
  /\ normalize_bb_url self (str "/commits/commits/changeset/")
    = str "/commits/commits/commits/".
Proof. split; vm_compute; reflexivity. Qed.

(** ** The pull-request pattern *)

Lemma span_app f s : (span f s).1 ++ (span f s).2 = s.
Proof.
  induction s as [|c s IH]; simpl; [done|].
  destruct (f c); [|done]. destruct (span f s) as [a b]. simpl in *. by f_equal.
Qed.

Lemma span_forallb f s : forallb f (span f s).1 = true.
Proof.
  induction s as [|c s IH]; simpl; [done|].
  destruct (f c) eqn:Hc; [|done]. destruct (span f s) as [a b]. simpl in *.
  by rewrite Hc.
Qed.

Lemma span_exact f a b :
  forallb f a = true -> match b with c :: _ => f c = false | [] => True end ->
  span f (a ++ b) = (a, b).
Proof.
  intros Ha Hb. induction a as [|c a IH]; simpl in *.
  - destruct b as [|c b]; [done|]. simpl. by rewrite Hb.
  - apply andb_true_iff in Ha as [Hc Ha]. rewrite Hc, (IH Ha). done.
Qed.

Lemma span_rest_head f s :
  match (span f s).2 with c :: _ => f c = false | [] => True end.
Proof.
  induction s as [|c s IH]; simpl; [done|].
  destruct (f c) eqn:Hc; [|done]. by destruct (span f s) as [a b].
Qed.

Lemma match_lit_Some lit s s1 : match_lit lit s = Some s1 <-> s = lit ++ s1.
Proof.
  unfold match_lit. split.
  - destruct (startswith s lit) eqn:Hs; [|done]. intros [= <-].
    by apply startswith_inv.
  - intros ->. by rewrite startswith_app, drop_app_length.
Qed.

Lemma is_digit_is_word c : is_digit c = true -> is_word c = true.
Proof. unfold is_word, is_alnum. intros ->. by rewrite orb_true_r. Qed.

Lemma word_at_not_digit rest :
  word_at rest = false ->
  match rest with c :: _ => is_digit c = false | [] => True end.
Proof.
  destruct rest as [|c rest]; [done|]. simpl. intros H.
  destruct (is_digit c) eqn:Hd; [|done]. by rewrite (is_digit_is_word c Hd) in H.
Qed.

Lemma m_pr_marker_pr_here prev s d :
  pr_here prev s d ->
  m_pr_marker prev s = Some ((pr_phrase ++ d, d), length pr_phrase + length d).
Proof.
  intros (Hprev & Hd & Hdig & rest & -> & Hrest). unfold m_pr_marker.
  rewrite Hprev. rewrite (proj2 (match_lit_Some pr_phrase _ (d ++ rest)) eq_refl).
  rewrite (span_exact is_digit d rest Hdig (word_at_not_digit rest Hrest)).
  destruct d; [done|]. by rewrite Hrest.
Qed.

Lemma m_pr_marker_Some prev s r n :
  m_pr_marker prev s = Some (r, n) ->
  exists d, pr_here prev s d /\ r = (pr_phrase ++ d, d)
            /\ n = length pr_phrase + length d.
Proof.
  unfold m_pr_marker. destruct (word_before prev) eqn:Hprev; [done|].
  destruct (match_lit pr_phrase s) as [s1|] eqn:Hlit; [|done].
  apply match_lit_Some in Hlit.
  pose proof (span_app is_digit s1) as Happ.
  pose proof (span_forallb is_digit s1) as Hdig.
  destruct (span is_digit s1) as [d s2]. simpl in *.
  destruct d as [|c d]; [done|].
  destruct (word_at s2) eqn:Hw; [done|]. intros [= <- <-].
  exists (c :: d). split; [|done]. split; [done|]. split; [done|]. split; [done|].
  exists s2. split; [|done]. by rewrite Hlit, <- Happ.
Qed.

Lemma pr_here_unique prev s d1 d2 : pr_here prev s d1 -> pr_here prev s d2 -> d1 = d2.
Proof.
  intros H1 H2. apply m_pr_marker_pr_here in H1, H2. congruence.
Qed.

Lemma prev_of_nil prev : prev_of prev [] = prev.
Proof. done. Qed.

Lemma prev_of_cons prev c a : prev_of prev (c :: a) = prev_of (Some c) a.
Proof.
  unfold prev_of. destruct a as [|d a]; [done|].
  change (last (c :: d :: a)) with (last (d :: a)).
  destruct (last (d :: a)) eqn:Hl; [done|]. by apply last_None in Hl.
Qed.

Lemma prev_of_app prev x y : prev_of prev (x ++ y) = prev_of (prev_of prev x) y.
Proof.
  revert prev. induction x as [|c x IH]; intros prev; [done|].
  simpl. by rewrite !prev_of_cons, IH.
Qed.

Lemma prev_of_nonempty p q y : y <> [] -> prev_of p y = prev_of q y.
Proof. unfold prev_of. destruct (last y) eqn:Hl; [done|]. by apply last_None in Hl. Qed.

Lemma live_cons prev c s d : live (Some c) s d -> live prev (c :: s) d.
Proof.
  intros (a & b & -> & H). exists (c :: a), b. split; [done|]. by rewrite prev_of_cons.
Qed.

Lemma live_app prev x s d : live (prev_of prev x) s d -> live prev (x ++ s) d.
Proof.
  intros (a & b & -> & H). exists (x ++ a), b.
  split; [by rewrite app_assoc|]. by rewrite prev_of_app.
Qed.

Lemma live_cons_inv prev c s d :
  live prev (c :: s) d -> pr_here prev (c :: s) d \/ live (Some c) s d.
Proof.
  intros ([|x a] & b & Heq & H); simpl in Heq.
  - left. by rewrite Heq.
  - right. injection Heq as -> ->. rewrite prev_of_cons in H. by exists a, b.
Qed.

Lemma pr_here_nil prev d : ~ pr_here prev [] d.
Proof. intros (_ & _ & _ & rest & H & _). discriminate H. Qed.

Lemma pr_phrase_no_digit : forallb (fun c => negb (is_digit c)) pr_phrase = true.
Proof. reflexivity. Qed.

Lemma pr_phrase_self j :
  1 <= j < length pr_phrase -> compatible (drop j pr_phrase) pr_phrase = false.
Proof.
  intros Hj. do 14 (destruct j as [|j]; [try lia; reflexivity|]).
  simpl in Hj. lia.
Qed.

(** A text that starts with a digit does not start with the phrase. *)
Lemma digit_head_not_phrase c l x y :
  is_digit c = true -> c :: l = pr_phrase ++ x ++ y -> False.
Proof. intros Hc H. injection H as -> _. discriminate Hc. Qed.

Lemma forallb_head {A} (f : A -> bool) c l : forallb f (c :: l) = true -> f c = true.
Proof. simpl. by intros [? _]%andb_true_iff. Qed.

Lemma forallb_app_r {A} (f : A -> bool) x y : forallb f (x ++ y) = true -> forallb f y = true.
Proof. rewrite forallb_app. by intros [_ ?]%andb_true_iff. Qed.

(** ** Idempotence of the pull-request rule *)

Lemma head_ok_inv r : head_ok r = true ->
  exists c r', r = c :: r' /\ is_word c = true /\ is_digit c = false.
Proof.
  destruct r as [|c r']; [done|]. simpl. intros [Hw Hd]%andb_true_iff.
  apply negb_true_iff in Hd. eauto.
Qed.

(** The replacement does not start where digits are expected. *)
Lemma head_ok_not_digit r x e l y :
  head_ok r = true -> is_digit e = true -> r ++ x = (e :: l) ++ y -> False.
Proof.
  intros (c & r' & -> & _ & Hd)%head_ok_inv He H. injection H as -> _. congruence.
Qed.

(** The replacement does not start where a word boundary is expected. *)
Lemma head_ok_word_at r x : head_ok r = true -> word_at (r ++ x) = true.
Proof. by intros (c & r' & -> & Hw & _)%head_ok_inv. Qed.

Lemma pr_here_startswith prev s d :
  pr_here prev s d -> startswith s (pr_phrase ++ d) = true.
Proof.
  intros (_ & _ & _ & rest & -> & _). rewrite app_assoc. apply startswith_app.
Qed.

(** The first place where [replace] changes the text. *)
Lemma replaced_first old new s out :
  replaced old new s out ->
  out = s \/ exists a t out', s = a ++ old ++ t /\ out = a ++ new ++ out'.
Proof.
  induction 1 as [|t out H IH|c s out Hc H IH]; [by left| |].
  - right. by exists [], t, out.
  - destruct IH as [->|(a & t & out' & -> & ->)]; [by left|].
    right. by exists (c :: a), t, out'.
Qed.

Lemma nonempty_digits_head d :
  d <> [] -> forallb is_digit d = true -> exists e l, d = e :: l /\ is_digit e = true.
Proof.
  destruct d as [|e l]; [done|]. intros _ H. exists e, l. split; [done|].
  by apply forallb_head in H.
Qed.

(** One replacement of the rule creates no match, and removes the
    matches of the number it replaces. *)
Lemma replaced_live b' d0 s out prev d :
  no_overlap pr_phrase b' = true -> head_ok b' = true ->
  d0 <> [] -> forallb is_digit d0 = true ->
  replaced (pr_phrase ++ d0) (b' ++ d0) s out ->
  live prev out d -> live prev s d /\ d <> d0.
Proof.
  intros Hno Hhead Hd0 Hdig0 H. revert prev.
  induction H as [|t out H IH|c s out Hc H IH]; intros prev Hl.
  - destruct Hl as (a & b & Heq & Hh). symmetry in Heq.
    apply app_eq_nil in Heq as [_ ->]. by apply pr_here_nil in Hh.
  - destruct Hl as (a & b & Heq & Hh).
    assert (Hafter : forall l, a = (b' ++ d0) ++ l -> out = l ++ b ->
              live prev ((pr_phrase ++ d0) ++ t) d /\ d <> d0).
    { intros l -> ->. rewrite prev_of_app in Hh.
      destruct (IH (prev_of prev (b' ++ d0))) as [Hlive Hne]; [by exists l, b|].
      split; [|done]. apply live_app.
      rewrite !prev_of_app, (prev_of_nonempty _ (prev_of prev b') d0 Hd0).
      by rewrite <- prev_of_app. }
    apply app_eq_app in Heq as [l [[H1 H2]|[H1 H2]]]; [|by apply (Hafter l)].
    destruct l as [|x l]; [apply (Hafter []); [by rewrite app_nil_r, H1, app_nil_r | done]|].
    exfalso. destruct Hh as (_ & _ & _ & rest & Hb & _). rewrite H2 in Hb.
    apply app_eq_app in H1 as [l3 [[H3 H4]|[H3 H4]]].
    + destruct l3 as [|y l3].
      * rewrite app_nil_l in H4. rewrite <- H4 in Hdig0. apply forallb_head in Hdig0.
        by apply (digit_head_not_phrase x (l ++ out) d rest Hdig0).
      * assert (Hlen : length a < length b').
        { rewrite H3, length_app. simpl. lia. }
        pose proof (no_overlap_inside pr_phrase b' (length a) Hno Hlen) as Hc.
        rewrite H3, drop_app_length in Hc.
        rewrite H4, <- app_assoc in Hb.
        by rewrite (compatible_common _ _ _ _ Hb) in Hc.
    + assert (Hx : is_digit x = true).
      { rewrite H4 in Hdig0. by apply forallb_app_r, forallb_head in Hdig0. }
      by apply (digit_head_not_phrase x (l ++ out) d rest Hx).
  - apply live_cons_inv in Hl as [Hh|Hl].
    2:{ destruct (IH (Some c) Hl) as [Hlive Hne]. split; [by apply live_cons | done]. }
    assert (Hhere : pr_here prev (c :: s) d -> live prev (c :: s) d /\ d <> d0).
    { intros Hs. split; [by exists [], (c :: s)|]. intros ->.
      apply pr_here_startswith in Hs. congruence. }
    destruct (replaced_first _ _ _ _ (replaced_skip _ _ c s out Hc H))
      as [Hsame|(a0 & t0 & out0 & Hs & Hout)].
    { apply Hhere. by rewrite <- Hsame. }
    pose proof Hh as (Hprev & Hd & Hdig & rest & Hb & Hrest).
    rewrite Hout, <- !app_assoc in Hb.
    apply app_eq_app in Hb as [l [[H1 H2]|[H1 H2]]].
    + (* the replacement starts after the phrase *)
      apply app_eq_app in H2 as [l2 [[H3 H4]|[H3 H4]]].
      * exfalso. destruct l2 as [|x l2].
        -- rewrite app_nil_l in H4.
           rewrite <- H4, (head_ok_word_at b' _ Hhead) in Hrest. done.
        -- assert (Hx : is_digit x = true).
           { rewrite H3 in Hdig. by apply forallb_app_r, forallb_head in Hdig. }
           by apply (head_ok_not_digit b' (d0 ++ out0) x l2 rest Hhead Hx).
      * destruct l2 as [|x l2].
        -- exfalso. rewrite app_nil_l in H4.
           rewrite H4, (head_ok_word_at b' _ Hhead) in Hrest. done.
        -- apply Hhere. split; [done|]. split; [done|]. split; [done|].
           exists ((x :: l2) ++ (pr_phrase ++ d0) ++ t0). split.
           ++ rewrite Hs, H1, H3, <- !app_assoc. done.
           ++ rewrite H4 in Hrest. done.
    + (* the replacement starts inside the phrase *)
      exfalso. destruct a0 as [|z a0].
      { rewrite app_nil_l in Hs. rewrite Hs, startswith_app in Hc. done. }
      destruct l as [|x l].
      * rewrite app_nil_l in H2.
        destruct (nonempty_digits_head _ Hd Hdig) as (e & l' & He & Hed).
        rewrite He in H2.
        by apply (head_ok_not_digit b' (d0 ++ out0) e l' rest Hhead Hed).
      * assert (Hlen : 1 <= length (z :: a0) < length pr_phrase).
        { rewrite H1, length_app. simpl. lia. }
        pose proof (no_overlap_into pr_phrase b' _ Hno Hlen) as Hcomp.
        rewrite H1, drop_app_length in Hcomp.
        by rewrite compatible_sym, (compatible_common _ _ _ _ H2) in Hcomp.
Qed.

(** Inside a match of the pattern no other match starts. *)
Lemma pr_here_no_inner prev s d0 a b q d :
  pr_here prev s d0 -> s = a ++ b ->
  1 <= length a < length pr_phrase + length d0 -> ~ pr_here q b d.
Proof.
  intros (_ & Hd0 & Hdig0 & rest0 & Hs & _) Heq Hlen (_ & _ & _ & rest & Hb & _).
  rewrite Hs in Heq. symmetry in Heq.
  apply app_eq_app in Heq as [l [[H1 H2]|[H1 H2]]].
  - (* [a] ends after the phrase, inside the digits *)
    apply app_eq_app in H2 as [l2 [[H3 H4]|[H3 H4]]].
    + destruct l2 as [|x l2].
      * rewrite H1, H3, app_nil_r, length_app in Hlen. lia.
      * assert (Hx : is_digit x = true).
        { rewrite H3 in Hdig0. by apply forallb_app_r, forallb_head in Hdig0. }
        rewrite Hb in H4. symmetry in H4.
        by apply (digit_head_not_phrase x (l2 ++ rest0) d rest Hx).
    + rewrite H1, H3, !length_app in Hlen. lia.
  - (* [a] ends inside the phrase *)
    destruct l as [|x l].
    + rewrite app_nil_r in H1. rewrite app_nil_l in H2.
      destruct (nonempty_digits_head _ Hd0 Hdig0) as (e & l' & He & Hed).
      rewrite He, Hb in H2. symmetry in H2.
      by apply (digit_head_not_phrase e (l' ++ rest0) d rest Hed).
    + assert (Hj : 1 <= length a < length pr_phrase).
      { rewrite H1, length_app. simpl. lia. }
      pose proof (pr_phrase_self _ Hj) as Hcomp.
      rewrite H1 in Hcomp at 1. rewrite drop_app_length in Hcomp.
      rewrite Hb in H2.
      by rewrite compatible_sym, (compatible_common _ _ _ _ H2) in Hcomp.
Qed.

(** [re.findall] lists every match of the pattern. *)
Lemma findall_pr_complete s prev skip a b d :
  s = a ++ b -> skip <= length a -> pr_here (prev_of prev a) b d ->
  (pr_phrase ++ d, d) ∈ findall_from m_pr_marker prev skip s.
Proof.
  revert prev skip a. induction s as [|c s IH]; intros prev skip a Heq Hskip Hh.
  - symmetry in Heq. apply app_eq_nil in Heq as [_ ->]. by apply pr_here_nil in Hh.
  - cbn [findall_from]. destruct skip as [|k].
    + destruct a as [|x a].
      * rewrite app_nil_l in Heq. subst b. rewrite prev_of_nil in Hh.
        rewrite (m_pr_marker_pr_here _ _ _ Hh). apply list_elem_of_here.
      * injection Heq as <- Heq. rewrite prev_of_cons in Hh.
        destruct (m_pr_marker prev (c :: s)) as [[r n]|] eqn:Hm.
        2:{ by apply (IH (Some c) 0 a); [|lia|]. }
        apply list_elem_of_further.
        apply m_pr_marker_Some in Hm as (d0 & Hh0 & -> & ->).
        apply (IH (Some c) _ a); [done| |done].
        destruct (decide (length pr_phrase + length d0 - 1 <= length a)) as [|Hin];
          [done|].
        exfalso.
        apply (pr_here_no_inner prev (c :: s) d0 (c :: a) b (prev_of (Some c) a) d Hh0);
          [by rewrite Heq | change (length (c :: a)) with (S (length a)); lia | done].
    + destruct a as [|x a]; [simpl in Hskip; lia|].
      injection Heq as <- Heq. rewrite prev_of_cons in Hh.
      apply (IH (Some c) k a); [done | simpl in Hskip; lia | done].
Qed.

(** Every element of the list is a match of the pattern. *)
Lemma findall_pr_sound s prev skip x :
  x ∈ findall_from m_pr_marker prev skip s ->
  exists d, x = (pr_phrase ++ d, d) /\ live prev s d.
Proof.
  revert prev skip. induction s as [|c s IH]; intros prev skip Hx.
  - by apply elem_of_nil in Hx.
  - cbn [findall_from] in Hx.
    assert (Htail : forall k, x ∈ findall_from m_pr_marker (Some c) k s ->
              exists d, x = (pr_phrase ++ d, d) /\ live prev (c :: s) d).
    { intros k Hk. destruct (IH _ _ Hk) as (d & -> & Hl).
      exists d. split; [done | by apply live_cons]. }
    destruct skip as [|k]; [|by apply (Htail k)].
    destruct (m_pr_marker prev (c :: s)) as [[r n]|] eqn:Hm; [|by apply (Htail 0)].
    apply elem_of_cons in Hx as [->|Hx]; [|by apply (Htail (n - 1))].
    apply m_pr_marker_Some in Hm as (d & Hh & -> & _).
    exists d. split; [done|]. by exists [], (c :: s).
Qed.

Lemma live_digits prev s d : live prev s d -> d <> [] /\ forallb is_digit d = true.
Proof. by intros (a & b & _ & _ & ? & ? & _). Qed.

(** After the loop of the rule, the matches that are left are matches of
    the input for numbers that the loop did not replace. *)
Lemma pr_loop_live bb caps s d :
  pr_safe bb = true ->
  (forall x, x ∈ caps -> exists d0, x = (pr_phrase ++ d0, d0)
                          /\ d0 <> [] /\ forallb is_digit d0 = true) ->
  live None
    (fold_left (fun content '(replacer, pr_number) =>
       py_replace content replacer (bb ++ str "/pull-request/" ++ pr_number))
       caps s) d ->
  live None s d /\ (pr_phrase ++ d, d) ∉ caps.
Proof.
  intros [Hno Hhead]%andb_true_iff. revert s.
  induction caps as [|[r n] caps IH]; intros s Hcaps Hl; cbn [fold_left] in Hl.
  - split; [done | apply not_elem_of_nil].
  - destruct (Hcaps (r, n)) as (d0 & [-> ->]%pair_equal_spec & Hd0 & Hdig0);
      [apply list_elem_of_here|].
    destruct (IH _ (fun x Hx => Hcaps x (list_elem_of_further _ _ _ Hx)) Hl)
      as [Hl1 Hnin].
    rewrite app_assoc in Hl1.
    assert (Hne0 : pr_phrase ++ d0 <> []).
    { destruct d0; [done | apply app_str_nonempty]. }
    destruct (replaced_live (bb ++ str "/pull-request/") d0 s _ None d
                Hno Hhead Hd0 Hdig0
                (replaced_py_replace s (pr_phrase ++ d0) _ Hne0)
                Hl1) as [Hl0 Hne].
    split; [done|]. intros [Heq|Hin]%elem_of_cons; [|done].
    apply pair_equal_spec in Heq as [_ Heq]. done.
Qed.

Lemma convert_bb_pr_marker_idempotent self content :
  pr_safe (bb_url self) = true ->
  convert_bb_pr_marker self (convert_bb_pr_marker self content)
  = convert_bb_pr_marker self content.
Proof.
  intros Hsafe. unfold convert_bb_pr_marker at 1.
  set (out := convert_bb_pr_marker self content).
  assert (Hnone : findall m_pr_marker out = []); [|by rewrite Hnone].
  destruct (findall m_pr_marker out) as [|x xs] eqn:Hf; [done|]. exfalso.
  destruct (findall_pr_sound out None 0 x) as (d & -> & Hl).
  { unfold findall in Hf. rewrite Hf. apply list_elem_of_here. }
  destruct (pr_loop_live (bb_url self) (findall m_pr_marker content) content d Hsafe)
    as [Hl0 Hnin]; [|exact Hl|].
  - intros y Hy. destruct (findall_pr_sound _ _ _ _ Hy) as (d0 & -> & Hl0).
    exists d0. split; [done|]. by apply (live_digits None content).
  - apply Hnin. destruct Hl0 as (a & b & Heq & Hh).
    apply (findall_pr_complete content None 0 a b d Heq); [lia | done].
Qed.

Example pr_safe_demo : pr_safe demo_bb = true.
Proof. vm_compute. reflexivity. Qed.

(** A base URL that starts with a slash: the second pass finds a match
    that the first pass uncovered. *)
Example pr_marker_not_idempotent_odd_base :
  let self := (BbToGh_init demo_parse [] [] (str "/x") demo_gh).1 in
  convert_bb_pr_marker self (str "pull request #2 pull request #1pull request #2")
    = str "/x/pull-request/2 pull request #1/x/pull-request/2"
  /\ convert_bb_pr_marker self (str "/x/pull-request/2 pull request #1/x/pull-request/2")
    = str "/x/pull-request/2 /x/pull-request/1/x/pull-request/2".
Proof. split; vm_compute; reflexivity. Qed.

(** ** The base URLs of Bitbucket repositories pass the checks *)

Lemma compatible_false_at k (x y : pystr) a b :
  x !! k = Some a -> y !! k = Some b -> a <> b -> compatible x y = false.
Proof.
  unfold compatible. revert x y.
  induction k as [|k IH]; intros [|c x] [|d y] Hx Hy Hab; simpl in *; try done.
  - injection Hx as ->. injection Hy as ->.
    rewrite (proj2 (chr_eqb_neq a b) Hab).
    by rewrite (proj2 (chr_eqb_neq b a)) by congruence.
  - destruct (proj1 (orb_false_iff _ _) (IH x y Hx Hy Hab)) as [H1 H2].
    by rewrite H1, H2, !andb_false_r.
Qed.

Lemma compatible_app_head a x y : compatible (a ++ x) (a ++ y) = compatible x y.
Proof.
  unfold compatible. induction a as [|c a IH]; simpl; [done|].
  by rewrite chr_eqb_refl.
Qed.

Lemma forallb_lookup {A} (f : A -> bool) (l : list A) i c :
  forallb f l = true -> l !! i = Some c -> f c = true.
Proof.
  intros H Hc. rewrite forallb_forall in H. apply H.
  apply list_elem_of_In. by apply list_elem_of_lookup_2 in Hc.
Qed.

(** [q] has the character [z] at position [m]; from position [n0] on,
    [y] has no [z]; the suffixes of [y] that are too short to reach
    position [m] are suffixes of [tail], which are checked one by one. *)
Lemma compatible_marker (y q pre tail : pystr) z m n0 :
  y = pre ++ tail -> q !! m = Some z ->
  forallb (fun c => negb (chr_eqb c z)) (drop n0 y) = true ->
  m < length tail ->
  (forall k, length tail - m <= k < length tail ->
     compatible (drop k tail) q = false) ->
  forall i, n0 <= i + m -> i < length y -> compatible (drop i y) q = false.
Proof.
  intros Hy Hq Hz Hm Hshort i Hi Hlen.
  destruct (decide (i + m < length y)) as [Hlt|Hge].
  - destruct (lookup_lt_is_Some_2 y (i + m) Hlt) as [c Hc].
    apply (compatible_false_at m _ _ c z); [by rewrite lookup_drop | done |].
    assert (Hcz : negb (chr_eqb c z) = true).
    { apply (forallb_lookup _ (drop n0 y) (i + m - n0) c Hz).
      rewrite lookup_drop. by replace (n0 + (i + m - n0)) with (i + m) by lia. }
    apply negb_true_iff, chr_eqb_neq in Hcz. done.
  - rewrite Hy, length_app in Hlen, Hge. rewrite Hy, drop_app_ge by lia.
    apply Hshort. lia.
Qed.

Lemma has_char_false_forallb z s :
  has_char z s = false -> forallb (fun c => negb (chr_eqb c z)) s = true.
Proof.
  unfold has_char. induction s as [|c s IH]; [done|].
  cbn [existsb forallb]. intros [Hc Hs]%orb_false_iff.
  rewrite (IH Hs), andb_true_r. unfold chr_eqb in *.
  by rewrite Ascii.eqb_sym, Hc.
Qed.

Lemma no_overlap_intro q r :
  (forall i, i < length r -> compatible (drop i r) q = false) ->
  (forall j, 1 <= j < length q -> compatible (drop j q) r = false) ->
  no_overlap q r = true.
Proof.
  intros H1 H2. unfold no_overlap. apply andb_true_iff.
  split; apply forallb_forall; intros i Hi%in_seq; apply negb_true_iff.
  - apply H1. lia.
  - apply H2. lia.
Qed.

Ltac small_index i tac :=
  repeat (destruct i as [|i]; [tac|]).

Lemma pr_safe_bitbucket repo :
  has_char " " repo = false -> pr_safe (bitbucket_base repo) = true.
Proof.
  intros Hrepo. unfold pr_safe, bitbucket_base.
  apply andb_true_iff. split; [|reflexivity].
  set (tail := str "/pull-request/").
  apply no_overlap_intro.
  - intros i Hi.
    apply (compatible_marker _ pr_phrase (str "https://bitbucket.org/" ++ repo) tail
             " " 4 0); [done | done | | simpl; lia | | lia | done].
    + rewrite drop_0, !forallb_app. rewrite !andb_true_iff.
      split; [split; [done|]|done]. by apply has_char_false_forallb.
    + intros k Hk. simpl in Hk.
      do 10 (destruct k as [|k]; [lia|]).
      small_index k ltac:(reflexivity). lia.
  - intros j Hj. change (length pr_phrase) with 14 in Hj.
    rewrite <- !app_assoc. destruct j as [|j]; [lia|].
    small_index j ltac:(reflexivity). lia.
Qed.

Lemma no_colon_after_scheme repo tail :
  has_char ":" repo = false ->
  forallb (fun c => negb (chr_eqb c ":")) tail = true ->
  forallb (fun c => negb (chr_eqb c ":"))
    (drop 6 ((str "https://bitbucket.org/" ++ repo) ++ tail)) = true.
Proof.
  intros Hrepo Htail. rewrite <- app_assoc.
  change (drop 6 (str "https://bitbucket.org/" ++ repo ++ tail))
    with (str "//bitbucket.org/" ++ repo ++ tail).
  rewrite !forallb_app, Htail, (has_char_false_forallb _ _ Hrepo). done.
Qed.

(** An [http] prefix of the normalization and the commits URL. *)
Lemma no_overlap_http_commits p repo :
  p = str "http://www.bitbucket.org/" \/ p = str "http://bitbucket.org/" ->
  has_char ":" repo = false ->
  no_overlap p (bitbucket_base repo ++ str "/commits/") = true.
Proof.
  intros Hp Hrepo. unfold bitbucket_base. apply no_overlap_intro.
  - intros i Hi.
    destruct i as [|[|i]];
      [rewrite <- app_assoc; by destruct Hp as [-> | ->]..|].
    apply (compatible_marker _ p (str "https://bitbucket.org/" ++ repo)
             (str "/commits/") ":" 4 6);
      [done | by destruct Hp as [-> | ->] | by apply no_colon_after_scheme
      | simpl; lia | | lia | done].
    intros k Hk. simpl in Hk. do 5 (destruct k as [|k]; [lia|]).
    small_index k ltac:(by destruct Hp as [-> | ->]). lia.
  - intros j Hj. rewrite <- !app_assoc. destruct j as [|j]; [lia|].
    destruct Hp as [-> | ->]; simpl in Hj.
    + small_index j ltac:(reflexivity). lia.
    + small_index j ltac:(reflexivity). lia.
Qed.

Lemma no_overlap_changeset_commits repo :
  has_char ":" repo = false ->
  no_overlap (bitbucket_base repo ++ str "/changeset/")
             (bitbucket_base repo ++ str "/commits/") = true.
Proof.
  intros Hrepo. unfold bitbucket_base.
  apply no_overlap_intro.
  - intros i Hi. destruct i as [|i].
    { rewrite !drop_0. by rewrite compatible_app_head. }
    apply (compatible_marker _
             ((str "https://bitbucket.org/" ++ repo) ++ str "/changeset/")
             (str "https://bitbucket.org/" ++ repo) (str "/commits/") ":" 5 6);
      [done | by rewrite <- app_assoc | by apply no_colon_after_scheme
      | simpl; lia | | lia | done].
    intros k Hk. simpl in Hk. rewrite <- app_assoc.
    do 4 (destruct k as [|k]; [lia|]).
    small_index k ltac:(reflexivity). lia.
  - intros j Hj.
    apply (compatible_marker _
             ((str "https://bitbucket.org/" ++ repo) ++ str "/commits/")
             (str "https://bitbucket.org/" ++ repo) (str "/changeset/") ":" 5 6);
      [done | by rewrite <- app_assoc | by apply no_colon_after_scheme
      | simpl; lia | | lia | lia].
    intros k Hk. simpl in Hk. rewrite <- app_assoc.
    do 6 (destruct k as [|k]; [lia|]).
    small_index k ltac:(reflexivity). lia.
Qed.

Lemma normalize_safe_bitbucket repo :
  has_char ":" repo = false -> normalize_safe (bitbucket_base repo) = true.
Proof.
  intros Hrepo. unfold normalize_safe.
  rewrite !no_overlap_http_commits by auto.
  by rewrite no_overlap_changeset_commits.
Qed.

(** C9 (as amended): when the base URL is that of a Bitbucket repository,
    [https://bitbucket.org/] followed by a repository path without colon
    and without space, URL normalization and the pull-request rule are
    idempotent on every text. *)
Theorem normalize_and_pr_marker_idempotent self repo content :
  bb_url self = bitbucket_base repo ->
  has_char ":" repo = false ->
  has_char " " repo = false ->
  normalize_bb_url self (normalize_bb_url self content)
    = normalize_bb_url self content
  /\ convert_bb_pr_marker self (convert_bb_pr_marker self content)
    = convert_bb_pr_marker self content.
Proof.
  intros Hbb Hcolon Hspace. split.
  - apply normalize_bb_url_idempotent. rewrite Hbb. by apply normalize_safe_bitbucket.
  - apply convert_bb_pr_marker_idempotent. rewrite Hbb. by apply pr_safe_bitbucket.
Qed.

Lemma normalize_and_pr_marker_idempotent_witness :
  normalize_bb_url demo_index
    (normalize_bb_url demo_index old_link_text)
    = normalize_bb_url demo_index old_link_text
  /\ convert_bb_pr_marker demo_index
       (convert_bb_pr_marker demo_index old_link_text)
    = convert_bb_pr_marker demo_index old_link_text.
Proof.
  apply (normalize_and_pr_marker_idempotent demo_index (str "u/r") old_link_text).
  - reflexivity.
  - reflexivity.
  - reflexivity.
Defined.

Example normalize_and_pr_marker_ex :
  normalize_bb_url demo_index old_link_text
    = str "see https://bitbucket.org/u/r/commits/0f18 and pull request #7"
  /\ convert_bb_pr_marker demo_index old_link_text
    = str "see http://www.bitbucket.org/u/r/changeset/0f18 and " ++
      str "https://bitbucket.org/u/r/pull-request/7".
Proof. split; vm_compute; reflexivity. Qed.

(** C9 (counterexample): the issue-link rule is not idempotent.  The
    first link is replaced wherever its text occurs, also at the head of
    the second link, whose own text ([.../issue/1/https]) is then no
    longer there; what is left of the second link ends in a third link
    that only the second pass finds. *)
Lemma issue_link_not_idempotent :
  convert_bb_issue_link demo_index
    (convert_bb_issue_link demo_index nested_issue_text)
  <> convert_bb_issue_link demo_index nested_issue_text.
Proof. vm_compute. discriminate. Qed.

Example issue_link_passes :
  convert_bb_issue_link demo_index nested_issue_text
    = str "#1 #1/https://bitbucket.org/u/r/issue/2"
  /\ convert_bb_issue_link demo_index (str "#1 #1/https://bitbucket.org/u/r/issue/2")
    = str "#1 #1/#2".
Proof. split; vm_compute; reflexivity. Qed.

Example issue_link_ex :
  convert_bb_issue_link demo_index
    (str "see https://bitbucket.org/u/r/issue/63/some-title") = str "see #63".
Proof. vm_compute. reflexivity. Qed.

(** * Further properties *)

(** ** The tables of the index *)

Lemma hg_loop_tables parse ls :
  let b := fold_left (add_hg parse) ls builder0 in
  (forall n, b_hg_dates b !! n = date_of_node parse n ls)
  /\ (forall r, b_revnum b !! r = node_of_revnum r ls).
Proof.
  induction ls as [|l ls IH] using rev_ind; [by split|].
  rewrite fold_left_app. cbn [fold_left]. destruct IH as [Hd Hr].
  unfold date_of_node, node_of_revnum in *. split.
  - intros n. cbn [add_hg b_hg_dates]. rewrite lookup_insert, filter_app, filter_cons, filter_nil.
    case_decide as Hn.
    + by rewrite last_snoc.
    + rewrite app_nil_r. apply Hd.
  - intros r. cbn [add_hg b_revnum]. rewrite lookup_insert, filter_app, filter_cons, filter_nil.
    case_decide as Hn.
    + by rewrite last_snoc.
    + rewrite app_nil_r. apply Hr.
Qed.

Lemma last_filter_elem {A} (P : A -> Prop) `{forall x, Decision (P x)} (l : list A) x :
  last (filter P l) = Some x -> x ∈ l /\ P x.
Proof.
  intros Hl. assert (Hx : x ∈ filter P l).
  { apply list_elem_of_lookup. exists (pred (length (filter P l))).
    by rewrite <- last_lookup. }
  by apply list_elem_of_filter in Hx as [? ?].
Qed.

Lemma last_filter_is_Some {A} (P : A -> Prop) `{forall x, Decision (P x)} (l : list A) x :
  x ∈ l -> P x -> is_Some (last (filter P l)).
Proof.
  intros Hx HP. destruct (last (filter P l)) eqn:Hl; [eauto|].
  apply last_None in Hl. assert (Hin : x ∈ filter P l) by by apply list_elem_of_filter.
  rewrite Hl in Hin. by apply elem_of_nil in Hin.
Qed.

(** After [__init__], the three dictionaries are about the identifiers of
    the log: [hg_to_git] and [hg_dates] have exactly these as keys,
    [hg_dates] holds the date of the last record of an identifier, and
    [hg_revnum_to_hg_node] the identifier of the last record of a
    revision number. *)
Theorem BbToGh_init_tables parse hg_logs git_logs bb gh :
  let index := (BbToGh_init parse hg_logs git_logs bb gh).1 in
  (forall n, is_Some (hg_to_git index !! n) <-> n ∈ hg_nodes hg_logs)
  /\ (forall n, hg_dates index !! n = date_of_node parse n hg_logs)
  /\ (forall n, is_Some (hg_dates index !! n) <-> n ∈ hg_nodes hg_logs)
  /\ (forall r, hg_revnum_to_hg_node index !! r = node_of_revnum r hg_logs)
  /\ (forall r n, hg_revnum_to_hg_node index !! r = Some n -> n ∈ hg_nodes hg_logs).
Proof.
  simpl.
  destruct (build_result parse hg_logs git_logs) as (_ & Hr & Hd & Hdom & _).
  destruct (hg_loop_tables parse hg_logs) as [Hdates Hrev].
  rewrite Hr, Hd.
  assert (Hdkeys : forall n, is_Some (date_of_node parse n hg_logs) <-> n ∈ hg_nodes hg_logs).
  { intros n. unfold date_of_node. rewrite fmap_is_Some, elem_of_hg_nodes. split.
    - intros [l Hl]. apply last_filter_elem in Hl as [? ?]. eauto.
    - intros (l & Hl & Hn). by apply (last_filter_is_Some _ _ l). }
  split; [done|]. split; [done|]. split; [intros n; by rewrite Hdates|].
  split; [done|]. intros r n. rewrite Hrev. unfold node_of_revnum.
  intros (l & Hl & ->)%fmap_Some. apply last_filter_elem in Hl as [? _].
  apply elem_of_hg_nodes. eauto.
Qed.

Lemma BbToGh_init_tables_aux parse hg_logs git_logs bb gh :
  let index := (BbToGh_init parse hg_logs git_logs bb gh).1 in
  (forall n, is_Some (hg_to_git index !! n) <-> n ∈ hg_nodes hg_logs)
  /\ (forall n, is_Some (hg_dates index !! n) <-> n ∈ hg_nodes hg_logs).
Proof.
  simpl.
  destruct (build_result parse hg_logs git_logs) as (_ & _ & Hd & Hdom & _).
  destruct (hg_loop_tables parse hg_logs) as [Hdates _].
  split; [done|]. intros n. rewrite Hd, Hdates. unfold date_of_node.
  rewrite fmap_is_Some, elem_of_hg_nodes. split.
  - intros [l Hl]. apply last_filter_elem in Hl as [? ?]. eauto.
  - intros (l & Hl & Hn). by apply (last_filter_is_Some _ _ l).
Qed.

Lemma BbToGh_init_revnum_aux parse hg_logs git_logs bb gh r n :
  let index := (BbToGh_init parse hg_logs git_logs bb gh).1 in
  hg_revnum_to_hg_node index !! r = Some n ->
  n ∈ hg_nodes hg_logs /\ node_of_revnum r hg_logs = Some n.
Proof.
  simpl. destruct (build_result parse hg_logs git_logs) as (_ & Hr & _).
  destruct (hg_loop_tables parse hg_logs) as [_ Hrev].
  rewrite Hr, Hrev. intros Hn. split; [|done]. unfold node_of_revnum in Hn.
  apply fmap_Some in Hn as (l & Hl & ->). apply last_filter_elem in Hl as [? _].
  apply elem_of_hg_nodes. eauto.
Qed.

(** ** The sorted identifiers and the prefix search *)

Lemma insert_sorted_Permutation x l : insert_sorted x l ≡ₚ x :: l.
Proof.
  induction l as [|y l IH]; simpl; [done|].
  destruct (str_ltb y x); [|done]. rewrite IH. apply Permutation_swap.
Qed.

Lemma sorted_Permutation l : sorted l ≡ₚ l.
Proof.
  induction l as [|x l IH]; simpl; [done|].
  by rewrite insert_sorted_Permutation, IH.
Qed.

(** [sorted_nodes] lists the identifiers of the log in ascending order,
    each once, also when the log repeats an identifier. *)
Theorem BbToGh_init_sorted_nodes parse hg_logs git_logs bb gh :
  let index := (BbToGh_init parse hg_logs git_logs bb gh).1 in
  NoDup (sorted_nodes index)
  /\ ascending (sorted_nodes index)
  /\ (forall n, n ∈ sorted_nodes index <-> n ∈ hg_nodes hg_logs).
Proof.
  destruct (sorted_nodes_init parse hg_logs git_logs bb gh) as [Hasc Hmem].
  simpl in *. split; [|by split].
  rewrite sorted_Permutation. apply NoDup_fst_map_to_list.
Qed.

(** What [find_hg_node] answers on an ascending list. *)
Lemma find_hg_node_Some self ref m :
  ascending (sorted_nodes self) ->
  find_hg_node self ref = Some m ->
  m ∈ sorted_nodes self /\ startswith m ref = true
  /\ forall m', m' ∈ sorted_nodes self -> str_le ref m' -> str_le m m'.
Proof.
  intros Hasc. unfold find_hg_node.
  destruct (bisect_left_spec (sorted_nodes self) ref Hasc) as (Hr & Hlow & Hhigh).
  destruct (_ =? _); [done|].
  destruct (sorted_nodes self !! bisect_left (sorted_nodes self) ref) as [x|] eqn:Hx;
    [|done].
  destruct (startswith x ref) eqn:Hs; [|done]. intros [= <-].
  split; [by apply list_elem_of_lookup_2 in Hx|]. split; [done|].
  intros m' [j Hj]%list_elem_of_lookup Hle.
  apply (Hasc (bisect_left (sorted_nodes self) ref) j x m'); [|done|done].
  destruct (decide (bisect_left (sorted_nodes self) ref <= j)) as [|Hlt]; [done|].
  unfold str_le in Hle. rewrite (Hlow j m') in Hle by (done || lia). done.
Qed.

(** In an index built by [__init__], a reference that some identifier
    starts with is resolved to the smallest identifier that starts with
    it: a prefix shared by several commits silently picks one of them. *)
Theorem find_hg_node_smallest parse hg_logs git_logs bb gh ref n :
  let index := (BbToGh_init parse hg_logs git_logs bb gh).1 in
  n ∈ hg_nodes hg_logs -> startswith n ref = true ->
  exists m, find_hg_node index ref = Some m
    /\ m ∈ hg_nodes hg_logs /\ startswith m ref = true
    /\ forall m', m' ∈ hg_nodes hg_logs -> startswith m' ref = true -> str_le m m'.
Proof.
  intros index Hn Hs.
  destruct (sorted_nodes_init parse hg_logs git_logs bb gh) as [Hasc Hmem].
  fold index in Hasc, Hmem.
  destruct (find_hg_node_first index ref n Hasc (proj2 (Hmem n) Hn)
              (prefix_str_le ref n Hs)) as (m & Hm & H1 & H2 & Hfind).
  rewrite (between_prefix ref m n Hs H1 H2) in Hfind.
  exists m. split; [done|].
  destruct (find_hg_node_Some index ref m Hasc Hfind) as (_ & Hms & Hleast).
  split; [by apply Hmem|]. split; [done|].
  intros m' Hm' Hs'. apply Hleast; [by apply Hmem | by apply prefix_str_le].
Qed.

Lemma find_hg_node_smallest_witness :
  exists m, find_hg_node family_index (str "f") = Some m
    /\ m ∈ hg_nodes family_hg_logs /\ startswith m (str "f") = true
    /\ forall m', m' ∈ hg_nodes family_hg_logs -> startswith m' (str "f") = true ->
         str_le m m'.
Proof.
  apply (find_hg_node_smallest demo_parse family_hg_logs demo_git_logs demo_bb demo_gh
           (str "f") (str "ff02")).
  - apply list_elem_of_here.
  - reflexivity.
Defined.

Example find_hg_node_smallest_ex : find_hg_node family_index (str "f") = Some (str "f0a1").
Proof. vm_compute. reflexivity. Qed.

(** [find_hg_node] answers [None] exactly when no identifier of the log
    starts with the reference. *)
Theorem find_hg_node_None_iff parse hg_logs git_logs bb gh ref :
  let index := (BbToGh_init parse hg_logs git_logs bb gh).1 in
  find_hg_node index ref = None
  <-> forall n, n ∈ hg_nodes hg_logs -> startswith n ref = false.
Proof.
  intros index.
  destruct (sorted_nodes_init parse hg_logs git_logs bb gh) as [Hasc Hmem].
  fold index in Hasc, Hmem. split.
  - intros Hnone n Hn. destruct (startswith n ref) eqn:Hs; [|done].
    destruct (find_hg_node_first index ref n Hasc (proj2 (Hmem n) Hn)
                (prefix_str_le ref n Hs)) as (m & Hm & H1 & H2 & Hfind).
    rewrite (between_prefix ref m n Hs H1 H2), Hnone in Hfind. done.
  - intros Hall. destruct (find_hg_node index ref) as [m|] eqn:Hfind; [|done].
    destruct (find_hg_node_Some index ref m Hasc Hfind) as (Hm & Hs & _).
    rewrite (Hall m) in Hs; [done | by apply Hmem].
Qed.

(** ** Resolution on an index built by [__init__] *)

Lemma hgnode_to_githash_by_revnum self ref n m w :
  find_hg_node self ref = None -> isdigit ref = true ->
  hg_revnum_to_hg_node self !! int_of ref = Some n ->
  find_hg_node self n = Some m ->
  (hgnode_to_githash self ref w).1 = answer_for self m.
Proof.
  intros Hfind Hdig Hrev Hn. unfold hgnode_to_githash, answer_for.
  destruct (pystr_eqb ref (str "tip")) eqn:Htip.
  { apply pystr_eqb_eq in Htip. subst ref. discriminate Hdig. }
  rewrite Hfind, Hdig. unfold bind at 1. unfold getitem at 1. rewrite Hrev.
  unfold ret at 1. rewrite Hn.
  unfold bind, getitem_opt, getitem.
  destruct (hg_to_git self !! m) as [[h|]|]; simpl; try done.
  destruct (hg_dates self !! m); done.
Qed.

Lemma answer_for_node parse hg_logs git_logs bb gh n :
  let index := (BbToGh_init parse hg_logs git_logs bb gh).1 in
  n ∈ hg_nodes hg_logs ->
  exists v, hg_to_git index !! n = Some v /\ answer_for index n = Ok v.
Proof.
  intros index Hn.
  destruct (BbToGh_init_tables_aux parse hg_logs git_logs bb gh) as (Hg & Hd).
  fold index in Hg, Hd.
  destruct (proj2 (Hg n) Hn) as [v Hv]. destruct (proj2 (Hd n) Hn) as [d Hdn].
  exists v. split; [done|]. unfold answer_for. rewrite Hv, Hdn. by destruct v.
Qed.

(** On an index built by [__init__], for a reference of ASCII
    characters, [hgnode_to_githash] raises nothing but [KeyError], and
    raises it exactly for a reference other than
    [tip] that no identifier starts with and that is not the revision
    number of a record either. *)
Theorem hgnode_to_githash_raises_iff parse hg_logs git_logs bb gh ref w :
  let index := (BbToGh_init parse hg_logs git_logs bb gh).1 in
  is_ascii_text ref = true ->
  (forall e, (hgnode_to_githash index ref w).1 = Raise e -> e = KeyError)
  /\ ((hgnode_to_githash index ref w).1 = Raise KeyError
      <-> ref <> str "tip"
          /\ find_hg_node index ref = None
          /\ (isdigit ref = false
              \/ hg_revnum_to_hg_node index !! int_of ref = None)).
Proof.
  intros index _.
  destruct (sorted_nodes_init parse hg_logs git_logs bb gh) as [Hasc Hmem].
  fold index in Hasc, Hmem.
  pose proof (answer_for_node parse hg_logs git_logs bb gh) as Hans.
  fold index in Hans. cbv zeta in Hans.
  assert (Hok : forall m, m ∈ sorted_nodes index -> exists v, answer_for index m = Ok v).
  { intros m Hm. destruct (Hans m (proj1 (Hmem m) Hm)) as (v & _ & Hv). eauto. }
  destruct (decide (ref = str "tip")) as [->|Htip].
  { split; [done|]. split; [done | by intros [? _]]. }
  destruct (find_hg_node index ref) as [m|] eqn:Hfind.
  { rewrite (hgnode_to_githash_found index ref m w Htip Hfind).
    destruct (find_hg_node_Some index ref m Hasc Hfind) as (Hm & _).
    destruct (Hok m Hm) as [v ->].
    split; [done|]. split; [done | by intros (_ & ? & _)]. }
  destruct (isdigit ref) eqn:Hdig.
  2:{ rewrite (hgnode_to_githash_unknown_raises index ref w Htip Hfind Hdig).
      split; [by intros e [= <-]|]. split; [auto | done]. }
  destruct (hg_revnum_to_hg_node index !! int_of ref) as [n|] eqn:Hrev.
  2:{ rewrite (hgnode_to_githash_revnum_raises index ref w Hfind Hdig Hrev).
      split; [by intros e [= <-]|]. split; [auto | done]. }
  assert (Hn : n ∈ sorted_nodes index).
  { apply Hmem.
    destruct (BbToGh_init_revnum_aux parse hg_logs git_logs bb gh (int_of ref) n Hrev)
      as [Hn _]. done. }
  rewrite (hgnode_to_githash_by_revnum index ref n n w Hfind Hdig Hrev
             (find_hg_node_full index n Hasc Hn)).
  destruct (Hok n Hn) as [v ->]. split; [done|]. split; [done|].
  intros (_ & _ & [?|?]); done.
Qed.

Lemma hgnode_to_githash_raises_iff_witness :
  let index := (BbToGh_init demo_parse demo_hg_logs demo_git_logs demo_bb demo_gh).1 in
  (forall e, (hgnode_to_githash index (str "77") world0).1 = Raise e -> e = KeyError)
  /\ ((hgnode_to_githash index (str "77") world0).1 = Raise KeyError
      <-> str "77" <> str "tip"
          /\ find_hg_node index (str "77") = None
          /\ (isdigit (str "77") = false
              \/ hg_revnum_to_hg_node index !! int_of (str "77") = None)).
Proof.
  apply (hgnode_to_githash_raises_iff demo_parse demo_hg_logs demo_git_logs
           demo_bb demo_gh (str "77") world0).
  reflexivity.
Defined.

(** A string of digits that no identifier starts with is read as a
    revision number, and resolved like the identifier of the last record
    of the log with that number. *)
Theorem hgnode_to_githash_revision_number parse hg_logs git_logs bb gh ref n w :
  let index := (BbToGh_init parse hg_logs git_logs bb gh).1 in
  isdigit ref = true ->
  (forall m, m ∈ hg_nodes hg_logs -> startswith m ref = false) ->
  node_of_revnum (int_of ref) hg_logs = Some n ->
  exists v, hg_to_git index !! n = Some v
            /\ (hgnode_to_githash index ref w).1 = Ok v.
Proof.
  intros index Hdig Hnone Hrev.
  destruct (sorted_nodes_init parse hg_logs git_logs bb gh) as [Hasc Hmem].
  fold index in Hasc, Hmem.
  assert (Hfind : find_hg_node index ref = None).
  { destruct (find_hg_node index ref) as [m|] eqn:Hfind; [|done].
    destruct (find_hg_node_Some index ref m Hasc Hfind) as (Hm & Hs & _).
    rewrite (Hnone m) in Hs; [done | by apply Hmem]. }
  assert (Hrev' : hg_revnum_to_hg_node index !! int_of ref = Some n).
  { destruct (hg_loop_tables parse hg_logs) as [_ Hr].
    destruct (build_result parse hg_logs git_logs) as (_ & Hb & _).
    unfold index. simpl. by rewrite Hb, Hr. }
  destruct (BbToGh_init_revnum_aux parse hg_logs git_logs bb gh (int_of ref) n Hrev')
    as [Hn _].
  destruct (answer_for_node parse hg_logs git_logs bb gh n Hn) as (v & Hv & Hans).
  exists v. split; [done|].
  rewrite (hgnode_to_githash_by_revnum index ref n n w Hfind Hdig Hrev'); [done|].
  apply find_hg_node_full; [done | by apply Hmem].
Qed.

Lemma hgnode_to_githash_revision_number_witness :
  exists v, hg_to_git demo_index !! str "0f18c81b53fc" = Some v
            /\ (hgnode_to_githash demo_index (str "5") world0).1 = Ok v.
Proof.
  apply (hgnode_to_githash_revision_number demo_parse demo_hg_logs demo_git_logs
           demo_bb demo_gh (str "5") (str "0f18c81b53fc") world0).
  - reflexivity.
  - intros m Hm. apply elem_of_cons in Hm as [->|Hm]; [reflexivity|].
    apply list_elem_of_singleton in Hm as ->. reflexivity.
  - reflexivity.
Defined.

(** [hgnode_to_githash] leaves the lookup cache alone, and logs one
    warning exactly when it answers [None] for a reference other than
    [tip]; it logs nothing when it raises. *)
Theorem hgnode_to_githash_effects self ref w :
  let r := (hgnode_to_githash self ref w).1 in
  let w' := (hgnode_to_githash self ref w).2 in
  cache w' = cache w /\ requests w' = requests w
  /\ match r with
     | Ok None =>
       if pystr_eqb ref (str "tip") then warnings w' = warnings w
       else exists ev, warnings w' = warnings w ++ [ev]
     | _ => warnings w' = warnings w
     end.
Proof.
  cbv zeta. destruct (quiet_hgnode_to_githash self ref w) as [Hc Hr].
  split; [done|]. split; [done|]. clear Hc Hr.
  unfold hgnode_to_githash.
  assert (Hl : forall a b,
    let c := (git_hash <- getitem_opt (hg_to_git self) b ;;
              match git_hash with
              | None => date <- getitem_opt (hg_dates self) b ;;
                        warn (WarnNotInGitLog a date) ;;; ret None
              | Some h => ret (Some h)
              end) in
    match (c w).1 with
    | Ok None => exists ev, warnings (c w).2 = warnings w ++ [ev]
    | _ => warnings (c w).2 = warnings w
    end).
  { intros a b. cbv zeta. unfold bind, getitem_opt, getitem, raise, ret, warn.
    destruct b as [b|]; [|done].
    destruct (hg_to_git self !! b) as [[h|]|]; [done| |done].
    destruct (hg_dates self !! b); simpl; eauto. }
  destruct (pystr_eqb ref (str "tip")) eqn:Htip; [done|].
  destruct (find_hg_node self ref) as [m|]; [apply Hl|].
  destruct (isdigit ref); [|apply Hl].
  destruct (hg_revnum_to_hg_node self !! int_of ref) as [n|] eqn:Hrev.
  - rewrite (bind_ok _ _ w n w) by (unfold getitem; by rewrite Hrev).
    destruct (find_hg_node self n) as [m|]; [apply Hl|]. simpl. eauto.
  - unfold bind, getitem. by rewrite Hrev.
Qed.

(** ** The base URLs of the index *)

Lemma lstrip_by_spec f s :
  exists a, s = a ++ lstrip_by f s /\ forallb f a = true
            /\ match lstrip_by f s with c :: _ => f c = false | [] => True end.
Proof.
  induction s as [|c s (a & Hs & Ha & Hh)]; simpl; [by exists []|].
  destruct (f c) eqn:Hc.
  - exists (c :: a). simpl. rewrite Hc, Ha. split; [by f_equal|]. done.
  - exists []. by rewrite Hc.
Qed.

Lemma rev_all_same z a :
  forallb (chr_eqb z) a = true -> rev a = replicate (length a) z.
Proof.
  induction a as [|c a IH]; [done|]. cbn [forallb].
  intros [Hc Ha]%andb_true_iff. apply chr_eqb_eq in Hc as <-.
  cbn [rev length]. rewrite (IH Ha). clear.
  induction (length a) as [|n IHn]; [done|]. cbn [replicate app]. by rewrite IHn.
Qed.

Lemma rstrip_slash_spec s :
  exists k, s = rstrip_slash s ++ replicate k "/"%char
            /\ last (rstrip_slash s) <> Some "/"%char.
Proof.
  unfold rstrip_slash, rstrip_by.
  destruct (lstrip_by_spec (chr_eqb "/") (rev s)) as (a & Hs & Ha & Hh).
  exists (length a). split.
  - apply (f_equal (@rev ascii)) in Hs. rewrite rev_involutive, rev_app_distr in Hs.
    rewrite Hs at 1. f_equal. by apply rev_all_same.
  - destruct (lstrip_by (chr_eqb "/") (rev s)) as [|c t]; [done|].
    cbn [rev]. rewrite last_snoc. intros [= ->]. by rewrite chr_eqb_refl in Hh.
Qed.

(** [__init__] keeps the two base URLs as given, less the slashes at
    their end. *)
Theorem BbToGh_init_urls parse hg_logs git_logs bb gh :
  let index := (BbToGh_init parse hg_logs git_logs bb gh).1 in
  (exists k, bb = bb_url index ++ replicate k "/"%char)
  /\ last (bb_url index) <> Some "/"%char
  /\ (exists k, gh = gh_url index ++ replicate k "/"%char)
  /\ last (gh_url index) <> Some "/"%char.
Proof.
  simpl. destruct (rstrip_slash_spec bb) as (k & Hb & Hlb).
  destruct (rstrip_slash_spec gh) as (j & Hg & Hlg). eauto 10.
Qed.

(** ** Texts in which a rule finds nothing *)

Lemma has_char_app z a b : has_char z (a ++ b) = has_char z a || has_char z b.
Proof. apply existsb_app. Qed.

Lemma has_char_cons z c s : has_char z (c :: s) = chr_eqb z c || has_char z s.
Proof. done. Qed.

Lemma has_char_head z s : has_char z (z :: s) = true.
Proof. by rewrite has_char_cons, chr_eqb_refl. Qed.

Lemma occurs_has_char z q s :
  has_char z q = true -> occurs q s -> has_char z s = true.
Proof.
  intros Hq (a & b & ->). rewrite !has_char_app, Hq. by rewrite orb_true_r.
Qed.

Lemma findall_from_none {A} (m : option ascii -> pystr -> option (A * nat)) z :
  (forall prev s, has_char z s = false -> m prev s = None) ->
  forall s prev skip, has_char z s = false -> findall_from m prev skip s = [].
Proof.
  intros Hm s. induction s as [|c s IH]; intros prev skip Hz; [done|].
  cbn [findall_from]. rewrite has_char_cons in Hz.
  apply orb_false_iff in Hz as [Hc Hs].
  destruct skip as [|k]; [|by apply IH].
  rewrite Hm by (by rewrite has_char_cons, Hc, Hs). by apply IH.
Qed.

Lemma match_lit_has_char z lit s r :
  has_char z lit = true -> match_lit lit s = Some r -> has_char z s = true.
Proof.
  intros Hz Hm. apply match_lit_Some in Hm as ->.
  by rewrite has_char_app, Hz.
Qed.

(** A base pattern with a slash matches only texts with a slash. *)
Lemma match_pattern_slash a b s r :
  match_pattern (a ++ "/"%char :: b) s = Some r -> has_char "/" s = true.
Proof.
  revert s. induction a as [|p a IH]; intros [|c s] H; cbn [app match_pattern] in H;
    try done.
  - change (chr_eqb "/" ".") with false in H. cbv iota in H.
    destruct (chr_eqb "/" c) eqn:Hc; [|done]. by rewrite has_char_cons, Hc.
  - destruct (if chr_eqb p "." then _ else _); [|done].
    rewrite has_char_cons, (IH s H). apply orb_true_r.
Qed.

Lemma m_cset_marker_none prev s :
  has_char "<" s = false -> m_cset_marker prev s = None.
Proof.
  intros Hz. unfold m_cset_marker.
  destruct (match_lit (str "<<") s) as [s1|] eqn:Hm; [|done].
  apply (match_lit_has_char "<") in Hm; [congruence | done].
Qed.

Lemma m_cset_link_none bb prev s :
  has_char "/" s = false -> m_cset_link (bb ++ str "/commits/") prev s = None.
Proof.
  intros Hz. unfold m_cset_link.
  destruct (match_pattern _ s) as [s1|] eqn:Hm; [|done].
  apply match_pattern_slash in Hm. congruence.
Qed.

Lemma m_src_link_none bb prev s :
  has_char "/" s = false -> m_src_link (bb ++ str "/src/") prev s = None.
Proof.
  intros Hz. unfold m_src_link.
  destruct (match_pattern _ s) as [s1|] eqn:Hm; [|done].
  apply match_pattern_slash in Hm. congruence.
Qed.

Lemma m_issue_link_none bb prev s :
  has_char "/" s = false -> m_issue_link (bb ++ str "/issue/") prev s = None.
Proof.
  intros Hz. unfold m_issue_link.
  destruct (match_pattern _ s) as [s1|] eqn:Hm; [|done].
  apply match_pattern_slash in Hm. congruence.
Qed.

Lemma m_pr_marker_none prev s :
  has_char "#" s = false -> m_pr_marker prev s = None.
Proof.
  intros Hz. unfold m_pr_marker. destruct (word_before prev); [done|].
  destruct (match_lit pr_phrase s) as [s1|] eqn:Hm; [|done].
  apply (match_lit_has_char "#") in Hm; [congruence | done].
Qed.

Lemma m_user_tail_none s : has_char "@" s = false -> m_user_tail s = None.
Proof.
  intros Hz. unfold m_user_tail. destruct s as [|a [|l t]]; try done.
  rewrite has_char_cons in Hz. apply orb_false_iff in Hz as [Ha _].
  unfold chr_eqb in *. by rewrite Ascii.eqb_sym, Ha.
Qed.

Lemma m_user_none prev s : has_char "@" s = false -> m_user prev s = None.
Proof.
  intros Hz. unfold m_user. rewrite (m_user_tail_none s Hz).
  destruct s as [|c s1]; [by destruct prev|].
  rewrite has_char_cons in Hz. apply orb_false_iff in Hz as [_ Hs].
  rewrite (m_user_tail_none s1 Hs). by destruct prev, (is_alnum c).
Qed.

Lemma py_replace_without z s old new :
  has_char z old = true -> has_char z s = false -> py_replace s old new = s.
Proof.
  intros Hold Hs. apply py_replace_no_occurrence.
  - by intros ->.
  - intros Ho. apply (occurs_has_char z) in Ho; congruence.
Qed.

Lemma convert_all_plain api self content w :
  has_char "<" content = false ->
  has_char "/" content = false ->
  has_char "@" content = false ->
  has_char "#" content = false ->
  convert_all api self content w = (Ok content, w).
Proof.
  intros Hlt Hslash Hat Hhash. unfold convert_all.
  assert (Hn : normalize_bb_url self content = content).
  { unfold normalize_bb_url.
    rewrite (py_replace_without "/" content) by done.
    rewrite (py_replace_without "/" content) by done.
    apply (py_replace_without "/"); [|done].
    by rewrite has_char_app, orb_true_r. }
  rewrite Hn.
  unfold convert_cset_marker, findall.
  rewrite (findall_from_none m_cset_marker "<" m_cset_marker_none) by done.
  cbn [for_each]. rewrite bind_ret_l.
  unfold convert_bb_cset_link, findall.
  rewrite (findall_from_none _ "/" (m_cset_link_none (bb_url self))) by done.
  cbn [for_each]. rewrite bind_ret_l.
  unfold convert_bb_issue_link, findall.
  rewrite (findall_from_none _ "/" (m_issue_link_none (bb_url self))) by done.
  cbn [fold_left].
  unfold convert_bb_src_link, findall.
  rewrite (findall_from_none _ "/" (m_src_link_none (bb_url self))) by done.
  cbn [for_each]. rewrite bind_ret_l.
  unfold convert_bb_user_link, findall.
  rewrite (findall_from_none _ "@" m_user_none) by done.
  cbn [for_each]. rewrite bind_ret_l.
  unfold convert_bb_pr_marker, findall.
  rewrite (findall_from_none _ "#" m_pr_marker_none) by done.
  done.
Qed.

(** With a base URL that stands for itself in a pattern, a text without
    [<], [/], [@] and [#] passes [convert_all] unchanged: no rule finds
    anything in it, nothing is resolved, requested or logged. *)
Theorem convert_all_plain_text api self content w :
  plain_pattern (bb_url self) = true ->
  has_char "<" content = false ->
  has_char "/" content = false ->
  has_char "@" content = false ->
  has_char "#" content = false ->
  convert_all api self content w = (Ok content, w).
Proof. intros _. apply convert_all_plain. Qed.

Lemma convert_all_plain_text_witness :
  convert_all demo_api demo_index (str "Thanks, fixed in the last release.") world0
  = (Ok (str "Thanks, fixed in the last release."), world0).
Proof.
  apply (convert_all_plain_text demo_api demo_index
           (str "Thanks, fixed in the last release.") world0); reflexivity.
Defined.

(** ** Texts with one marker or one link *)

Lemma findall_from_skip {A} (m : option ascii -> pystr -> option (A * nat)) a t prev :
  findall_from m prev (length a) (a ++ t) = findall_from m (prev_of prev a) 0 t.
Proof.
  revert prev. induction a as [|c a IH]; intros prev; [by destruct t|].
  cbn [length app findall_from]. by rewrite IH, prev_of_cons.
Qed.

(** The list of matches when the text starts with a match and the
    pattern finds nothing after it. *)
Lemma findall_single_from {A} (m : option ascii -> pystr -> option (A * nat))
    groups from_ post prev :
  from_ <> [] ->
  m prev (from_ ++ post) = Some (groups, length from_) ->
  (forall p, findall_from m p 0 post = []) ->
  findall_from m prev 0 (from_ ++ post) = [groups].
Proof.
  intros Hne Hm Hpost. destruct from_ as [|c f]; [done|].
  change ((c :: f) ++ post) with (c :: (f ++ post)) in *.
  cbn [findall_from]. rewrite Hm.
  replace (length (c :: f) - 1) with (length f) by (cbn [length]; lia).
  by rewrite findall_from_skip, Hpost.
Qed.

(** Matches that can only start with [z] do not start in a text
    without [z]. *)
Lemma findall_from_pre {A} (m : option ascii -> pystr -> option (A * nat)) z pre s prev :
  (forall p c t, chr_eqb z c = false -> m p (c :: t) = None) ->
  has_char z pre = false ->
  findall_from m prev 0 (pre ++ s) = findall_from m (prev_of prev pre) 0 s.
Proof.
  intros Hm. revert prev. induction pre as [|c pre IH]; intros prev Hz; [done|].
  rewrite has_char_cons in Hz. apply orb_false_iff in Hz as [Hc Hz].
  cbn [app findall_from]. rewrite (Hm _ _ _ Hc), prev_of_cons. by apply IH.
Qed.

Lemma py_replace_head from_ to_ post :
  from_ <> [] -> ~ occurs from_ post ->
  py_replace (from_ ++ post) from_ to_ = to_ ++ post.
Proof.
  intros Hne Hno. destruct from_ as [|c f]; [done|].
  unfold py_replace. rewrite replace_aux_hit. f_equal.
  by apply (py_replace_no_occurrence post (c :: f) to_).
Qed.

Lemma py_replace_inside z pre old new post :
  has_char z pre = false -> has_char z post = false ->
  py_replace (pre ++ (z :: old) ++ post) (z :: old) new = pre ++ new ++ post.
Proof.
  intros Hpre Hpost. unfold py_replace.
  induction pre as [|c pre IH].
  - apply (py_replace_head (z :: old) new post); [done|].
    intros Ho. apply (occurs_has_char z) in Ho; [congruence | apply has_char_head].
  - rewrite has_char_cons in Hpre. apply orb_false_iff in Hpre as [Hc Hpre].
    change ((c :: pre) ++ (z :: old) ++ post) with (c :: (pre ++ (z :: old) ++ post)).
    rewrite replace_aux_miss; [by rewrite (IH Hpre)|].
    cbn [startswith]. by rewrite Hc.
Qed.

Lemma m_cset_marker_head p c t :
  chr_eqb "<" c = false -> m_cset_marker p (c :: t) = None.
Proof.
  intros Hc. unfold m_cset_marker, match_lit.
  change (startswith (c :: t) (str "<<"))
    with (chr_eqb "<" c && startswith t (str "<")).
  by rewrite Hc.
Qed.

Lemma m_cset_marker_at marker node rest prev :
  marker = str "cset" \/ marker = str "changeset" ->
  node <> [] -> has_char ">" node = false ->
  m_cset_marker prev (str "<<" ++ marker ++ str " " ++ node ++ str ">>" ++ rest)
  = Some ((marker, node),
          length (str "<<" ++ marker ++ str " " ++ node ++ str ">>")).
Proof.
  intros Hmarker Hnode Hgt. unfold m_cset_marker.
  rewrite (proj2 (match_lit_Some (str "<<") _ _) eq_refl).
  assert (Hwith : m_cset_with marker (marker ++ str " " ++ node ++ str ">>" ++ rest)
                  = Some ((marker, node),
                          2 + length marker + 1 + length node + 2)).
  { unfold m_cset_with.
    rewrite (proj2 (match_lit_Some (marker ++ str " ") _
                      (node ++ str ">>" ++ rest)))
      by (by rewrite <- app_assoc).
    rewrite (span_exact _ node (str ">>" ++ rest)
               (has_char_false_forallb ">" node Hgt) eq_refl).
    rewrite (proj2 (match_lit_Some (str ">>") _ rest) eq_refl).
    by destruct node. }
  assert (Hlen : length (str "<<" ++ marker ++ str " " ++ node ++ str ">>")
                 = 2 + length marker + 1 + length node + 2).
  { rewrite !length_app. simpl. lia. }
  rewrite Hlen. destruct Hmarker as [-> | ->].
  - by rewrite Hwith.
  - change (m_cset_with (str "cset") (str "changeset" ++ str " " ++ node ++ str ">>" ++ rest))
      with (@None ((pystr * pystr) * nat)).
    apply Hwith.
Qed.

(** A changeset marker in a text that has no other [<]: the marker is
    replaced by the escaped form with what the reference (the part after
    the colon, if there is one) resolves to, the word [None] when it is
    unresolved; the prose around it stays. *)
Theorem convert_cset_marker_in_prose self pre marker node post r w w' :
  marker = str "cset" \/ marker = str "changeset" ->
  node <> [] -> has_char ">" node = false ->
  has_char "<" pre = false -> has_char "<" post = false ->
  hgnode_to_githash self
    (if has_char ":" node then nth 1 (split_on ":" node) [] else node) w
    = (Ok r, w') ->
  convert_cset_marker self
    (pre ++ (str "<<" ++ marker ++ str " " ++ node ++ str ">>") ++ post) w
  = (Ok (pre ++ (str "\<\<cset " ++ fmt_opt r ++ str "\>\>") ++ post), w').
Proof.
  intros Hmarker Hnode Hgt Hpre Hpost Hres. unfold convert_cset_marker.
  set (text := str "<<" ++ marker ++ str " " ++ node ++ str ">>").
  assert (Hfind : findall m_cset_marker (pre ++ text ++ post) = [(marker, node)]).
  { unfold findall.
    rewrite (findall_from_pre m_cset_marker "<" pre _ None m_cset_marker_head Hpre).
    apply (findall_single_from m_cset_marker (marker, node) text post).
    - done.
    - pose proof (m_cset_marker_at marker node post (prev_of None pre)
                    Hmarker Hnode Hgt) as Hm.
      fold text in Hm. rewrite <- Hm. f_equal. unfold text.
      by rewrite <- !app_assoc.
    - intros prev. by apply (findall_from_none m_cset_marker "<" m_cset_marker_none). }
  rewrite Hfind. cbn [for_each].
  assert (Hif : (if has_char ":" node
                 then hgnode_to_githash self (nth 1 (split_on ":" node) [])
                 else hgnode_to_githash self node)
                = hgnode_to_githash self
                    (if has_char ":" node then nth 1 (split_on ":" node) [] else node)).
  { by destruct (has_char ":" node). }
  rewrite Hif. rewrite (bind_ok _ _ w _ w') by (by rewrite (bind_ok _ _ w r w' Hres)).
  unfold ret. f_equal. f_equal.
  apply (py_replace_inside "<" pre _ _ post Hpre Hpost).
Qed.

Lemma convert_cset_marker_in_prose_witness :
  convert_cset_marker demo_index
    (str "see " ++ (str "<<" ++ str "changeset" ++ str " "
                    ++ str "718:0f18c81b53fc" ++ str ">>") ++ str " now") world0
  = (Ok (str "see " ++ (str "\<\<cset " ++ fmt_opt (Some (str "20fa9c09b23e"))
                        ++ str "\>\>") ++ str " now"), world0).
Proof.
  apply (convert_cset_marker_in_prose demo_index (str "see ") (str "changeset")
           (str "718:0f18c81b53fc") (str " now") (Some (str "20fa9c09b23e"))
           world0 world0).
  - by right.
  - done.
  - reflexivity.
  - reflexivity.
  - reflexivity.
  - vm_compute. reflexivity.
Defined.

(** ** A link in prose without slashes *)

Lemma has_char_elem_of z s : has_char z s = true <-> z ∈ s.
Proof.
  induction s as [|c s IH]; [by rewrite elem_of_nil|].
  rewrite has_char_cons, orb_true_iff, elem_of_cons, IH, chr_eqb_eq. done.
Qed.

Lemma has_char_split z s :
  has_char z s = true ->
  exists b1 b2, s = b1 ++ z :: b2 /\ has_char z b1 = false.
Proof.
  induction s as [|c s IH]; [done|]. rewrite has_char_cons.
  destruct (chr_eqb z c) eqn:Hc.
  - apply chr_eqb_eq in Hc as <-. intros _. by exists [], s.
  - intros Hs. destruct (IH Hs) as (b1 & b2 & -> & Hb).
    exists (c :: b1), b2. split; [done|]. by rewrite has_char_cons, Hc, Hb.
Qed.

Lemma has_char_lookup z s i : has_char z s = false -> s !! i <> Some z.
Proof.
  intros Hz Hi. apply list_elem_of_lookup_2, has_char_elem_of in Hi. congruence.
Qed.

(** What the character at the place of the first slash of a pattern is. *)
Lemma match_pattern_at b1 b2 s r :
  match_pattern (b1 ++ "/"%char :: b2) s = Some r ->
  s !! length b1 = Some "/"%char.
Proof.
  revert s. induction b1 as [|p a IH]; intros [|c s] H; cbn [app match_pattern] in H;
    try done.
  - change (chr_eqb "/" ".") with false in H. cbv iota in H.
    destruct (chr_eqb "/" c) eqn:Hc; [|done]. by apply chr_eqb_eq in Hc as <-.
  - destruct (if chr_eqb p "." then _ else _); [|done]. apply (IH s H).
Qed.

Lemma startswith_at z b1 b2 s :
  startswith s (b1 ++ z :: b2) = true -> s !! length b1 = Some z.
Proof.
  intros H. apply startswith_inv in H. rewrite H, <- app_assoc.
  by apply list_lookup_middle.
Qed.

(** In front of a text that starts with [b1], after a stretch with no
    [z] in it or in [b1], the character at the length of [b1] is no [z]. *)
Lemma no_char_before z c pre b1 tail :
  has_char z ((c :: pre) ++ b1) = false ->
  ((c :: pre) ++ b1 ++ tail) !! length b1 <> Some z.
Proof.
  intros Hz. rewrite app_assoc, lookup_app_l.
  - by apply has_char_lookup.
  - rewrite length_app. cbn [length]. lia.
Qed.

Lemma match_pattern_self base s : match_pattern base (base ++ s) = Some s.
Proof.
  induction base as [|p base IH]; [done|]. cbn [app match_pattern].
  destruct (chr_eqb p ".") eqn:Hp; [|by rewrite chr_eqb_refl].
  apply chr_eqb_eq in Hp as ->. done.
Qed.

(** A pattern that begins with the base URL finds nothing that starts in
    the prose before the first link. *)
Lemma findall_from_before {A} (m : option ascii -> pystr -> option (A * nat))
    b1 b2 pre rest prev :
  (forall p t, match_pattern (b1 ++ "/"%char :: b2) t = None -> m p t = None) ->
  has_char "/" (pre ++ b1) = false ->
  findall_from m prev 0 (pre ++ (b1 ++ "/"%char :: b2) ++ rest)
  = findall_from m (prev_of prev pre) 0 ((b1 ++ "/"%char :: b2) ++ rest).
Proof.
  intros Hm. revert prev. induction pre as [|c pre IH]; intros prev Hz; [done|].
  assert (Hnone : match_pattern (b1 ++ "/"%char :: b2)
                    ((c :: pre) ++ (b1 ++ "/"%char :: b2) ++ rest) = None).
  { destruct (match_pattern _ _) as [r|] eqn:Hr; [|done].
    apply match_pattern_at in Hr. rewrite <- (app_assoc b1) in Hr.
    by apply no_char_before in Hr. }
  change ((c :: pre) ++ (b1 ++ "/"%char :: b2) ++ rest)
    with (c :: (pre ++ (b1 ++ "/"%char :: b2) ++ rest)) in *.
  cbn [findall_from]. rewrite (Hm _ _ Hnone), prev_of_cons. apply IH.
  change ((c :: pre) ++ b1) with (c :: (pre ++ b1)) in Hz.
  rewrite has_char_cons in Hz. by apply orb_false_iff in Hz as [_ Hz].
Qed.

Lemma py_replace_miss old new c s :
  old <> [] -> startswith (c :: s) old = false ->
  py_replace (c :: s) old new = c :: py_replace s old new.
Proof.
  intros Hne H. destruct old as [|o old]; [done|].
  unfold py_replace. by apply replace_aux_miss.
Qed.

(** [replace] of a string that is in the text once. *)
Lemma py_replace_single z b1 b2 pre post to_ :
  has_char z (pre ++ b1) = false -> has_char z post = false ->
  py_replace (pre ++ (b1 ++ z :: b2) ++ post) (b1 ++ z :: b2) to_
  = pre ++ to_ ++ post.
Proof.
  intros Hpre Hpost. induction pre as [|c pre IH].
  - apply (py_replace_head (b1 ++ z :: b2) to_ post); [by destruct b1|].
    intros Ho. apply (occurs_has_char z) in Ho; [congruence|].
    by rewrite has_char_app, has_char_head, orb_true_r.
  - change ((c :: pre) ++ (b1 ++ z :: b2) ++ post)
      with (c :: (pre ++ (b1 ++ z :: b2) ++ post)).
    rewrite py_replace_miss.
    + rewrite IH; [done|].
      change ((c :: pre) ++ b1) with (c :: (pre ++ b1)) in Hpre.
      rewrite has_char_cons in Hpre. by apply orb_false_iff in Hpre as [_ Hpre].
    + by destruct b1.
    + destruct (startswith _ _) eqn:Hs; [|done].
      apply startswith_at in Hs.
      change (c :: (pre ++ (b1 ++ z :: b2) ++ post))
        with ((c :: pre) ++ (b1 ++ z :: b2) ++ post) in Hs.
      rewrite <- (app_assoc b1) in Hs. by apply no_char_before in Hs.
Qed.

Lemma findall_link_single {A} (m : option ascii -> pystr -> option (A * nat))
    base url groups pre post :
  (forall p t, match_pattern base t = None -> m p t = None) ->
  (forall p s, has_char "/" s = false -> m p s = None) ->
  has_char "/" base = true ->
  has_char "/" pre = false -> has_char "/" post = false ->
  (forall p, m p ((base ++ url) ++ post) = Some (groups, length (base ++ url))) ->
  findall m (pre ++ (base ++ url) ++ post) = [groups].
Proof.
  intros Hbase Hnone Hslash Hpre Hpost Hm.
  destruct (has_char_split _ _ Hslash) as (b1 & b2 & Hb & Hb1).
  unfold findall. rewrite <- (app_assoc base), Hb.
  rewrite (findall_from_before m b1 b2 pre (url ++ post) None).
  - rewrite <- Hb, app_assoc.
    apply findall_single_from; [by rewrite Hb; destruct b1 | apply Hm |].
    intros p. by apply (findall_from_none m "/" Hnone).
  - by rewrite <- Hb.
  - by rewrite has_char_app, Hpre, Hb1.
Qed.

Lemma py_replace_link base url pre post to_ :
  has_char "/" base = true ->
  has_char "/" pre = false -> has_char "/" post = false ->
  py_replace (pre ++ (base ++ url) ++ post) (base ++ url) to_ = pre ++ to_ ++ post.
Proof.
  intros Hslash Hpre Hpost.
  destruct (has_char_split _ _ Hslash) as (b1 & b2 & -> & Hb1).
  rewrite <- (app_assoc b1). cbn [app].
  apply py_replace_single; [|done]. by rewrite has_char_app, Hpre, Hb1.
Qed.

Lemma base_url_slash bb suffix : has_char "/" (bb ++ "/"%char :: suffix) = true.
Proof. by rewrite has_char_app, has_char_head, orb_true_r. Qed.

Lemma m_cset_link_base base p t :
  match_pattern base t = None -> m_cset_link base p t = None.
Proof. intros H. unfold m_cset_link. by rewrite H. Qed.

Lemma m_issue_link_base base p t :
  match_pattern base t = None -> m_issue_link base p t = None.
Proof. intros H. unfold m_issue_link. by rewrite H. Qed.

Lemma m_src_link_base base p t :
  match_pattern base t = None -> m_src_link base p t = None.
Proof. intros H. unfold m_src_link. by rewrite H. Qed.

Lemma startswith_slash_false s :
  has_char "/" s = false -> startswith s (str "/") = false.
Proof.
  destruct s as [|c s]; [done|]. rewrite has_char_cons.
  intros [Hc _]%orb_false_iff. cbn [str list_ascii_of_string startswith].
  by rewrite Hc.
Qed.

Lemma m_cset_link_at base node slash post p :
  node <> [] -> forallb is_hex node = true ->
  has_char "/" post = false ->
  slash = str "/" \/
    slash = [] /\ match post with c :: _ => is_hex c = false | [] => True end ->
  m_cset_link base p ((base ++ node ++ slash) ++ post)
  = Some ((node, slash), length (base ++ node ++ slash)).
Proof.
  intros Hne Hhex Hpost Hslash. unfold m_cset_link.
  rewrite <- !app_assoc, match_pattern_self.
  assert (Hspan : span is_hex (node ++ slash ++ post) = (node, slash ++ post)).
  { apply span_exact; [done|]. by destruct Hslash as [-> | [-> ?]]. }
  rewrite Hspan. destruct node as [|c node]; [done|].
  assert (Hs : (if startswith (slash ++ post) (str "/") then str "/" else [])
               = slash).
  { destruct Hslash as [-> | [-> _]]; [done|].
    rewrite app_nil_l. by rewrite startswith_slash_false. }
  rewrite Hs. rewrite !length_app. do 2 f_equal. lia.
Qed.

Lemma convert_bb_cset_link_single self pre node slash post r w w' :
  has_char "/" pre = false -> has_char "/" post = false ->
  node <> [] -> forallb is_hex node = true ->
  slash = str "/" \/
    slash = [] /\ match post with c :: _ => is_hex c = false | [] => True end ->
  hgnode_to_githash self node w = (Ok r, w') ->
  convert_bb_cset_link self
    (pre ++ ((bb_url self ++ str "/commits/") ++ node ++ slash) ++ post) w
  = (Ok (pre ++ (str " " ++ fmt_opt r ++ str " ") ++ post), w').
Proof.
  intros Hpre Hpost Hne Hhex Hslash Hres. unfold convert_bb_cset_link.
  set (base := bb_url self ++ str "/commits/").
  rewrite (findall_link_single (m_cset_link base) base (node ++ slash)
             (node, slash) pre post).
  - cbn [for_each]. rewrite (bind_ok _ _ w _ w')
      by (by rewrite (bind_ok _ _ w r w' Hres)).
    unfold ret. f_equal. f_equal.
    apply py_replace_link; [apply base_url_slash | done | done].
  - apply m_cset_link_base.
  - apply m_cset_link_none.
  - apply base_url_slash.
  - done.
  - done.
  - intros p. by apply m_cset_link_at.
Qed.

(** With a base URL that stands for itself in a pattern, a changeset
    link in a text that has no slash outside the link: the link, with
    the slash after it if there is one, is replaced by what the
    identifier resolves to, between two spaces (the word [None] when it
    is unresolved); the prose around it stays. *)
Theorem convert_bb_cset_link_in_prose self pre node slash post r w w' :
  plain_pattern (bb_url self) = true ->
  has_char "/" pre = false -> has_char "/" post = false ->
  node <> [] -> forallb is_hex node = true ->
  slash = str "/" \/
    slash = [] /\ match post with c :: _ => is_hex c = false | [] => True end ->
  hgnode_to_githash self node w = (Ok r, w') ->
  convert_bb_cset_link self
    (pre ++ ((bb_url self ++ str "/commits/") ++ node ++ slash) ++ post) w
  = (Ok (pre ++ (str " " ++ fmt_opt r ++ str " ") ++ post), w').
Proof. intros _. apply convert_bb_cset_link_single. Qed.

Lemma convert_bb_cset_link_in_prose_witness :
  convert_bb_cset_link demo_index
    (str "fixed in " ++ ((bb_url demo_index ++ str "/commits/")
                         ++ str "0f18c81b53fc" ++ str "/") ++ str " today") world0
  = (Ok (str "fixed in " ++ (str " " ++ fmt_opt (Some (str "20fa9c09b23e"))
                             ++ str " ") ++ str " today"), world0).
Proof.
  apply (convert_bb_cset_link_in_prose demo_index (str "fixed in ")
           (str "0f18c81b53fc") (str "/") (str " today")
           (Some (str "20fa9c09b23e")) world0 world0).
  - reflexivity.
  - reflexivity.
  - reflexivity.
  - done.
  - reflexivity.
  - by left.
  - vm_compute. reflexivity.
Defined.

Lemma opt_slash_group_at cls slug post :
  has_char "/" post = false ->
  match post with c :: _ => cls c = false | [] => True end ->
  slug = [] \/ (exists s, slug = "/"%char :: s /\ forallb cls s = true) ->
  opt_slash_group cls (slug ++ post) = slug.
Proof.
  intros Hpost Hhead [-> | (s & -> & Hs)].
  - rewrite app_nil_l. destruct post as [|c post]; [done|].
    rewrite has_char_cons in Hpost. apply orb_false_iff in Hpost as [Hc _].
    cbn [opt_slash_group]. unfold chr_eqb in *. by rewrite Ascii.eqb_sym, Hc.
  - cbn [app opt_slash_group]. rewrite chr_eqb_refl.
    by rewrite (span_exact cls s post Hs Hhead).
Qed.

Lemma m_issue_link_at base digits slug post p :
  digits <> [] -> forallb is_digit digits = true ->
  has_char "/" post = false ->
  match post with c :: _ => is_slug_char c = false | [] => True end ->
  slug = [] \/ (exists s, slug = "/"%char :: s /\ forallb is_slug_char s = true) ->
  m_issue_link base p ((base ++ digits ++ slug) ++ post)
  = Some ((digits, slug), length (base ++ digits ++ slug)).
Proof.
  intros Hne Hdig Hpost Hhead Hslug. unfold m_issue_link.
  rewrite <- !app_assoc, match_pattern_self.
  assert (Hspan : span is_digit (digits ++ slug ++ post) = (digits, slug ++ post)).
  { apply span_exact; [done|].
    destruct Hslug as [-> | (s & -> & _)]; [|done].
    rewrite app_nil_l. destruct post as [|c post]; [done|].
    unfold is_slug_char, is_word, is_alnum in Hhead.
    destruct (is_digit c); [|done]. by rewrite orb_true_r in Hhead. }
  rewrite Hspan. destruct digits as [|c digits]; [done|].
  rewrite (opt_slash_group_at is_slug_char slug post Hpost Hhead Hslug).
  rewrite !length_app. do 2 f_equal. lia.
Qed.

(** With a base URL that stands for itself in a pattern, an issue link
    in a text that has no slash outside the link: the link with its
    title slug is replaced by [#] and the number; the prose around it
    stays. *)
Theorem convert_bb_issue_link_in_prose self pre digits slug post :
  plain_pattern (bb_url self) = true ->
  has_char "/" pre = false -> has_char "/" post = false ->
  digits <> [] -> forallb is_digit digits = true ->
  match post with c :: _ => is_slug_char c = false | [] => True end ->
  slug = [] \/ (exists s, slug = "/"%char :: s /\ forallb is_slug_char s = true) ->
  convert_bb_issue_link self
    (pre ++ ((bb_url self ++ str "/issue/") ++ digits ++ slug) ++ post)
  = pre ++ (str "#" ++ digits) ++ post.
Proof.
  intros _ Hpre Hpost Hne Hdig Hhead Hslug. unfold convert_bb_issue_link.
  set (base := bb_url self ++ str "/issue/").
  rewrite (findall_link_single (m_issue_link base) base (digits ++ slug)
             (digits, slug) pre post).
  - cbn [fold_left]. apply py_replace_link; [apply base_url_slash | done | done].
  - apply m_issue_link_base.
  - apply m_issue_link_none.
  - apply base_url_slash.
  - done.
  - done.
  - intros p. by apply m_issue_link_at.
Qed.

Lemma convert_bb_issue_link_in_prose_witness :
  convert_bb_issue_link demo_index
    (str "see " ++ ((bb_url demo_index ++ str "/issue/") ++ str "63"
                    ++ str "/issue-title-string") ++ str " again")
  = str "see " ++ (str "#" ++ str "63") ++ str " again".
Proof.
  apply (convert_bb_issue_link_in_prose demo_index (str "see ") (str "63")
           (str "/issue-title-string") (str " again")).
  - reflexivity.
  - reflexivity.
  - reflexivity.
  - done.
  - reflexivity.
  - reflexivity.
  - right. exists (str "issue-title-string"). by split.
Defined.

Lemma m_src_link_at base node rest post p :
  node <> [] -> has_char "/" node = false ->
  has_char "/" post = false ->
  match post with c :: _ => is_src_char c = false | [] => True end ->
  (exists s, rest = "/"%char :: s /\ forallb is_src_char s = true) ->
  m_src_link base p ((base ++ node ++ rest) ++ post)
  = Some ((node, rest), length (base ++ node ++ rest)).
Proof.
  intros Hne Hnode Hpost Hhead Hrest. unfold m_src_link.
  rewrite <- !app_assoc, match_pattern_self.
  assert (Hspan : span (fun c => negb (chr_eqb c "/")) (node ++ rest ++ post)
                  = (node, rest ++ post)).
  { apply span_exact; [by apply has_char_false_forallb|].
    by destruct Hrest as (s & -> & _). }
  rewrite Hspan. destruct node as [|c node]; [done|].
  rewrite (opt_slash_group_at is_src_char rest post Hpost Hhead (or_intror Hrest)).
  rewrite !length_app. do 2 f_equal. lia.
Qed.

(** One source link in prose, for any rest of the URL that starts with a
    slash. *)
Lemma convert_bb_src_link_single self pre node rest post r w w' :
  has_char "/" pre = false -> has_char "/" post = false ->
  match post with c :: _ => is_src_char c = false | [] => True end ->
  node <> [] -> has_char "/" node = false ->
  (exists s, rest = "/"%char :: s /\ forallb is_src_char s = true) ->
  hgnode_to_githash self node w = (Ok r, w') ->
  convert_bb_src_link self
    (pre ++ ((bb_url self ++ str "/src/") ++ node ++ rest) ++ post) w
  = (Ok (pre ++ (gh_url self ++ str "/blob/"
                 ++ match r with None => str "master" | Some h => h end
                 ++ path (urlparse rest)
                 ++ match match_cl (fragment (urlparse rest)) with
                    | Some digits => str "#L" ++ digits
                    | None => []
                    end) ++ post), w').
Proof.
  intros Hpre Hpost Hhead Hne Hnode Hrest Hres. unfold convert_bb_src_link.
  set (base := bb_url self ++ str "/src/").
  rewrite (findall_link_single (m_src_link base) base (node ++ rest)
             (node, rest) pre post).
  - cbn [for_each]. rewrite (bind_ok _ _ w _ w')
      by (by rewrite (bind_ok _ _ w r w' Hres)).
    unfold ret. f_equal. f_equal.
    apply py_replace_link; [apply base_url_slash | done | done].
  - apply m_src_link_base.
  - apply m_src_link_none.
  - apply base_url_slash.
  - done.
  - done.
  - intros p. by apply m_src_link_at.
Qed.

Lemma split_first_at z a b :
  has_char z a = false -> split_first z (a ++ z :: b) = Some (a, b).
Proof.
  induction a as [|c a IH]; intros Hz.
  - cbn [app split_first]. by rewrite chr_eqb_refl.
  - rewrite has_char_cons in Hz. apply orb_false_iff in Hz as [Hc Hz].
    cbn [app split_first]. unfold chr_eqb in *.
    by rewrite Ascii.eqb_sym, Hc, (IH Hz).
Qed.

(** [urlparse] of a path, a query and a fragment. *)
Lemma urlparse_path_query_fragment file q frag :
  startswith file (str "/") = false ->
  has_char "?" file = false -> has_char "#" file = false ->
  has_char "#" q = false ->
  urlparse ("/"%char :: file ++ "?"%char :: q ++ "#"%char :: frag)
  = {| netloc := []; path := "/"%char :: file; query := q; fragment := frag |}.
Proof.
  intros Hfile Hq Hh Hhq. unfold urlparse.
  assert (Hs : startswith ("/"%char :: file ++ "?"%char :: q ++ "#"%char :: frag)
                 (str "//") = false).
  { destruct file as [|c file]; [done|].
    cbn [str list_ascii_of_string startswith] in *.
    rewrite chr_eqb_refl. cbn [andb app startswith].
    by destruct (chr_eqb "/" c). }
  rewrite Hs.
  assert (Hf : split_first "#" ("/"%char :: file ++ "?"%char :: q ++ "#"%char :: frag)
               = Some ("/"%char :: file ++ "?"%char :: q, frag)).
  { change ("/"%char :: file ++ "?"%char :: q ++ "#"%char :: frag)
      with (("/"%char :: file) ++ ("?"%char :: q) ++ "#"%char :: frag).
    rewrite app_assoc. apply split_first_at.
    change (has_char "#" (("/"%char :: file) ++ "?"%char :: q) = false).
    rewrite has_char_app, !has_char_cons, Hh, Hhq. done. }
  rewrite Hf.
  change ("/"%char :: file ++ "?"%char :: q) with (("/"%char :: file) ++ "?"%char :: q).
  rewrite split_first_at; [done|]. by rewrite has_char_cons, Hq.
Qed.

Lemma match_cl_digits digits :
  digits <> [] -> forallb is_digit digits = true ->
  match_cl (str "cl-" ++ digits) = Some digits.
Proof.
  intros Hne Hd. unfold match_cl.
  rewrite (proj2 (match_lit_Some (str "cl-") _ digits) eq_refl).
  rewrite <- (app_nil_r digits) at 1.
  rewrite (span_exact is_digit digits [] Hd I). by destruct digits.
Qed.

(** With a base URL that stands for itself in a pattern, a source link
    with a file path, a query and a line anchor, in a text that has no
    slash outside the link: it becomes the GitHub blob link
    of what the revision resolves to ([master] when it is unresolved),
    with the path, without the query, and with [#L] and the line number;
    the prose around it stays. *)
Theorem convert_bb_src_link_in_prose self pre node file q digits post r w w' :
  plain_pattern (bb_url self) = true ->
  has_char "/" pre = false -> has_char "/" post = false ->
  match post with c :: _ => is_src_char c = false | [] => True end ->
  node <> [] -> has_char "/" node = false ->
  forallb is_src_char (file ++ str "?" ++ q ++ str "#cl-" ++ digits) = true ->
  startswith file (str "/") = false ->
  has_char "?" file = false -> has_char "#" file = false ->
  has_char "#" q = false ->
  digits <> [] -> forallb is_digit digits = true ->
  hgnode_to_githash self node w = (Ok r, w') ->
  convert_bb_src_link self
    (pre ++ ((bb_url self ++ str "/src/") ++ node
             ++ (str "/" ++ file ++ str "?" ++ q ++ str "#cl-" ++ digits)) ++ post) w
  = (Ok (pre ++ (gh_url self ++ str "/blob/"
                 ++ match r with None => str "master" | Some h => h end
                 ++ (str "/" ++ file) ++ str "#L" ++ digits) ++ post), w').
Proof.
  intros _ Hpre Hpost Hhead Hne Hnode Hsrc Hfile Hq Hh Hhq Hdne Hdig Hres.
  rewrite (convert_bb_src_link_single self pre node _ post r w w'
             Hpre Hpost Hhead Hne Hnode); [| |done].
  - change (str "/" ++ file ++ str "?" ++ q ++ str "#cl-" ++ digits)
      with ("/"%char :: file ++ "?"%char :: q ++ "#"%char :: (str "cl-" ++ digits)).
    rewrite (urlparse_path_query_fragment file q _ Hfile Hq Hh Hhq).
    cbn [path fragment]. by rewrite (match_cl_digits digits Hdne Hdig).
  - eexists. split; [reflexivity|]. done.
Qed.

Lemma convert_bb_src_link_in_prose_witness :
  convert_bb_src_link demo_index
    (str "look at " ++ ((bb_url demo_index ++ str "/src/") ++ str "0f18c81b53fc"
       ++ (str "/" ++ str "path/to/file.py" ++ str "?" ++ str "at=default"
           ++ str "#cl-" ++ str "321")) ++ str " please") world0
  = (Ok (str "look at " ++ (gh_url demo_index ++ str "/blob/"
           ++ str "20fa9c09b23e"
           ++ (str "/" ++ str "path/to/file.py") ++ str "#L" ++ str "321")
         ++ str " please"), world0).
Proof.
  apply (convert_bb_src_link_in_prose demo_index (str "look at ")
           (str "0f18c81b53fc") (str "path/to/file.py") (str "at=default")
           (str "321") (str " please") (Some (str "20fa9c09b23e")) world0 world0).
  - reflexivity.
  - reflexivity.
  - reflexivity.
  - reflexivity.
  - done.
  - reflexivity.
  - reflexivity.
  - reflexivity.
  - reflexivity.
  - reflexivity.
  - reflexivity.
  - done.
  - reflexivity.
  - vm_compute. reflexivity.
Defined.

(** ** The single pass of [insert_missing_issue] *)

Lemma fill_step_fixed now l idx :
  (forall e, l !! idx = Some e -> id e = (Z.of_nat idx + 1)%Z) ->
  fill_step now l idx = l.
Proof.
  intros H. unfold fill_step. destruct (l !! idx) as [e|]; [|done].
  by rewrite (proj2 (Z.eqb_eq _ _) (H e eq_refl)).
Qed.

(** Rounds over positions that hold the right numbers change nothing. *)
Lemma fill_steps_fixed now l start n :
  (forall i e, start <= i < start + n -> l !! i = Some e ->
               id e = (Z.of_nat i + 1)%Z) ->
  fold_left (fill_step now) (seq start n) l = l.
Proof.
  revert start. induction n as [|n IH]; intros start H; [done|].
  cbn [seq fold_left]. rewrite fill_step_fixed.
  - apply IH. intros i e Hi. apply H. lia.
  - intros e. apply H. lia.
Qed.

Lemma fill_step_grows now l idx :
  l `sublist_of` fill_step now l idx
  /\ length (fill_step now l idx) <= S (length l)
  /\ forall e, e ∈ fill_step now l idx ->
       e ∈ l \/ e = dummy_issue (now idx) (Z.of_nat idx + 1).
Proof.
  unfold fill_step. destruct (l !! idx) as [e0|]; [|by auto].
  destruct (id e0 =? Z.of_nat idx + 1)%Z; [by auto|].
  unfold list_insert_at. split; [|split].
  - rewrite <- (take_drop idx l) at 1. apply sublist_app; [done|].
    by apply sublist_cons.
  - rewrite length_app. cbn [length]. rewrite length_take, length_drop. lia.
  - intros e He. apply elem_of_app in He as [He | He].
    + left. rewrite <- (take_drop idx l). apply elem_of_app. by left.
    + apply elem_of_cons in He as [-> | He]; [by right|].
      left. rewrite <- (take_drop idx l). apply elem_of_app. by right.
Qed.

Lemma fill_pass_grows now l start n :
  let l' := fold_left (fill_step now) (seq start n) l in
  l `sublist_of` l'
  /\ length l' <= length l + n
  /\ forall e, e ∈ l' ->
       e ∈ l \/ exists idx, start <= idx < start + n
                            /\ e = dummy_issue (now idx) (Z.of_nat idx + 1).
Proof.
  revert l start. induction n as [|n IH]; intros l start.
  - cbn [seq fold_left]. split; [done|]. split; [lia | by auto].
  - cbn [seq fold_left].
    destruct (fill_step_grows now l start) as (Hs1 & Hl1 & He1).
    destruct (IH (fill_step now l start) (S start)) as (Hs2 & Hl2 & He2).
    split; [by etrans|]. split; [lia|].
    intros e He. destruct (He2 e He) as [Hin | (idx & Hidx & ->)].
    + destruct (He1 e Hin) as [? | ->]; [by left|].
      right. exists start. split; [lia | done].
    + right. exists idx. split; [lia | done].
Qed.

(** [insert_missing_issue] loses no issue and keeps the issues in their
    order; it adds at most one entry per issue of the input, and every
    entry it adds is a dummy issue with the number of the position at
    which it was put. *)
Theorem insert_missing_issue_keeps_issues now issues :
  issues `sublist_of` insert_missing_issue now issues
  /\ length (insert_missing_issue now issues) <= 2 * length issues
  /\ forall e, e ∈ insert_missing_issue now issues ->
       e ∈ issues \/ exists idx, idx < length issues
                                 /\ e = dummy_issue (now idx) (Z.of_nat idx + 1).
Proof.
  unfold insert_missing_issue.
  destruct (fill_pass_grows now issues 0 (length issues)) as (Hs & Hl & He).
  split; [done|]. split; [lia|].
  intros e Hin. destruct (He e Hin) as [? | (idx & Hidx & ->)]; [by left|].
  right. exists idx. split; [lia | done].
Qed.

(** [insert_missing_issue] leaves the list as it is exactly when the
    issues carry the numbers 1, 2, 3, ... in this order. *)
Theorem insert_missing_issue_unchanged_iff now issues :
  insert_missing_issue now issues = issues
  <-> forall i e, issues !! i = Some e -> id e = (Z.of_nat i + 1)%Z.
Proof.
  split.
  - intros Heq i e Hi. apply (insert_missing_issue_prefix now issues i e).
    + by apply lookup_lt_Some in Hi.
    + by rewrite Heq.
  - intros H. unfold insert_missing_issue. apply fill_steps_fixed.
    intros i e _. apply H.
Qed.

(** One number missing: the issues before the gap carry 1, 2, ..., the
    issues after it go on two above the last of these.  The pass puts
    one dummy issue into the gap, and the result is the whole list. *)
Theorem insert_missing_issue_one_gap now a b :
  b <> [] ->
  (forall i e, a !! i = Some e -> id e = (Z.of_nat i + 1)%Z) ->
  (forall i e, b !! i = Some e -> id e = (Z.of_nat (length a + i) + 2)%Z) ->
  insert_missing_issue now (a ++ b)
  = a ++ dummy_issue (now (length a)) (Z.of_nat (length a) + 1) :: b.
Proof.
  intros Hb Ha Hbs. unfold insert_missing_issue.
  destruct b as [|e0 b]; [done|].
  rewrite length_app. cbn [length].
  replace (length a + S (length b)) with (length a + (1 + length b)) by lia.
  rewrite !seq_app, !fold_left_app. cbn [seq fold_left Nat.add].
  assert (Hpre : fold_left (fill_step now) (seq 0 (length a)) (a ++ e0 :: b)
                 = a ++ e0 :: b).
  { apply fill_steps_fixed. intros i e Hi Hl. apply (Ha i).
    rewrite lookup_app_l in Hl by lia. done. }
  assert (Hstep : fill_step now (a ++ e0 :: b) (length a)
                  = a ++ dummy_issue (now (length a)) (Z.of_nat (length a) + 1)
                         :: e0 :: b).
  { unfold fill_step. rewrite list_lookup_middle by done.
    pose proof (Hbs 0 e0 eq_refl) as H0. rewrite Nat.add_0_r in H0.
    destruct (id e0 =? Z.of_nat (length a) + 1)%Z eqn:Hid.
    { apply Z.eqb_eq in Hid. lia. }
    unfold list_insert_at. by rewrite take_app_length, drop_app_length. }
  rewrite Hpre, Hstep. apply fill_steps_fixed.
  intros i e Hi Hl. rewrite lookup_app_r in Hl by lia.
  destruct (i - length a) as [|j] eqn:Hj; [lia|].
  change ((e0 :: b) !! j = Some e) in Hl.
  rewrite (Hbs j e Hl). lia.
Qed.

Lemma insert_missing_issue_one_gap_witness :
  insert_missing_issue (fun _ => str "now") (map plain_issue [1; 2]%Z ++ map plain_issue [4; 5]%Z)
  = map plain_issue [1; 2]%Z
    ++ dummy_issue (str "now") (Z.of_nat (length (map plain_issue [1; 2]%Z)) + 1)
    :: map plain_issue [4; 5]%Z.
Proof.
  apply (insert_missing_issue_one_gap (fun _ => str "now")
           (map plain_issue [1; 2]%Z) (map plain_issue [4; 5]%Z)).
  - done.
  - intros [|[|i]] e H; simpl in H; try done; by injection H as <-.
  - intros [|[|i]] e H; simpl in H; try done; by injection H as <-.
Defined.

(** ** The memoised lookup *)

Lemma get_bb_username_raw_value api u w w' :
  (get_bb_username_raw api u w).1 = (get_bb_username_raw api u w').1.
Proof.
  unfold get_bb_username_raw. destruct (is_skipped u); [done|].
  unfold bind, http_get. by destruct (api u).
Qed.

Lemma get_bb_username_raw_ok api u w :
  exists v, (get_bb_username_raw api u w).1 = Ok v
            /\ warnings (get_bb_username_raw api u w).2 = warnings w.
Proof.
  unfold get_bb_username_raw. destruct (is_skipped u); [by eexists|].
  unfold bind, http_get. destruct (api u); by eexists.
Qed.

Lemma get_bb_username_sound api u w :
  cache_sound api w ->
  (get_bb_username api u w).1 = (get_bb_username_raw api u w).1
  /\ cache_sound api (get_bb_username api u w).2.
Proof.
  intros Hs. unfold get_bb_username, memoize_wrap. rewrite make_key_one.
  destruct (cache w !! u) as [v|] eqn:Hu.
  - split; [|done]. cbn [fst]. symmetry. by apply Hs.
  - destruct (get_bb_username_raw api u w) as [[res|e] w1] eqn:Hraw.
    2:{ destruct (get_bb_username_raw_ok api u w) as (v & Hv & _).
        rewrite Hraw in Hv. done. }
    split; [done|]. cbn [snd]. intros x v. cbn [cache].
    assert (Hc1 : cache w1 = cache w).
    { revert Hraw. unfold get_bb_username_raw. destruct (is_skipped u).
      - by intros [= _ <-].
      - unfold bind, http_get. destruct (api u); by intros [= _ <-]. }
    rewrite Hc1, lookup_insert. case_decide as Hx.
    + subst x. intros [= <-].
      rewrite (get_bb_username_raw_value api u _ w), Hraw. done.
    + intros Hl. rewrite (get_bb_username_raw_value api x _ w). by apply Hs.
Qed.

(** Memoisation is transparent: with a cache whose answers are those of
    the undecorated function, [get_bb_username] returns what the
    undecorated function returns, and the cache stays such a cache. *)
Theorem get_bb_username_transparent api user w :
  cache_sound api w ->
  (get_bb_username api user w).1 = (get_bb_username_raw api user w).1
  /\ cache_sound api (get_bb_username api user w).2.
Proof. apply get_bb_username_sound. Qed.

Lemma get_bb_username_transparent_witness :
  (get_bb_username demo_api (str "alice") world0).1
  = (get_bb_username_raw demo_api (str "alice") world0).1
  /\ cache_sound demo_api (get_bb_username demo_api (str "alice") world0).2.
Proof.
  apply (get_bb_username_transparent demo_api (str "alice") world0).
  intros u v H. simpl in H. by rewrite lookup_empty in H.
Defined.

(** A second call with the same name returns the remembered answer and
    changes nothing: no request, no log entry, the same cache. *)
Theorem memoize_wrap_second_call func arg v w w1 :
  memoize_wrap func arg w = (Ok v, w1) ->
  memoize_wrap func arg w1 = (Ok v, w1).
Proof.
  unfold memoize_wrap. destruct (cache w !! make_key [arg]) as [v0|] eqn:Hc.
  - intros [= <- <-]. by rewrite Hc.
  - destruct (func arg w) as [[res|e] w'] eqn:Hf; [|done].
    intros [= <- <-]. cbn [cache]. by rewrite lookup_insert_eq.
Qed.

Lemma memoize_wrap_second_call_witness :
  memoize_wrap (get_bb_username_raw demo_api) (str "alice")
    {| cache := {[ str "alice" := PyStr (str "Alice") ]};
       requests := [str "alice"]; warnings := [] |}
  = (Ok (PyStr (str "Alice")),
     {| cache := {[ str "alice" := PyStr (str "Alice") ]};
        requests := [str "alice"]; warnings := [] |}).
Proof.
  apply (memoize_wrap_second_call (get_bb_username_raw demo_api) (str "alice")
           (PyStr (str "Alice")) world0).
  vm_compute. reflexivity.
Defined.

Lemma get_bb_username_raw_unknown api u w :
  is_skipped u = false -> api u = None ->
  (get_bb_username_raw api u w).1 = Ok PyNone.
Proof.
  intros Hs Ha. unfold get_bb_username_raw. rewrite Hs.
  unfold bind, http_get. by rewrite Ha.
Qed.

Lemma user_link_loop_unknown api (caps : list (pystr * pystr)) content w :
  cache_sound api w ->
  (forall u, u ∈ map snd caps -> is_skipped u = false /\ api u = None) ->
  exists w',
    for_each caps (fun '(prefix, user) content =>
      name <- get_bb_username api user ;;
      match name with
      | PyNone => ret content
      | _ => ret (re_sub m_user (user_link name user) content)
      end) content w = (Ok content, w')
    /\ cache_sound api w'.
Proof.
  revert w. induction caps as [|[prefix user] caps IH]; intros w Hs Hu.
  - exists w. by split.
  - cbn [for_each].
    destruct (get_bb_username_sound api user w Hs) as [Hv Hs1].
    destruct (Hu user) as [Hsk Hapi]; [by left|].
    rewrite (get_bb_username_raw_unknown api user w Hsk Hapi) in Hv.
    destruct (get_bb_username api user w) as [r w1] eqn:Hg.
    cbn [fst snd] in Hv, Hs1. subst r.
    destruct (IH w1 Hs1) as (w' & Hloop & Hs').
    { intros u Hin. apply Hu. by right. }
    exists w'. split; [|done].
    rewrite (bind_ok _ _ w content w1); [done|].
    by rewrite (bind_ok _ _ w PyNone w1 Hg).
Qed.

(** A text whose mentions are all of names that are not skipped and that
    the API does not know is returned as it is (the cache holding
    answers of the lookup only). *)
Theorem convert_bb_user_link_unknown_users api self content w :
  cache_sound api w ->
  (forall u, u ∈ mentions content -> is_skipped u = false /\ api u = None) ->
  (convert_bb_user_link api self content w).1 = Ok content.
Proof.
  intros Hs Hu. unfold convert_bb_user_link.
  destruct (user_link_loop_unknown api (findall m_user content) content w Hs Hu)
    as (w' & -> & _).
  done.
Qed.

Lemma convert_bb_user_link_unknown_users_witness :
  (convert_bb_user_link demo_api demo_index (str "ask @bob or @carol") world0).1
  = Ok (str "ask @bob or @carol").
Proof.
  apply (convert_bb_user_link_unknown_users demo_api demo_index
           (str "ask @bob or @carol") world0).
  - intros u v H. simpl in H. by rewrite lookup_empty in H.
  - intros u Hin. vm_compute in Hin.
    apply elem_of_cons in Hin as [-> | Hin]; [by split|].
    apply list_elem_of_singleton in Hin as ->. by split.
Defined.

(** ** The warnings of [__init__] *)

Lemma key_to_hg_None parse ls b k :
  hg_loop_inv parse ls b ->
  b_key_to_hg b !! k = None <-> k ∉ map (hg_key parse) ls.
Proof.
  intros [_ Hk]. rewrite Hk. split.
  - destruct (filter _ ls) as [|x xs] eqn:Hf; [|done]. intros _ Hin.
    apply list_elem_of_fmap in Hin as (l & Hl & Hin).
    assert (Hx : l ∈ filter (fun l => hg_key parse l = k) ls)
      by (by apply list_elem_of_filter).
    rewrite Hf in Hx. by apply elem_of_nil in Hx.
  - intros Hnin. destruct (filter _ ls) as [|x xs] eqn:Hf; [done|].
    assert (Hx : x ∈ filter (fun l => hg_key parse l = k) ls)
      by (rewrite Hf; apply list_elem_of_here).
    apply list_elem_of_filter in Hx as [Hkx Hx]. destruct Hnin.
    apply list_elem_of_fmap. eauto.
Qed.

Lemma key_to_hg_group parse ls b k nodes :
  hg_loop_inv parse ls b -> b_key_to_hg b !! k = Some nodes -> nodes <> [].
Proof.
  intros [_ Hk]. rewrite Hk. destruct (filter _ ls) as [|x xs]; [done|].
  by intros [= <-].
Qed.

(** The log after the first loop: warnings about duplicates only, and
    none exactly when the keys are pairwise distinct. *)
Lemma hg_log_snoc parse ls b l :
  hg_loop_inv parse ls b ->
  (forall ev, ev ∈ b_log b -> exists d ns, ev = WarnDuplicates d ns /\ 1 < length ns) ->
  (b_log b = [] <-> NoDup (map (hg_key parse) ls)) ->
  (forall ev, ev ∈ b_log (add_hg parse b l) ->
     exists d ns, ev = WarnDuplicates d ns /\ 1 < length ns)
  /\ (b_log (add_hg parse b l) = [] <-> NoDup (map (hg_key parse) (ls ++ [l]))).
Proof.
  intros Hinv Hall Hnil. cbn [add_hg b_log].
  rewrite map_app. cbn [map].
  assert (Hnd : NoDup (map (hg_key parse) ls ++ [hg_key parse l])
                <-> NoDup (map (hg_key parse) ls)
                    /\ hg_key parse l ∉ map (hg_key parse) ls).
  { rewrite NoDup_app. split.
    - intros (H1 & H2 & _). split; [done|]. intros Hin.
      apply (H2 _ Hin). apply list_elem_of_here.
    - intros [H1 H2]. split; [done|]. split; [|apply NoDup_singleton].
      intros x Hx Hxl. apply list_elem_of_singleton in Hxl. congruence. }
  rewrite Hnd, <- (key_to_hg_None parse ls b _ Hinv).
  destruct (b_key_to_hg b !! hg_key parse l) as [nodes|] eqn:Hg.
  - pose proof (key_to_hg_group parse ls b _ nodes Hinv Hg) as Hne.
    assert (Hlen : 1 < length (nodes ++ [strip (hg_node l)])).
    { rewrite length_app. destruct nodes; [done|]. simpl. lia. }
    cbn [from_option Datatypes.id]. rewrite (proj2 (Nat.ltb_lt _ _) Hlen). split.
    + intros ev Hev. apply elem_of_app in Hev as [Hev | Hev]; [by apply Hall|].
      apply list_elem_of_singleton in Hev as ->. eauto.
    + split; [by intros [_ ?]%app_eq_nil | by intros [_ ?]].
  - cbn [from_option Datatypes.id app length]. change (1 <? 1) with false. cbv iota.
    split; [done|]. rewrite Hnil. tauto.
Qed.

Lemma hg_log_fold parse ls0 b0 ls :
  hg_loop_inv parse ls0 b0 ->
  (forall ev, ev ∈ b_log b0 -> exists d ns, ev = WarnDuplicates d ns /\ 1 < length ns) ->
  (b_log b0 = [] <-> NoDup (map (hg_key parse) ls0)) ->
  let b := fold_left (add_hg parse) ls b0 in
  (forall ev, ev ∈ b_log b -> exists d ns, ev = WarnDuplicates d ns /\ 1 < length ns)
  /\ (b_log b = [] <-> NoDup (map (hg_key parse) (ls0 ++ ls))).
Proof.
  revert ls0 b0. induction ls as [|l ls IH]; intros ls0 b0 Hinv Hall Hnil.
  - cbn [fold_left]. by rewrite app_nil_r.
  - cbn [fold_left]. rewrite cons_middle, app_assoc.
    destruct (hg_log_snoc parse ls0 b0 l Hinv Hall Hnil) as [Hall' Hnil'].
    apply IH; [by apply hg_loop_inv_snoc | done | done].
Qed.

(** The second loop adds one warning per record of the Git log whose key
    the first loop has not seen. *)
Lemma git_log_fold parse (keys : list match_key) gs b :
  (forall k, b_key_to_hg b !! k = None <-> k ∉ keys) ->
  b_log (fold_left (add_git parse) gs b)
  = b_log b ++ ((fun g => WarnNotInHgLog (parse (git_date g))) <$>
                filter (fun g => git_key parse g ∉ keys) gs).
Proof.
  revert b. induction gs as [|g gs IH]; intros b Hk.
  - cbn [fold_left]. by rewrite filter_nil, fmap_nil, app_nil_r.
  - cbn [fold_left]. rewrite filter_cons.
    unfold add_git at 2.
    destruct (b_key_to_hg b !! git_key parse g) as [nodes|] eqn:Hg.
    + rewrite decide_False.
      2:{ intros Hn. apply Hk in Hn. congruence. }
      rewrite IH; [done|]. apply Hk.
    + rewrite decide_True by (by apply Hk).
      rewrite IH; [|apply Hk]. cbn [b_log]. by rewrite fmap_cons, <- app_assoc.
Qed.

(** What [__init__] logs: first the warnings of the first loop, which
    are about duplicates only, each with two identifiers or more, and
    there is none exactly when the keys (date, stripped description) of
    the Mercurial log are pairwise distinct; then one warning per record
    of the Git log whose key is not a key of the Mercurial log, in the
    order of the Git log. *)
Theorem BbToGh_init_warnings parse hg_logs git_logs bb gh :
  exists dups,
    (BbToGh_init parse hg_logs git_logs bb gh).2
    = dups ++ ((fun g => WarnNotInHgLog (parse (git_date g))) <$>
               filter (fun g => git_key parse g ∉ map (hg_key parse) hg_logs)
                      git_logs)
    /\ (forall ev, ev ∈ dups ->
          exists d ns, ev = WarnDuplicates d ns /\ 1 < length ns)
    /\ (dups = [] <-> NoDup (map (hg_key parse) hg_logs)).
Proof.
  exists (b_log (fold_left (add_hg parse) hg_logs builder0)).
  split.
  - cbn [BbToGh_init snd]. unfold build. apply git_log_fold.
    intros k. apply key_to_hg_None, hg_loop_result.
  - apply (hg_log_fold parse [] builder0 hg_logs).
    + apply hg_loop_inv_nil.
    + by intros ev ?%elem_of_nil.
    + split; [intros _; constructor | done].
Qed.

(** ** A pull-request marker in prose *)

Lemma findall_from_before_at {A} (m : option ascii -> pystr -> option (A * nat))
    z b1 b2 pre rest prev :
  (forall p t, t !! length b1 <> Some z -> m p t = None) ->
  has_char z (pre ++ b1) = false ->
  findall_from m prev 0 (pre ++ (b1 ++ z :: b2) ++ rest)
  = findall_from m (prev_of prev pre) 0 ((b1 ++ z :: b2) ++ rest).
Proof.
  intros Hm. revert prev. induction pre as [|c pre IH]; intros prev Hz; [done|].
  assert (Hnone : m prev ((c :: pre) ++ (b1 ++ z :: b2) ++ rest) = None).
  { apply Hm. rewrite <- (app_assoc b1). by apply no_char_before. }
  change ((c :: pre) ++ (b1 ++ z :: b2) ++ rest)
    with (c :: (pre ++ (b1 ++ z :: b2) ++ rest)) in *.
  cbn [findall_from]. rewrite Hnone, prev_of_cons. apply IH.
  change ((c :: pre) ++ b1) with (c :: (pre ++ b1)) in Hz.
  rewrite has_char_cons in Hz. by apply orb_false_iff in Hz as [_ Hz].
Qed.

Lemma m_pr_marker_hash p t :
  t !! length (str "pull request ") <> Some "#"%char -> m_pr_marker p t = None.
Proof.
  intros Ht. unfold m_pr_marker. destruct (word_before p); [done|].
  destruct (match_lit pr_phrase t) as [s1|] eqn:Hm; [|done].
  apply match_lit_Some in Hm as ->. by destruct Ht.
Qed.

Lemma word_before_last prev pre :
  word_before prev = false ->
  match last pre with Some c => is_word c = false | None => True end ->
  word_before (prev_of prev pre) = false.
Proof. intros Hp Hl. unfold prev_of. by destruct (last pre). Qed.

(** The phrase [pull request #N] in a text with no other [#], with no
    word character right before it or right after it, becomes the link
    to the pull request on Bitbucket; the prose around it stays. *)
Theorem convert_bb_pr_marker_in_prose self pre digits post :
  has_char "#" pre = false -> has_char "#" post = false ->
  match last pre with Some c => is_word c = false | None => True end ->
  word_at post = false ->
  digits <> [] -> forallb is_digit digits = true ->
  convert_bb_pr_marker self (pre ++ (str "pull request #" ++ digits) ++ post)
  = pre ++ (bb_url self ++ str "/pull-request/" ++ digits) ++ post.
Proof.
  intros Hpre Hpost Hlast Hword Hne Hdig. unfold convert_bb_pr_marker.
  assert (Hfind : findall m_pr_marker (pre ++ (str "pull request #" ++ digits) ++ post)
                  = [(pr_phrase ++ digits, digits)]).
  { unfold findall.
    change (str "pull request #" ++ digits)
      with ((str "pull request " ++ "#"%char :: []) ++ digits).
    rewrite <- (app_assoc _ digits post).
    rewrite (findall_from_before_at m_pr_marker "#" (str "pull request ") []
               pre (digits ++ post) None m_pr_marker_hash)
      by (by rewrite has_char_app, Hpre).
    change (str "pull request " ++ ["#"%char]) with pr_phrase.
    rewrite app_assoc.
    apply findall_single_from.
    - by destruct digits.
    - rewrite length_app, <- app_assoc. apply m_pr_marker_pr_here.
      split; [by apply word_before_last|]. split; [done|]. split; [done|].
      by exists post.
    - intros p. by apply (findall_from_none m_pr_marker "#" m_pr_marker_none). }
  rewrite Hfind. cbn [fold_left].
  apply (py_replace_single "#" (str "pull request ") digits pre post).
  - by rewrite has_char_app, Hpre.
  - done.
Qed.

Lemma convert_bb_pr_marker_in_prose_witness :
  convert_bb_pr_marker demo_index
    (str "see " ++ (str "pull request #" ++ str "12") ++ str " for it")
  = str "see " ++ (bb_url demo_index ++ str "/pull-request/" ++ str "12")
    ++ str " for it".
Proof.
  apply (convert_bb_pr_marker_in_prose demo_index (str "see ") (str "12")
           (str " for it")).
  - reflexivity.
  - reflexivity.
  - reflexivity.
  - reflexivity.
  - done.
  - reflexivity.
Defined.

(** ** An old changeset URL *)

(** Where a string with [z] can occur in a text with one [z]. *)
Lemma occurs_one_char z b1 b2 x y :
  has_char z b1 = false -> has_char z x = false -> has_char z y = false ->
  occurs (b1 ++ z :: b2) (x ++ z :: y) ->
  exists a b, x = a ++ b1 /\ y = b2 ++ b.
Proof.
  intros Hb1 Hx Hy (a & b & Heq).
  pose proof (split_first_at z x y Hx) as Hs. rewrite Heq in Hs.
  destruct (has_char z a) eqn:Ha.
  - destruct (has_char_split z a Ha) as (a1 & a2 & -> & Ha1).
    rewrite <- app_assoc in Hs. cbn [app] in Hs.
    rewrite (split_first_at z a1 _ Ha1) in Hs. injection Hs as _ <-.
    rewrite !has_char_app, has_char_cons, chr_eqb_refl in Hy.
    by rewrite !orb_true_r in Hy.
  - rewrite <- (app_assoc b1), app_assoc in Hs. cbn [app] in Hs.
    rewrite split_first_at in Hs by (by rewrite has_char_app, Ha, Hb1).
    injection Hs as <- <-. by exists a, b.
Qed.

Lemma py_replace_https pre rest new :
  has_char ":" pre = false -> has_char ":" rest = false ->
  py_replace (pre ++ str "https:" ++ rest) (str "http://bitbucket.org/") new
  = pre ++ str "https:" ++ rest.
Proof.
  intros Hpre Hrest. apply py_replace_no_occurrence; [done|]. intros Ho.
  change (pre ++ str "https:" ++ rest)
    with (pre ++ str "https" ++ ":"%char :: rest) in Ho.
  rewrite app_assoc in Ho.
  apply (occurs_one_char ":" (str "http") (str "//bitbucket.org/")) in Ho
    as (a & b & Ha & _); [|done|by rewrite has_char_app, Hpre|done].
  change (pre ++ str "https") with (pre ++ str "http" ++ ["s"%char]) in Ha.
  change (a ++ str "http") with (a ++ str "htt" ++ ["p"%char]) in Ha.
  rewrite !app_assoc in Ha. by apply app_inj_tail in Ha as [_ ?].
Qed.

Lemma py_replace_no_www pre rest new :
  has_char ":" pre = false -> has_char ":" rest = false ->
  py_replace (pre ++ str "http://bitbucket.org/" ++ rest)
    (str "http://www.bitbucket.org/") new
  = pre ++ str "http://bitbucket.org/" ++ rest.
Proof.
  intros Hpre Hrest. apply py_replace_no_occurrence; [done|]. intros Ho.
  change (pre ++ str "http://bitbucket.org/" ++ rest)
    with (pre ++ str "http" ++ ":"%char :: (str "//bitbucket.org/" ++ rest)) in Ho.
  rewrite app_assoc in Ho.
  apply (occurs_one_char ":" (str "http") (str "//www.bitbucket.org/")) in Ho
    as (a & b & _ & Hb); [done|done|by rewrite has_char_app, Hpre|].
  by rewrite has_char_app, Hrest.
Qed.

Lemma normalize_bb_url_old_changeset self www repo pre post :
  bb_url self = str "https://bitbucket.org/" ++ repo ->
  www = str "www." \/ www = [] ->
  has_char ":" pre = false -> has_char ":" repo = false ->
  has_char ":" post = false ->
  normalize_bb_url self
    (pre ++ (str "http://" ++ www ++ str "bitbucket.org/" ++ repo
             ++ str "/changeset/") ++ post)
  = pre ++ (bb_url self ++ str "/commits/") ++ post.
Proof.
  intros Hbb Hwww Hpre Hrepo Hpost. unfold normalize_bb_url.
  set (rest := repo ++ str "/changeset/" ++ post).
  assert (Hrest : has_char ":" rest = false).
  { unfold rest. by rewrite !has_char_app, Hrepo, Hpost. }
  assert (Hone : py_replace
                   (py_replace
                      (pre ++ (str "http://" ++ www ++ str "bitbucket.org/" ++ repo
                               ++ str "/changeset/") ++ post)
                      (str "http://www.bitbucket.org/") (str "https://bitbucket.org/"))
                   (str "http://bitbucket.org/") (str "https://bitbucket.org/")
                 = pre ++ str "https://bitbucket.org/" ++ rest).
  { destruct Hwww as [-> | ->].
    - replace (pre ++ (str "http://" ++ str "www." ++ str "bitbucket.org/" ++ repo
                       ++ str "/changeset/") ++ post)
        with (pre ++ (str "http" ++ ":"%char :: str "//www.bitbucket.org/") ++ rest)
        by (unfold rest; simpl; rewrite <- ?app_assoc; simpl; by rewrite <- ?app_assoc).
      rewrite (py_replace_single ":" (str "http") (str "//www.bitbucket.org/")
                 pre rest) by (by rewrite ?has_char_app, ?Hpre).
      apply (py_replace_https pre (str "//bitbucket.org/" ++ rest)); [done|].
      by rewrite has_char_app, Hrest.
    - replace (pre ++ (str "http://" ++ [] ++ str "bitbucket.org/" ++ repo
                       ++ str "/changeset/") ++ post)
        with (pre ++ str "http://bitbucket.org/" ++ rest)
        by (unfold rest; simpl; rewrite <- ?app_assoc; simpl; by rewrite <- ?app_assoc).
      rewrite (py_replace_no_www pre rest) by done.
      apply (py_replace_single ":" (str "http") (str "//bitbucket.org/") pre rest);
        [by rewrite has_char_app, Hpre | done]. }
  rewrite Hone, Hbb.
  replace (pre ++ str "https://bitbucket.org/" ++ rest)
    with (pre ++ (str "https" ++ ":"%char
                  :: (str "//bitbucket.org/" ++ repo ++ str "/changeset/")) ++ post)
    by (unfold rest; simpl; rewrite <- ?app_assoc; simpl; by rewrite <- ?app_assoc).
  replace ((str "https://bitbucket.org/" ++ repo) ++ str "/changeset/")
    with (str "https" ++ ":"%char
          :: (str "//bitbucket.org/" ++ repo ++ str "/changeset/"))
    by (simpl; rewrite <- ?app_assoc; simpl; by rewrite <- ?app_assoc).
  apply (py_replace_single ":" (str "https")); [by rewrite has_char_app, Hpre | done].
Qed.

(** An old changeset URL of the repository (scheme [http], with or
    without [www.]) in a text with no other colon becomes the [commits]
    URL of the repository; the prose around it stays. *)
Theorem normalize_bb_url_old_changeset_link self www repo pre post :
  bb_url self = str "https://bitbucket.org/" ++ repo ->
  www = str "www." \/ www = [] ->
  has_char ":" pre = false -> has_char ":" repo = false ->
  has_char ":" post = false ->
  normalize_bb_url self
    (pre ++ (str "http://" ++ www ++ str "bitbucket.org/" ++ repo
             ++ str "/changeset/") ++ post)
  = pre ++ (bb_url self ++ str "/commits/") ++ post.
Proof. apply normalize_bb_url_old_changeset. Qed.

Lemma normalize_bb_url_old_changeset_link_witness :
  normalize_bb_url demo_index
    (str "see " ++ (str "http://" ++ str "www." ++ str "bitbucket.org/" ++ str "u/r"
                    ++ str "/changeset/") ++ str "0f18c81b53fc")
  = str "see " ++ (bb_url demo_index ++ str "/commits/") ++ str "0f18c81b53fc".
Proof.
  apply (normalize_bb_url_old_changeset_link demo_index (str "www.") (str "u/r")
           (str "see ") (str "0f18c81b53fc")).
  - reflexivity.
  - by left.
  - reflexivity.
  - reflexivity.
  - reflexivity.
Defined.

(** ** The loop over the issues *)

Lemma get_and_convert_plain api n2h d k w :
  plain_at d k ->
  exists s, d !! k = Some (JStr s)
    /\ (body <- get_str d k ;; convert_all api n2h body) w = (Ok s, w).
Proof.
  intros (s & Hs & Hp). exists s. split; [done|].
  unfold bind, get_str. rewrite Hs. unfold ret.
  unfold plain in Hp. apply negb_true_iff in Hp.
  repeat (apply orb_false_iff in Hp as [Hp ?]).
  by apply convert_all_plain.
Qed.

Lemma convert_comments_plain api n2h cs w :
  Forall (fun c => plain_at c (str "body")) cs ->
  convert_comments api n2h cs w = (Ok tt, cs, w).
Proof.
  induction 1 as [|c cs Hc _ IH]; [done|]. cbn [convert_comments].
  destruct (get_and_convert_plain api n2h c (str "body") w Hc) as (s & Hs & ->).
  rewrite IH. by rewrite (insert_id c _ _ Hs).
Qed.

Lemma convert_issue_content_plain api n2h e w :
  plain_entry e -> convert_issue_content api n2h e w = (Ok tt, e, w).
Proof.
  intros [Hc Hcs]. unfold convert_issue_content.
  destruct (get_and_convert_plain api n2h (issue e) (str "content") w Hc)
    as (s & Hs & ->).
  rewrite (convert_comments_plain api n2h (comments e) w Hcs).
  rewrite (insert_id (issue e) _ _ Hs). by destruct e.
Qed.

(** With a base URL that stands for itself in a pattern, issues whose
    texts are plain prose pass the loop over the issues as
    they are: nothing is rewritten, nothing raises, no request is sent
    and nothing is logged. *)
Theorem convert_issues_plain api n2h es w :
  plain_pattern (bb_url n2h) = true ->
  Forall plain_entry es -> convert_issues api n2h es w = (Ok tt, es, w).
Proof.
  intros _. induction 1 as [|e es He _ IH]; [done|]. cbn [convert_issues].
  by rewrite (convert_issue_content_plain api n2h e w He), IH.
Qed.

Lemma convert_issues_plain_witness :
  convert_issues demo_api demo_index [plain_issue 1; plain_issue 2] world0
  = (Ok tt, [plain_issue 1; plain_issue 2], world0).
Proof.
  apply (convert_issues_plain demo_api demo_index [plain_issue 1; plain_issue 2]
           world0).
  - reflexivity.
  - repeat constructor; by exists (str "text").
Defined.

(** The loop over the issues keeps the number of the issues, their order
    and their identifiers, whatever the outcome (also when a rule
    raises in the middle of the list). *)
Theorem convert_issues_ids api n2h es w :
  ids (convert_issues api n2h es w).1.2 = ids es.
Proof.
  revert w. induction es as [|e es IH]; intros w; [done|].
  cbn [convert_issues].
  assert (He : id (convert_issue_content api n2h e w).1.2 = id e).
  { unfold convert_issue_content. destruct (bind _ _ w) as [[new|ex] w1]; [|done].
    by destruct (convert_comments api n2h (comments e) w1) as [[r cs] w2]. }
  destruct (convert_issue_content api n2h e w) as [[[u|ex] e'] w1];
    cbn [fst snd] in He.
  - specialize (IH w1).
    destruct (convert_issues api n2h es w1) as [[r es''] w2].
    cbn [fst snd ids map] in *. unfold ids in IH. by rewrite He, IH.
  - cbn [fst snd ids map]. by rewrite He.
Qed.

(** ** From an old changeset URL to the Git hash *)

Lemma plain_chars s :
  plain s = true ->
  has_char "<" s = false /\ has_char "/" s = false
  /\ has_char "@" s = false /\ has_char "#" s = false.
Proof.
  unfold plain. intros Hp. apply negb_true_iff in Hp.
  repeat (apply orb_false_iff in Hp as [Hp ?]). done.
Qed.

Lemma hex_no_char z node :
  is_hex z = false -> forallb is_hex node = true -> has_char z node = false.
Proof.
  intros Hz Hn. destruct (has_char z node) eqn:Hc; [|done].
  apply has_char_elem_of in Hc. rewrite forallb_forall in Hn.
  apply list_elem_of_In, Hn in Hc. congruence.
Qed.

(** The rules after the changeset links find nothing in a text without
    [/], [@] and [#]. *)
Lemma convert_tail_plain api self content w :
  has_char "/" content = false -> has_char "@" content = false ->
  has_char "#" content = false ->
  (let content := convert_bb_issue_link self content in
   content <- convert_bb_src_link self content ;;
   content <- convert_bb_user_link api self content ;;
   let content := convert_bb_pr_marker self content in
   ret content) w = (Ok content, w).
Proof.
  intros Hslash Hat Hhash. cbv zeta.
  unfold convert_bb_issue_link, findall.
  rewrite (findall_from_none _ "/" (m_issue_link_none (bb_url self))) by done.
  cbn [fold_left].
  unfold convert_bb_src_link, findall.
  rewrite (findall_from_none _ "/" (m_src_link_none (bb_url self))) by done.
  cbn [for_each]. rewrite bind_ret_l.
  unfold convert_bb_user_link, findall.
  rewrite (findall_from_none _ "@" m_user_none) by done.
  cbn [for_each]. rewrite bind_ret_l.
  unfold convert_bb_pr_marker, findall.
  rewrite (findall_from_none _ "#" m_pr_marker_none) by done.
  done.
Qed.

(** The rules together, with a base URL that stands for itself in a
    pattern: an old changeset URL of the repository, in
    prose that has none of the characters the rules look for, is first
    normalised and then replaced by the Git hash of the commit, between
    two spaces; no other rule touches the text. *)
Theorem convert_all_old_changeset_url api self www repo pre node post r w w' :
  plain_pattern (bb_url self) = true ->
  bb_url self = str "https://bitbucket.org/" ++ repo ->
  www = str "www." \/ www = [] ->
  has_char ":" repo = false -> has_char "<" repo = false ->
  plain pre = true -> has_char ":" pre = false ->
  plain post = true -> has_char ":" post = false ->
  match post with c :: _ => is_hex c = false | [] => True end ->
  node <> [] -> forallb is_hex node = true ->
  hgnode_to_githash self node w = (Ok r, w') ->
  plain (fmt_opt r) = true ->
  convert_all api self
    (pre ++ (str "http://" ++ www ++ str "bitbucket.org/" ++ repo
             ++ str "/changeset/" ++ node) ++ post) w
  = (Ok (pre ++ (str " " ++ fmt_opt r ++ str " ") ++ post), w').
Proof.
  intros _ Hbb Hwww Hrepo Hrepo' Hpre Hpre' Hpost Hpost' Hhead Hne Hhex Hres Hr.
  destruct (plain_chars pre Hpre) as (Hp1 & Hp2 & Hp3 & Hp4).
  destruct (plain_chars post Hpost) as (Hq1 & Hq2 & Hq3 & Hq4).
  destruct (plain_chars _ Hr) as (_ & Hr2 & Hr3 & Hr4).
  unfold convert_all.
  assert (Hnorm : normalize_bb_url self
                    (pre ++ (str "http://" ++ www ++ str "bitbucket.org/" ++ repo
                             ++ str "/changeset/" ++ node) ++ post)
                  = pre ++ ((bb_url self ++ str "/commits/") ++ node ++ []) ++ post).
  { replace (pre ++ (str "http://" ++ www ++ str "bitbucket.org/" ++ repo
                     ++ str "/changeset/" ++ node) ++ post)
      with (pre ++ (str "http://" ++ www ++ str "bitbucket.org/" ++ repo
                    ++ str "/changeset/") ++ (node ++ post))
      by (by rewrite <- !app_assoc).
    rewrite (normalize_bb_url_old_changeset self www repo pre (node ++ post)
               Hbb Hwww Hpre' Hrepo).
    - by rewrite app_nil_r, <- !app_assoc.
    - by rewrite has_char_app, (hex_no_char ":" node eq_refl Hhex), Hpost'. }
  rewrite Hnorm.
  assert (Hlt : has_char "<" (pre ++ ((bb_url self ++ str "/commits/") ++ node ++ [])
                              ++ post) = false).
  { rewrite Hbb, !has_char_app, Hp1, Hrepo', Hq1.
    by rewrite (hex_no_char "<" node eq_refl Hhex). }
  unfold convert_cset_marker, findall.
  rewrite (findall_from_none m_cset_marker "<" m_cset_marker_none) by done.
  cbn [for_each]. rewrite bind_ret_l.
  rewrite (bind_ok _ _ w (pre ++ (str " " ++ fmt_opt r ++ str " ") ++ post) w').
  - apply convert_tail_plain.
    + by rewrite !has_char_app, Hp2, Hr2, Hq2.
    + by rewrite !has_char_app, Hp3, Hr3, Hq3.
    + by rewrite !has_char_app, Hp4, Hr4, Hq4.
  - apply convert_bb_cset_link_single; try done. by right.
Qed.

Lemma convert_all_old_changeset_url_witness :
  convert_all demo_api demo_index
    (str "broken since " ++ (str "http://" ++ str "www." ++ str "bitbucket.org/"
       ++ str "u/r" ++ str "/changeset/" ++ str "0f18c81b53fc") ++ str ", sorry") world0
  = (Ok (str "broken since " ++ (str " " ++ fmt_opt (Some (str "20fa9c09b23e"))
                                 ++ str " ") ++ str ", sorry"), world0).
Proof.
  apply (convert_all_old_changeset_url demo_api demo_index (str "www.") (str "u/r")
           (str "broken since ") (str "0f18c81b53fc") (str ", sorry")
           (Some (str "20fa9c09b23e")) world0 world0).
  - reflexivity.
  - reflexivity.
  - by left.
  - reflexivity.
  - reflexivity.
  - reflexivity.
  - reflexivity.
  - reflexivity.
  - reflexivity.
  - reflexivity.
  - done.
  - reflexivity.
  - vm_compute. reflexivity.
  - reflexivity.
Defined.

(** ** A mention of a known user *)

Lemma sub_from_skip {A} (m : option ascii -> pystr -> option (A * nat)) repl a t prev :
  sub_from m repl prev (length a) (a ++ t) = sub_from m repl (prev_of prev a) 0 t.
Proof.
  revert prev. induction a as [|c a IH]; intros prev; [by destruct t|].
  cbn [length app sub_from]. by rewrite IH, prev_of_cons.
Qed.

Lemma sub_from_none {A} (m : option ascii -> pystr -> option (A * nat)) repl z :
  (forall prev s, has_char z s = false -> m prev s = None) ->
  forall s prev, has_char z s = false -> sub_from m repl prev 0 s = s.
Proof.
  intros Hm s. induction s as [|c s IH]; intros prev Hz; [done|].
  cbn [sub_from]. rewrite Hm by done.
  rewrite has_char_cons in Hz. apply orb_false_iff in Hz as [_ Hs].
  by rewrite IH.
Qed.

(** The mention pattern needs [@] as the first or the second character
    of its match. *)
Lemma m_user_far prev x y t :
  chr_eqb x "@" = false -> chr_eqb y "@" = false -> m_user prev (x :: y :: t) = None.
Proof.
  intros Hx Hy. unfold m_user.
  assert (H1 : m_user_tail (x :: y :: t) = None).
  { unfold m_user_tail. by rewrite Hx. }
  assert (H2 : m_user_tail (y :: t) = None).
  { unfold m_user_tail. destruct t; [done|]. by rewrite Hy. }
  rewrite H1, H2. by destruct prev, (is_alnum x).
Qed.

Lemma m_user_last prev x : m_user prev [x] = None.
Proof. unfold m_user. cbn [m_user_tail]. by destruct prev, (is_alnum x). Qed.

Lemma user_scan_before pre c rest prev :
  has_char "@" pre = false -> chr_eqb c "@" = false ->
  forall repl,
  findall_from m_user prev 0 (pre ++ c :: rest)
  = findall_from m_user (prev_of prev pre) 0 (c :: rest)
  /\ sub_from m_user repl prev 0 (pre ++ c :: rest)
     = pre ++ sub_from m_user repl (prev_of prev pre) 0 (c :: rest).
Proof.
  intros Hpre Hc repl. revert prev.
  induction pre as [|x pre IH]; intros prev; [done|].
  rewrite has_char_cons in Hpre. apply orb_false_iff in Hpre as [Hx Hpre].
  assert (Hx' : chr_eqb x "@" = false).
  { unfold chr_eqb in *. by rewrite Ascii.eqb_sym. }
  assert (Hnone : m_user prev (x :: pre ++ c :: rest) = None).
  { destruct pre as [|y pre]; [by apply m_user_far|].
    rewrite has_char_cons in Hpre. apply orb_false_iff in Hpre as [Hy _].
    apply m_user_far; [done|]. unfold chr_eqb in *. by rewrite Ascii.eqb_sym. }
  destruct (IH Hpre (Some x)) as [IH1 IH2].
  change ((x :: pre) ++ c :: rest) with (x :: (pre ++ c :: rest)).
  cbn [findall_from sub_from]. rewrite Hnone, prev_of_cons, IH1, IH2. done.
Qed.

Lemma m_user_tail_at l body e post :
  is_alpha l = true -> forallb is_user_char body = true -> is_word e = true ->
  match post with c :: _ => is_user_char c = false | [] => True end ->
  m_user_tail ("@"%char :: (l :: body ++ [e]) ++ post)
  = Some (l :: body ++ [e], length ("@"%char :: l :: body ++ [e])).
Proof.
  intros Hl Hbody He Hpost. cbn [app m_user_tail].
  rewrite chr_eqb_refl, Hl. cbn [andb].
  assert (Hall : forallb is_user_char (body ++ [e]) = true).
  { rewrite forallb_app, Hbody. cbn [forallb]. unfold is_user_char. by rewrite He. }
  rewrite (span_exact is_user_char (body ++ [e]) post Hall Hpost). cbn [fst].
  assert (Hstrip : rstrip_by (chr_eqb "-") (body ++ [e]) = body ++ [e]).
  { unfold rstrip_by. rewrite rev_app_distr. cbn [rev app lstrip_by].
    assert (Hd : chr_eqb "-" e = false).
    { destruct (chr_eqb "-" e) eqn:Hd; [|done].
      apply chr_eqb_eq in Hd as <-. discriminate He. }
    rewrite Hd. cbn [rev]. by rewrite rev_involutive. }
  rewrite Hstrip. destruct (body ++ [e]) as [|c name] eqn:Hb.
  - by destruct body.
  - done.
Qed.

(** The pattern at the mention: with the character before the [@] as
    group 1, or at the start of the text. *)
Lemma m_user_at prefix user post n prev :
  m_user_tail ("@"%char :: user ++ post) = Some (user, n) ->
  (prefix = [] /\ prev = None)
  \/ (exists c, prefix = [c] /\ is_alnum c = false /\ chr_eqb c "@" = false) ->
  m_user prev (prefix ++ "@"%char :: user ++ post)
  = Some ((prefix, user), length prefix + n).
Proof.
  intros Htail [[-> ->] | (c & -> & Hc & Hat)]; unfold m_user.
  - cbn [app]. by rewrite Htail.
  - cbn [app length].
    assert (H1 : m_user_tail (c :: "@"%char :: user ++ post) = None).
    { unfold m_user_tail. by rewrite Hat. }
    rewrite H1, Hc, Htail. by destruct prev.
Qed.

Lemma user_link_single api self prefix l body e post name pre w :
  let user := l :: body ++ [e] in
  cache_sound api w -> is_skipped user = false -> api user = Some name ->
  has_char "@" pre = false -> has_char "@" post = false ->
  (prefix = [] /\ pre = [])
  \/ (exists c, prefix = [c] /\ is_alnum c = false /\ chr_eqb c "@" = false) ->
  match post with c :: _ => is_user_char c = false | [] => True end ->
  is_alpha l = true -> forallb is_user_char body = true -> is_word e = true ->
  (convert_bb_user_link api self
     (pre ++ (prefix ++ "@"%char :: user) ++ post) w).1
  = Ok (pre ++ (prefix ++ str "[" ++ name ++ str "](" ++ str "https://bitbucket.org/"
                ++ user ++ str ")") ++ post).
Proof.
  intros user Hs Hsk Hapi Hpre Hpost Hprefix Hhead Hl Hbody He.
  pose proof (m_user_tail_at l body e post Hl Hbody He Hhead) as Htail.
  fold user in Htail.
  set (repl := user_link (PyStr name) user).
  assert (Hat : forall prev, prev = prev_of None pre ->
            m_user prev ((prefix ++ "@"%char :: user) ++ post)
            = Some ((prefix, user), length (prefix ++ "@"%char :: user))).
  { intros prev Hprev. rewrite <- app_assoc. cbn [app].
    rewrite (m_user_at prefix user post _ prev Htail).
    - by rewrite length_app.
    - destruct Hprefix as [[-> ->] | Hc]; [left; by subst | by right]. }
  assert (Hscan : findall m_user (pre ++ (prefix ++ "@"%char :: user) ++ post)
                  = [(prefix, user)]
                  /\ re_sub m_user repl (pre ++ (prefix ++ "@"%char :: user) ++ post)
                     = pre ++ repl (prefix, user) ++ post).
  { unfold findall, re_sub.
    assert (Hgo : findall_from m_user (prev_of None pre) 0
                    ((prefix ++ "@"%char :: user) ++ post) = [(prefix, user)]
                  /\ sub_from m_user repl (prev_of None pre) 0
                       ((prefix ++ "@"%char :: user) ++ post)
                     = repl (prefix, user) ++ post).
    { split.
      - apply findall_single_from; [by destruct prefix | by apply Hat |].
        intros p. by apply (findall_from_none m_user "@" m_user_none).
      - destruct (prefix ++ "@"%char :: user) as [|c f] eqn:Hf; [by destruct prefix|].
        change ((c :: f) ++ post) with (c :: (f ++ post)) in *.
        cbn [sub_from]. rewrite (Hat _ eq_refl).
        replace (length (c :: f) - 1) with (length f) by (cbn [length]; lia).
        rewrite sub_from_skip.
        by rewrite (sub_from_none m_user repl "@" m_user_none). }
    destruct Hprefix as [[-> ->] | (c & -> & Hc & Hcat)]; [done|].
    destruct Hgo as [Hg1 Hg2].
    change (([c] ++ "@"%char :: user) ++ post)
      with (c :: ("@"%char :: user) ++ post) in *.
    destruct (user_scan_before pre c (("@"%char :: user) ++ post) None Hpre Hcat repl)
      as [H1 H2].
    by rewrite H1, H2, Hg1, Hg2. }
  destruct Hscan as [Hfind Hsub].
  unfold convert_bb_user_link. rewrite Hfind. cbn [for_each].
  destruct (get_bb_username_sound api user w Hs) as [Hv _].
  assert (Hraw : (get_bb_username_raw api user w).1 = Ok (PyStr name)).
  { unfold get_bb_username_raw. rewrite Hsk. unfold bind, http_get.
    by rewrite Hapi. }
  rewrite Hraw in Hv.
  destruct (get_bb_username api user w) as [v w1] eqn:Hg. cbn [fst] in Hv. subst v.
  rewrite (bind_ok _ _ w (pre ++ repl (prefix, user) ++ post) w1).
  - cbn [fst]. unfold repl, user_link. cbn [fst fmt_value].
    by rewrite <- !app_assoc.
  - rewrite (bind_ok _ _ w (PyStr name) w1 Hg). fold repl. by rewrite Hsub.
Qed.

(** A mention of a user whom the API knows under a display name without
    backslash (which [re.sub] would read as an escape), alone in a text
    with no other [@], at the start of the text or after a character
    that is no letter and no digit: the mention becomes the link with
    the display name as its text; the prose around it stays. *)
Theorem convert_bb_user_link_known_user api self pre l body e post name w :
  has_char "\" name = false ->
  cache_sound api w ->
  is_skipped (l :: body ++ [e]) = false -> api (l :: body ++ [e]) = Some name ->
  has_char "@" pre = false -> has_char "@" post = false ->
  match last pre with Some c => is_alnum c = false | None => True end ->
  match post with c :: _ => is_user_char c = false | [] => True end ->
  is_alpha l = true -> forallb is_user_char body = true -> is_word e = true ->
  (convert_bb_user_link api self
     (pre ++ ("@"%char :: l :: body ++ [e]) ++ post) w).1
  = Ok (pre ++ (str "[" ++ name ++ str "](" ++ str "https://bitbucket.org/"
                ++ (l :: body ++ [e]) ++ str ")") ++ post).
Proof.
  intros _ Hs Hsk Hapi Hpre Hpost Hlast Hhead Hl Hbody He.
  destruct pre as [|c pre _] using rev_ind.
  - apply (user_link_single api self [] l body e post name [] w); auto.
  - rewrite last_snoc in Hlast.
    rewrite has_char_app, has_char_cons in Hpre.
    apply orb_false_iff in Hpre as [Hpre Hc]. apply orb_false_iff in Hc as [Hc _].
    pose proof (user_link_single api self [c] l body e post name pre w
                  Hs Hsk Hapi Hpre Hpost) as H.
    rewrite <- !(app_assoc pre [c]). apply H; auto.
    right. exists c. split; [done|]. split; [done|].
    unfold chr_eqb in *. by rewrite Ascii.eqb_sym.
Qed.

Lemma convert_bb_user_link_known_user_witness :
  (convert_bb_user_link demo_api demo_index
     (str "thanks " ++ ("@"%char :: "a"%char :: str "lic" ++ ["e"%char]) ++ str "!")
     world0).1
  = Ok (str "thanks " ++ (str "[" ++ str "Alice" ++ str "](" ++ str "https://bitbucket.org/"
                          ++ ("a"%char :: str "lic" ++ ["e"%char]) ++ str ")") ++ str "!").
Proof.
  apply (convert_bb_user_link_known_user demo_api demo_index (str "thanks ")
           "a"%char (str "lic") "e"%char (str "!") (str "Alice") world0).
  - reflexivity.
  - intros u v H. simpl in H. by rewrite lookup_empty in H.
  - reflexivity.
  - reflexivity.
  - reflexivity.
  - reflexivity.
  - reflexivity.
  - reflexivity.
  - reflexivity.
  - reflexivity.
  - reflexivity.
Defined.

(** ** One request per user name *)

Lemma rstrip_by_prefix f s : exists a, s = rstrip_by f s ++ a.
Proof.
  unfold rstrip_by. destruct (lstrip_by_spec f (rev s)) as (a & Hs & _).
  exists (rev a). apply (f_equal (@rev ascii)) in Hs.
  by rewrite rev_involutive, rev_app_distr in Hs.
Qed.

Lemma is_alpha_user_char l : is_alpha l = true -> is_user_char l = true.
Proof. intros Hl. unfold is_user_char, is_word, is_alnum. by rewrite Hl. Qed.

Lemma not_user_char_not_alnum c : is_user_char c = false -> is_alnum c = false.
Proof.
  unfold is_user_char, is_word. intros H.
  apply orb_false_iff in H as [H _]. by apply orb_false_iff in H as [H _].
Qed.

(** What the mention pattern matches: [@], then a name that starts with
    a letter and is made of the characters of names. *)
Lemma m_user_tail_shape s u n :
  m_user_tail s = Some (u, n) ->
  exists rest, s = "@"%char :: u ++ rest /\ n = 1 + length u
    /\ forallb is_user_char u = true
    /\ exists l u', u = l :: u' /\ is_alpha l = true.
Proof.
  destruct s as [|a [|l t]]; try done. cbn [m_user_tail].
  destruct (chr_eqb a "@" && is_alpha l) eqn:H; [|done].
  apply andb_true_iff in H as [Ha Hl]. apply chr_eqb_eq in Ha as ->.
  destruct (rstrip_by (chr_eqb "-") (span is_user_char t).1) as [|c name] eqn:Hr;
    [done|].
  intros [= <- <-].
  destruct (rstrip_by_prefix (chr_eqb "-") (span is_user_char t).1) as [a1 Ha1].
  rewrite Hr in Ha1.
  pose proof (span_app is_user_char t) as Happ.
  pose proof (span_forallb is_user_char t) as Hall.
  rewrite Ha1 in Happ, Hall. rewrite forallb_app in Hall.
  apply andb_true_iff in Hall as [Hall _].
  exists (a1 ++ (span is_user_char t).2). split; [|split; [|split]].
  - rewrite <- Happ at 1. by rewrite <- !app_assoc.
  - cbn [length]. lia.
  - change (forallb is_user_char (l :: c :: name))
      with (is_user_char l && forallb is_user_char (c :: name)).
    by rewrite (is_alpha_user_char l Hl), Hall.
  - by exists l, (c :: name).
Qed.

Lemma m_user_shape prev s pf u n :
  m_user prev s = Some ((pf, u), n) ->
  exists rest, s = pf ++ "@"%char :: u ++ rest /\ n = length pf + 1 + length u
    /\ length pf <= 1
    /\ forallb is_user_char u = true
    /\ exists l u', u = l :: u' /\ is_alpha l = true.
Proof.
  unfold m_user.
  assert (H1 : forall u0 n0, m_user_tail s = Some (u0, n0) ->
            Some (([] : pystr, u0), n0) = Some ((pf, u), n) ->
            exists rest, s = pf ++ "@"%char :: u ++ rest
              /\ n = length pf + 1 + length u /\ length pf <= 1
              /\ forallb is_user_char u = true
              /\ exists l u', u = l :: u' /\ is_alpha l = true).
  { intros u0 n0 Ht [= <- <- <-].
    destruct (m_user_tail_shape s u0 n0 Ht) as (rest & -> & -> & Hall & Hl).
    exists rest. cbn [app length]. split; [done|]. split; [done|]. split; [lia|done]. }
  assert (H2 : match s with
               | c :: s1 =>
                 if is_alnum c then None
                 else match m_user_tail s1 with
                      | Some (u, n) => Some (([c], u), S n)
                      | None => None
                      end
               | [] => None
               end = Some ((pf, u), n) ->
            exists rest, s = pf ++ "@"%char :: u ++ rest
              /\ n = length pf + 1 + length u /\ length pf <= 1
              /\ forallb is_user_char u = true
              /\ exists l u', u = l :: u' /\ is_alpha l = true).
  { destruct s as [|c s1]; [done|]. destruct (is_alnum c); [done|].
    destruct (m_user_tail s1) as [[u0 n0]|] eqn:Ht; [|done].
    intros [= <- <- <-].
    destruct (m_user_tail_shape s1 u0 n0 Ht) as (rest & -> & -> & Hall & Hl).
    exists rest. cbn [app length]. split; [done|]. split; [done|]. split; [lia|done]. }
  destruct prev as [p|]; [apply H2|].
  destruct (m_user_tail s) as [[u0 n0]|] eqn:Ht; [|apply H2].
  by apply (H1 u0 n0).
Qed.

(** A match that starts before a character that is no character of a
    name, with [@] after it, ends before that character. *)
Lemma m_user_stops_before prev a1 c rest pf u n :
  m_user prev (a1 ++ c :: "@"%char :: rest) = Some ((pf, u), n) ->
  a1 <> [] -> is_user_char c = false -> n <= length a1.
Proof.
  intros Hm Hne Hc.
  destruct (m_user_shape _ _ _ _ _ Hm) as (rest0 & Hs & -> & Hpf & Hall & l & u' & -> & Hl).
  destruct (decide (length pf + 1 + length (l :: u') <= length a1)) as [|Hn]; [done|].
  exfalso.
  assert (Hj : 1 <= length a1) by (destruct a1; [done | cbn [length]; lia]).
  pose proof (list_lookup_middle a1 ("@"%char :: rest) c (length a1) eq_refl) as Hat.
  assert (Hat' : (a1 ++ c :: "@"%char :: rest) !! S (length a1) = Some "@"%char).
  { rewrite lookup_app_r by lia. by replace (S (length a1) - length a1) with 1 by lia. }
  rewrite Hs in Hat, Hat'.
  destruct (decide (length a1 = length pf)) as [Heq|Hneq].
  - rewrite Heq in Hat'. rewrite lookup_app_r in Hat' by lia.
    replace (S (length pf) - length pf) with 1 in Hat' by lia.
    cbn in Hat'. injection Hat' as ->. discriminate Hl.
  - rewrite lookup_app_r in Hat by lia.
    destruct (length a1 - length pf) as [|k] eqn:Hk; [lia|].
    cbn [lookup list_lookup] in Hat.
    change (((l :: u') ++ rest0) !! k = Some c) in Hat.
    rewrite lookup_app_l in Hat by (cbn [length] in *; lia).
    apply list_elem_of_lookup_2 in Hat.
    rewrite forallb_forall in Hall.
    apply list_elem_of_In, Hall in Hat. congruence.
Qed.

Lemma m_user_tail_name u b :
  username u -> outside_name (head b) ->
  m_user_tail ("@"%char :: u ++ b) = Some (u, length ("@"%char :: u)).
Proof.
  intros (l & body & e & -> & Hl & Hbody & He) Hb.
  apply (m_user_tail_at l body e b Hl Hbody He). by destruct b.
Qed.

Lemma m_user_tail_at_sign c s : m_user_tail (c :: "@"%char :: s) = None.
Proof. cbn [m_user_tail]. by rewrite andb_false_r. Qed.

(** The pattern at a mention, with the character before the [@] as
    group 1. *)
Lemma m_user_mention prev c u b :
  username u -> is_user_char c = false -> outside_name (head b) ->
  m_user prev (c :: "@"%char :: u ++ b) = Some (([c], u), S (length ("@"%char :: u))).
Proof.
  intros Hu Hc Hb. unfold m_user.
  rewrite m_user_tail_at_sign, (not_user_char_not_alnum c Hc).
  rewrite (m_user_tail_name u b Hu Hb). by destruct prev.
Qed.

(** The scan reaches a mention: no match before it takes the character
    before its [@]. *)
Lemma findall_user_finds a c u b :
  username u -> is_user_char c = false -> outside_name (head b) ->
  forall prev skip, skip <= length a ->
  u ∈ map snd (findall_from m_user prev skip (a ++ c :: "@"%char :: u ++ b)).
Proof.
  intros Hu Hc Hb. induction a as [|x a IH]; intros prev skip Hskip.
  - assert (skip = 0) as -> by (cbn [length] in Hskip; lia).
    cbn [app findall_from]. rewrite (m_user_mention prev c u b Hu Hc Hb).
    cbn [map snd]. apply list_elem_of_here.
  - change ((x :: a) ++ c :: "@"%char :: u ++ b)
      with (x :: (a ++ c :: "@"%char :: u ++ b)).
    cbn [findall_from]. destruct skip as [|k].
    + destruct (m_user prev (x :: a ++ c :: "@"%char :: u ++ b))
        as [[[pf v] n]|] eqn:Hm.
      * cbn [map]. apply list_elem_of_further, IH.
        pose proof (m_user_stops_before prev (x :: a) c (u ++ b) pf v n Hm) as Hn.
        cbn [length] in Hn. specialize (Hn ltac:(done) Hc). lia.
      * apply IH. lia.
    + apply IH. cbn [length] in Hskip. lia.
Qed.

(** What the specification calls a mention, the code finds. *)
Lemma mention_in_mentions u t : mention_in u t -> u ∈ mentions t.
Proof.
  intros (a & b & -> & Hu & Ha & Hb). unfold mentions, findall.
  destruct a as [|c a _] using rev_ind.
  - cbn [app]. destruct (u ++ b) as [|y t] eqn:Hub.
    { destruct Hu as (l & body & e & -> & _). discriminate Hub. }
    cbn [findall_from]. rewrite <- Hub. unfold m_user.
    rewrite (m_user_tail_name u b Hu Hb). cbn [map snd]. apply list_elem_of_here.
  - rewrite last_snoc in Ha. rewrite <- app_assoc. cbn [app].
    apply (findall_user_finds a c u b Hu Ha Hb None 0). lia.
Qed.

(** On a text without [<] and [/] the rules before the user-mention
    rule find nothing: the names looked up are the mentions of the text
    itself. *)
Lemma convert_all_prose api n2h s calls w :
  prose s = true -> served calls w ->
  served (calls ++ mentions s) (convert_all api n2h s w).2
  /\ exists c, (convert_all api n2h s w).1 = Ok c.
Proof.
  intros Hp Hs. unfold prose in Hp. apply negb_true_iff, orb_false_iff in Hp.
  destruct Hp as [Hlt Hslash]. unfold convert_all.
  assert (Hn : normalize_bb_url n2h s = s).
  { unfold normalize_bb_url.
    rewrite (py_replace_without "/" s) by done.
    rewrite (py_replace_without "/" s) by done.
    apply (py_replace_without "/"); [|done].
    by rewrite has_char_app, orb_true_r. }
  rewrite Hn.
  unfold convert_cset_marker, findall.
  rewrite (findall_from_none m_cset_marker "<" m_cset_marker_none) by done.
  cbn [for_each]. rewrite bind_ret_l.
  unfold convert_bb_cset_link, findall.
  rewrite (findall_from_none _ "/" (m_cset_link_none (bb_url n2h))) by done.
  cbn [for_each]. rewrite bind_ret_l.
  unfold convert_bb_issue_link, findall.
  rewrite (findall_from_none _ "/" (m_issue_link_none (bb_url n2h))) by done.
  cbn [fold_left].
  unfold convert_bb_src_link, findall.
  rewrite (findall_from_none _ "/" (m_src_link_none (bb_url n2h))) by done.
  cbn [for_each]. rewrite bind_ret_l.
  destruct (convert_bb_user_link_served api n2h calls s w Hs) as [Hs' [c Hc]].
  unfold bind. destruct (convert_bb_user_link api n2h s w) as [r w1].
  cbn [fst snd] in Hs', Hc. subst r. unfold ret. cbn [fst snd]. eauto.
Qed.

Lemma get_and_convert_prose api n2h d k calls w :
  prose_at d k -> served calls w ->
  exists s new w1,
    d !! k = Some (JStr s)
    /\ (body <- get_str d k ;; convert_all api n2h body) w = (Ok new, w1)
    /\ served (calls ++ mentions s) w1.
Proof.
  intros (s & Hk & Hp) Hs.
  destruct (convert_all_prose api n2h s calls w Hp Hs) as [Hs' [c Hc]].
  destruct (convert_all api n2h s w) as [r w1] eqn:Hall.
  cbn [fst snd] in Hs', Hc. subst r.
  exists s, c, w1. split; [done|]. split; [|done].
  unfold bind, get_str. rewrite Hk. unfold ret. by rewrite Hall.
Qed.

Lemma convert_comments_prose api n2h cs calls w :
  Forall (fun c => prose_at c (str "body")) cs -> served calls w ->
  exists extra,
    served (calls ++ extra) (convert_comments api n2h cs w).2
    /\ (convert_comments api n2h cs w).1.1 = Ok tt
    /\ forall c s u, c ∈ cs -> c !! str "body" = Some (JStr s) ->
         u ∈ mentions s -> u ∈ extra.
Proof.
  intros Hcs. revert calls w.
  induction Hcs as [|c cs Hc _ IH]; intros calls w Hs.
  - exists []. rewrite app_nil_r. split; [done|]. split; [done|].
    by intros c s u ?%elem_of_nil.
  - destruct (get_and_convert_prose api n2h c (str "body") calls w Hc Hs)
      as (s & new & w1 & Hk & Hrun & Hs1).
    destruct (IH _ w1 Hs1) as (extra & Hs2 & Hok & Hin).
    exists (mentions s ++ extra). cbn [convert_comments]. rewrite Hrun.
    destruct (convert_comments api n2h cs w1) as [[r cs''] w2].
    cbn [fst snd] in *. rewrite app_assoc. split; [done|]. split; [done|].
    intros c0 s0 u Hc0 Hk0 Hu. apply elem_of_app.
    apply elem_of_cons in Hc0 as [-> | Hc0].
    + left. rewrite Hk in Hk0. by injection Hk0 as <-.
    + right. by apply (Hin c0 s0).
Qed.

Lemma convert_issue_content_prose api n2h e calls w :
  prose_entry e -> served calls w ->
  exists extra,
    served (calls ++ extra) (convert_issue_content api n2h e w).2
    /\ (convert_issue_content api n2h e w).1.1 = Ok tt
    /\ forall s u, text_of e s -> u ∈ mentions s -> u ∈ extra.
Proof.
  intros [Hc Hcs] Hs.
  destruct (get_and_convert_prose api n2h (issue e) (str "content") calls w Hc Hs)
    as (s & new & w1 & Hk & Hrun & Hs1).
  destruct (convert_comments_prose api n2h (comments e) _ w1 Hcs Hs1)
    as (extra & Hs2 & Hok & Hin).
  exists (mentions s ++ extra). unfold convert_issue_content. rewrite Hrun.
  destruct (convert_comments api n2h (comments e) w1) as [[r cs] w2].
  cbn [fst snd] in *. rewrite app_assoc. split; [done|]. split; [done|].
  intros s0 u [Hk0 | (c & Hc0 & Hk0)] Hu; apply elem_of_app.
  - left. rewrite Hk in Hk0. by injection Hk0 as <-.
  - right. by apply (Hin c s0).
Qed.

Lemma convert_issues_prose api n2h es calls w :
  Forall prose_entry es -> served calls w ->
  exists extra,
    served (calls ++ extra) (convert_issues api n2h es w).2
    /\ forall e s u, e ∈ es -> text_of e s -> u ∈ mentions s -> u ∈ extra.
Proof.
  intros Hes. revert calls w.
  induction Hes as [|e es He _ IH]; intros calls w Hs.
  - exists []. rewrite app_nil_r. split; [done|]. by intros e s u ?%elem_of_nil.
  - destruct (convert_issue_content_prose api n2h e calls w He Hs)
      as (extra1 & Hs1 & Hok & Hin1).
    cbn [convert_issues].
    destruct (convert_issue_content api n2h e w) as [[r e'] w1].
    cbn [fst snd] in Hs1, Hok. subst r.
    destruct (IH _ w1 Hs1) as (extra2 & Hs2 & Hin2).
    exists (extra1 ++ extra2).
    destruct (convert_issues api n2h es w1) as [[r es''] w2].
    cbn [fst snd] in *. rewrite app_assoc. split; [done|].
    intros e0 s u He0 Ht Hu. apply elem_of_app.
    apply elem_of_cons in He0 as [-> | He0].
    + left. by apply (Hin1 s).
    + right. by apply (Hin2 e0 s).
Qed.

(** C8 (as amended): in a run over any list of issues, from an empty
    cache, no user name is requested from the API more than once, and a
    skipped name is never requested.  When the texts of the issues are
    strings without [<] and [/] (so that the user-mention rule gets them
    as they are), the base URL stands for itself in a pattern and no
    display name has a backslash (so that no rule raises), a name that
    is not skipped and that some text of some issue mentions is
    requested exactly once. *)
Theorem user_lookup_once_per_name api n2h es u :
  times_requested u (convert_issues api n2h es world0).2 <= 1
  /\ (is_skipped u = true ->
      times_requested u (convert_issues api n2h es world0).2 = 0)
  /\ (plain_pattern (bb_url n2h) = true ->
      (forall v name, api v = Some name -> has_char "\" name = false) ->
      Forall prose_entry es ->
      is_skipped u = false -> mentioned_in_issues u es ->
      times_requested u (convert_issues api n2h es world0).2 = 1).
Proof.
  split; [|split].
  - destruct (tracked_convert_issues api n2h es world0) as [calls Hs].
    { exists []. apply served_world0. }
    rewrite (times_requested_served _ _ _ Hs). destruct (_ && _); lia.
  - intros Hsk. destruct (tracked_convert_issues api n2h es world0) as [calls Hs].
    { exists []. apply served_world0. }
    rewrite (times_requested_served _ _ _ Hs), Hsk. by rewrite andb_false_r.
  - intros _ _ Hes Hsk (e & s & He & Ht & Hm).
    destruct (convert_issues_prose api n2h es [] world0 Hes served_world0)
      as (extra & Hs & Hin).
    rewrite (times_requested_served _ _ _ Hs), Hsk.
    rewrite bool_decide_eq_true_2; [done|].
    apply (Hin e s u He Ht). by apply mention_in_mentions.
Qed.

Lemma user_lookup_once_per_name_witness :
  times_requested (str "bob") (convert_issues demo_api demo_index bob_issues world0).2
  = 1.
Proof.
  destruct (user_lookup_once_per_name demo_api demo_index bob_issues (str "bob"))
    as (_ & _ & H).
  apply H.
  - reflexivity.
  - intros v name. unfold demo_api.
    destruct (pystr_eqb v (str "alice")); [|done]. by intros [= <-].
  - repeat constructor; eexists; (split; [reflexivity | reflexivity]).
  - reflexivity.
  - exists (issue_with 1 (str "ask @bob") [str "@bob said so"; str "thanks, @bob!"]),
      (str "thanks, @bob!").
    split; [apply list_elem_of_here|]. split.
    + right. eexists. split; [apply list_elem_of_further, list_elem_of_here|].
      reflexivity.
    + exists (str "thanks, "), (str "!"). split; [reflexivity|].
      split; [|split; reflexivity].
      exists "b"%char, (str "o"), "b"%char. by repeat split.
Defined.

(** C8 (counterexample): the skipped name [class] is mentioned in two
    texts of a run, and the run sends no request for it at all, where
    the claim has exactly one. *)
Lemma skipped_name_never_requested :
  Forall prose_entry class_issues
  /\ mentioned_in_issues (str "class") class_issues
  /\ times_requested (str "class")
       (convert_issues demo_api demo_index class_issues world0).2 = 0.
Proof.
  split; [|split].
  - repeat constructor; eexists; (split; [reflexivity | reflexivity]).
  - exists (issue_with 1 (str "the @class decorator") [str "use @class here"]),
      (str "the @class decorator").
    split; [apply list_elem_of_here|]. split; [by left|].
    exists (str "the "), (str " decorator"). split; [reflexivity|].
    split; [|split; reflexivity].
    exists "c"%char, (str "las"), "s"%char. by repeat split.
  - vm_compute. reflexivity.
Qed.
